(** * MapProxy seeding engine ([mapproxy/core/seed_ng.py])

    A shallow embedding of the seeding engine and the properties its
    specification states about it.

    Conventions.
    - Python [int] is [Z].  The module imports [division] from
      [__future__], so [/] is true division and yields a [float].
    - In [status_symbol] the operands of [/] are integers and the
      constant [4]; the quotients are modelled by exact rationals ([Q]).
      A binary64 transcription is given next to it and compared on a
      finite range.  In [report_till_level] the constant [0.7] has no exact
      binary64 representation, so that product is modelled in binary64
      (Rocq's primitive floats).
    - A call that can raise returns a [result]; loops that the source
      writes as [while True] or as a recursion on the level take fuel, and
      each comes with a theorem that the fuel given by the caller suffices.
    - Output, sleeping and queue submissions are recorded as events;
      printing is taken to succeed. *)

From Stdlib Require Import ZArith QArith Qround Qpower Lia Lqa List Bool Ascii String.
From Stdlib Require Import Floats Uint63 Permutation.
Import ListNotations.

Open Scope Z_scope.

(** * Part I: the embedding *)

(** ** Python values used by the module *)

Module Py.

  (** The built-in errors the module's own expressions can raise. *)
Inductive error : Type :=
  | ZeroDivisionError
  | IndexError
  | OverflowError
  | ValueError.

  (** A call either returns a value or raises an exception of type [E]. *)
Inductive result (E A : Type) : Type :=
  | Ok (a : A)
  | Raised (e : E).
Arguments Ok {E A} a.
Arguments Raised {E A} e.

Definition bind {E A B} (r : result E A) (k : A -> result E B) : result E B :=
    match r with
    | Ok a => k a
    | Raised e => Raised e
    end.

  (** [a / b] on floats, idealised: raises on a zero divisor. *)
Definition truediv (a b : Q) : result error Q :=
    if Qeq_bool b 0 then Raised ZeroDivisionError else Ok (a / b)%Q.

  (** [l[k]] on a list: indices [-len .. len-1] are valid, negative ones
      count from the end. *)
Definition getitem {A} (l : list A) (k : Z) : result error A :=
    let n := Z.of_nat (List.length l) in
    let k' := if k <? 0 then k + n else k in
    if (0 <=? k') && (k' <? n) then
      match nth_error l (Z.to_nat k') with
      | Some a => Ok a
      | None => Raised IndexError
      end
    else Raised IndexError.

  (** [enumerate(l)], counting from [i]. *)
Fixpoint enumerate_from {A} (i : Z) (l : list A) : list (Z * A) :=
    match l with
    | [] => []
    | a :: l' => (i, a) :: enumerate_from (i + 1) l'
    end.

Definition enumerate {A} (l : list A) : list (Z * A) := enumerate_from 0 l.

  (** [range(n)] *)
Definition range (n : nat) : list Z := map Z.of_nat (seq 0 n).

End Py.

Import Py.

(** ** Binary64 arithmetic, for the places where rounding matters *)

Module B64.

  (** [float(z)]: the nearest binary64 value, ties to even; Python raises
      [OverflowError] when the integer is too large. *)
Definition of_int (z : Z) : result error float :=
    let x := SF2Prim (binary_normalize prec emax z 0 false) in
    if PrimFloat.is_infinity x then Raised OverflowError else Ok x.

  (** The magnitude [m * 2^e] cut to an integer, rounding toward zero. *)
Definition magnitude_floor (m : positive) (e : Z) : Z :=
    if e <? 0 then Z.shiftr (Zpos m) (- e) else Z.shiftl (Zpos m) e.

  (** [int(x)]: truncation toward zero. *)
Definition to_int (x : float) : result error Z :=
    match Prim2SF x with
    | S754_zero _ => Ok 0
    | S754_finite s m e =>
        let a := magnitude_floor m e in
        Ok (if s then - a else a)
    | S754_infinity _ => Raised OverflowError
    | S754_nan => Raised ValueError
    end.

  (** The literal [0.7] as Python reads it. *)
Definition seven_tenths : float := 0x1.6666666666666p-1%float.

End B64.

(** ** Binary64 values as the rationals they stand for

    Python's [float] is IEEE 754 binary64: every operation returns the
    exact result rounded to the nearest value [m * 2^e] with
    [|m| < 2^53] and [e >= -1074], ties going to the even [m], and a
    result that rounds to [2^1024] or beyond is an infinity.  A finite
    float is kept as its value; the sign of a zero, which none of the
    operations below can tell, is dropped. *)

Module Float64.

Inductive value : Type :=
  | Finite (q : Q)
  | Infinite (negative : bool).

  (** [floor(log2 a)], for [a > 0]. *)
Definition ilog2 (a : Q) : Z :=
    let c := Z.log2 (Qnum a) - Z.log2 (Zpos (Qden a)) in
    if Qle_bool (Qpower 2 c) a then c else c - 1.

  (** The nearest integer, the even one of two that are equally near. *)
Definition round_half_even (z : Q) : Z :=
    let f := Qfloor z in
    match Qcompare (z - inject_Z f) (1 # 2) with
    | Lt => f
    | Gt => f + 1
    | Eq => if Z.even f then f else f + 1
    end.

  (** The exponent of the last place of the floats next to [a > 0]: 53
      bits from the leading one, and no less than that of the subnormal
      numbers. *)
Definition ulp_exponent (a : Q) : Z := Z.max (ilog2 a - 52) (-1074).

  (** [a > 0] rounded to the nearest multiple of its last place. *)
Definition round_pos (a : Q) : Q :=
    let u := ulp_exponent a in
    (inject_Z (round_half_even (a / Qpower 2 u)) * Qpower 2 u)%Q.

Definition overflow : Q := Qpower 2 1024.

  (** The float nearest to [r]. *)
Definition round (r : Q) : value :=
    match Qnum r with
    | Z0 => Finite 0
    | Zpos _ =>
        let q := round_pos r in
        if Qle_bool overflow q then Infinite false else Finite q
    | Zneg _ =>
        let q := round_pos (- r) in
        if Qle_bool overflow q then Infinite true else Finite (- q)
    end.

  (** The largest float, an integer. *)
Definition max_int : Z := (2 ^ 53 - 1) * 2 ^ 971.

  (** The conversion of an [int] operand that meets a float, which is
      [float(z)]: Python raises [OverflowError] when the integer is too
      large. *)
Definition of_int (z : Z) : result error Q :=
    match round (inject_Z z) with
    | Finite q => Ok q
    | Infinite _ => Raised OverflowError
    end.

  (** [a / b] on two [int]s under [from __future__ import division]: the
      float nearest to the quotient of the integers. *)
Definition int_truediv (a b : Z) : result error Q :=
    if b =? 0 then Raised ZeroDivisionError
    else match round (inject_Z a / inject_Z b) with
         | Finite q => Ok q
         | Infinite _ => Raised OverflowError
         end.

  (** [x / y] on two floats; the quotient may be an infinity. *)
Definition truediv (x y : Q) : result error value :=
    if Qeq_bool y 0 then Raised ZeroDivisionError else Ok (round (x / y)).

  (** [int(math.ceil(x))] *)
Definition ceil_int (x : value) : result error Z :=
    match x with
    | Finite q => Ok (Qceiling q)
    | Infinite _ => Raised OverflowError
    end.

  (** The value of a number of the machine. *)
Definition of_machine (x : float) : option value :=
    match Prim2SF x with
    | S754_zero _ => Some (Finite 0)
    | S754_finite s m e =>
        Some (Finite ((if s then - inject_Z (Zpos m) else inject_Z (Zpos m))
                      * Qpower 2 e))
    | S754_infinity s => Some (Infinite s)
    | S754_nan => None
    end.

Definition value_eqb (a b : value) : bool :=
    match a, b with
    | Finite p, Finite q => Qeq_bool p q
    | Infinite s, Infinite t => Bool.eqb s t
    | _, _ => false
    end.

  (** [round] gives what the machine gives: for the integer [z * 2^e]
      turned into a float, and for the quotient of two integers that are
      floats themselves. *)
Definition converts_as_machine (ze : Z * Z) : bool :=
    let '(z, e) := ze in
    match of_machine (SF2Prim (binary_normalize prec emax z e false)) with
    | Some v => value_eqb v (round (inject_Z z * Qpower 2 e))
    | None => false
    end.

Definition divides_as_machine (nd : Z * Z) : bool :=
    let '(n, d) := nd in
    let x := SF2Prim (binary_normalize prec emax n 0 false) in
    let y := SF2Prim (binary_normalize prec emax d 0 false) in
    match of_machine (PrimFloat.div x y) with
    | Some v => value_eqb v (round (inject_Z n / inject_Z d))
    | None => false
    end.

Definition conversion_samples : list (Z * Z) :=
    [(1, 0); (-1, 0); (3, -2); (2 ^ 53 + 1, 0); (2 ^ 53 + 3, 0);
     (2 ^ 54 + 3, -2); (2 ^ 54 + 2, 0); (2 ^ 54 + 6, 0); (- (2 ^ 60 + 1), 0);
     (10 ^ 30, 0); (10 ^ 400, 0); (10 ^ 400, -2); (2 ^ 1024, -2);
     (2 ^ 1024 - 2 ^ 970, 0); (2 ^ 1024 - 2 ^ 970 - 1, 0); (2 ^ 1024, 0);
     (- 2 ^ 1024, 0); (1, -1074); (1, -1075); (3, -1075); (2 ^ 53 - 1, -1075);
     (2 ^ 53 + 1, -1075); (5, -1076)].

Definition quotient_samples : list (Z * Z) :=
    [(1, 3); (2, 3); (-1, 3); (1, -3); (1, 10); (22, 7); (2 ^ 52 + 1, 2 ^ 52 + 1);
     (4 * (2 ^ 52 + 1), 2 ^ 53 - 1); (2 ^ 53, 3); (2 ^ 53 - 1, 2 ^ 53);
     (1, 2 ^ 53 - 1); (2 ^ 53 - 1, 1); (7, 2 ^ 53); (3, 2 ^ 52 + 1);
     (2 ^ 53 - 3, 2 ^ 53 - 1); (- (2 ^ 53), 7); (0, 5); (12, 4); (5, 2)].

End Float64.

(** ** [status_symbol] *)

Definition symbols : list ascii := list_ascii_of_string " .oO0".

(** The index [int(math.ceil(i/(total/4)))], with exact quotients: what
    the expression gives when no division is rounded.  [status_index_b64]
    below is the index with the roundings of binary64; for every [total] up
    to [2^50] the two give the same symbol. *)
Definition status_index (i total : Z) : result error Z :=
  bind (truediv (inject_Z total) 4) (fun quarter =>
  bind (truediv (inject_Z i) quarter) (fun q =>
  Ok (Qceiling q))).

(** [[
def status_symbol(i, total):
    symbols = list(' .oO0')
    i += 1
    if 0 < i > total:
        return 'X'
    else:
        return symbols[int(math.ceil(i/(total/4)))]
]]
    The returned one-character string is an [ascii].  The quotients are
    exact here; [status_symbol_b64] below is the function with the
    roundings of binary64, which returns the same for every [total] up to
    [2^50]. *)
Definition status_symbol (i total : Z) : result error ascii :=
  let i := i + 1 in
  if (0 <? i) && (i >? total) then Ok "X"%char
  else bind (status_index i total) (fun k => getitem symbols k).

(** The index [int(math.ceil(i/(total/4)))] as Python computes it, in
    binary64: [total/4] divides two [int]s and gives the float nearest to
    their quotient; [i] is then turned into a float and divided by it. *)
Definition status_index_b64 (i total : Z) : result error Z :=
  bind (Float64.int_truediv total 4) (fun quarter =>
  bind (Float64.of_int i) (fun x =>
  bind (Float64.truediv x quarter) (fun q =>
  Float64.ceil_int q))).

(** [status_symbol] with that index. *)
Definition status_symbol_b64 (i total : Z) : result error ascii :=
  let i := i + 1 in
  if (0 <? i) && (i >? total) then Ok "X"%char
  else bind (status_index_b64 i total) (fun k => getitem symbols k).

Definition error_eqb (a b : error) : bool :=
  match a, b with
  | ZeroDivisionError, ZeroDivisionError => true
  | IndexError, IndexError => true
  | OverflowError, OverflowError => true
  | ValueError, ValueError => true
  | _, _ => false
  end.

Definition result_ascii_eqb (a b : result error ascii) : bool :=
  match a, b with
  | Ok x, Ok y => Ascii.eqb x y
  | Raised x, Raised y => error_eqb x y
  | _, _ => false
  end.

(** All pairs [(i, total)] with [1 <= total <= n] and [-1 <= i <= total]
    on which the exact and the binary64 transcription agree. *)
Definition status_symbol_agrees_upto (n : nat) : bool :=
  forallb (fun total =>
    forallb (fun i =>
      result_ascii_eqb (status_symbol (i - 1) total)
                       (status_symbol_b64 (i - 1) total))
      (range (S (S (Z.to_nat total)))))
    (map (fun t => t + 1) (range n)).

(** ** The seed range and the progress cutoff *)

(** [[
num_seed_levels = level[1] - level[0] + 1
report_till_level = level[0] + int(num_seed_levels * 0.7)
]] *)
Definition num_seed_levels (level : Z * Z) : Z := snd level - fst level + 1.

Definition report_till_level (level : Z * Z) : result error Z :=
  bind (B64.of_int (num_seed_levels level)) (fun n =>
  bind (B64.to_int (PrimFloat.mul n B64.seven_tenths)) (fun k =>
  Ok (fst level + k))).

(** ** The grid interface

    [mapproxy.core.grid] is imported, not defined, by the module.  What
    the traversal uses of it is taken as an interface: the [MetaGrid]
    object [grid] with [get_affected_level_tiles] and [meta_bbox], and the
    two predicates [bbox_contains] and [bbox_intersects].  They are taken
    to return without raising.  A tile sequence holds [None] where the grid
    has no tile. *)
Record MetaGrid : Type := {
  bbox : Type;
  tile : Type;
  get_affected_level_tiles : bbox -> Z -> bbox * (Z * Z) * list (option tile);
  meta_bbox : tile -> bbox;
  bbox_contains : bbox -> bbox -> bool;
  bbox_intersects : bbox -> bbox -> bool
}.

(** ** The traversal: [TileSeeder._seed_location] and its closure [_seed] *)

Section Traversal.

Variable grid : MetaGrid.

Local Abbreviation bbox := (bbox grid).
Local Abbreviation tile := (tile grid).

  (** A work item of the pool: [(seed_id, tiles)]. *)
Definition batch : Type := list (option tile).

  (** What a run of the traversal does, in the order it does it. *)
Inductive seed_event : Type :=
  | EvEnter (cur_bbox : bbox) (level : Z) (id : string) (full_intersect : bool)
      (** [_seed] is called *)
  | EvProgress (level : Z) (cur_bbox : bbox) (full_intersect : bool)
      (** the progress line is printed *)
  | EvIntersects (sub_bbox : bbox)
      (** [intersects(sub_bbox)] is called *)
  | EvSubmit (id : string) (subtiles : batch).
      (** [seed_pool.seed(id, subtiles)] *)

  (** The target: [bbox] of [_seed_location], after the transformation to
      the SRS of the cache. *)
Variable target : bbox.

  (** [[
def intersects(sub_bbox):
    if bbox_contains(bbox, sub_bbox): return -1
    if bbox_intersects(bbox, sub_bbox): return 1
    return 0
]] *)
Definition intersects (sub_bbox : bbox) : Z :=
    if bbox_contains grid target sub_bbox then -1
    else if bbox_intersects grid target sub_bbox then 1
    else 0.

  (** The first loop of [_seed]:
[[
sub_seeds = []
for subtile in subtiles:
    if subtile is None: continue
    sub_bbox = grid.meta_bbox(subtile)
    intersection = -1 if full_intersect else intersects(sub_bbox)
    if intersection:
        sub_seeds.append((sub_bbox, intersection))
]]
      It returns [sub_seeds] and the calls of [intersects] it made. *)
Fixpoint collect_sub_seeds (full_intersect : bool) (subtiles : batch)
    : list (bbox * Z) * list seed_event :=
    match subtiles with
    | [] => ([], [])
    | None :: rest => collect_sub_seeds full_intersect rest
    | Some subtile :: rest =>
        let sub_bbox := meta_bbox grid subtile in
        let intersection := if full_intersect then -1 else intersects sub_bbox in
        let called := if full_intersect then [] else [EvIntersects sub_bbox] in
        let '(sub_seeds, calls) := collect_sub_seeds full_intersect rest in
        if intersection =? 0 then (sub_seeds, called ++ calls)
        else ((sub_bbox, intersection) :: sub_seeds, called ++ calls)
    end.

  (** The second loop of [_seed], over [enumerate(sub_seeds)]; [recur] is
      [_seed] itself:
[[
for i, (sub_bbox, intersection) in enumerate(sub_seeds):
    seed_id = id + status_symbol(i, total_sub_seeds)
    full_intersect = True if intersection == -1 else False
    _seed(sub_bbox, level+1, max_level, seed_id,
          full_intersect=full_intersect)
]] *)
Fixpoint seed_children
      (recur : bbox -> Z -> Z -> string -> bool
               -> option (list seed_event * result error unit))
      (id : string) (level max_level total_sub_seeds : Z)
      (indexed : list (Z * (bbox * Z)))
    : option (list seed_event * result error unit) :=
    match indexed with
    | [] => Some ([], Ok tt)
    | (i, (sub_bbox, intersection)) :: rest =>
        match status_symbol i total_sub_seeds with
        | Raised e => Some ([], Raised e)
        | Ok c =>
            let seed_id := String.append id (String c EmptyString) in
            let full_intersect := intersection =? -1 in
            match recur sub_bbox (level + 1) max_level seed_id full_intersect with
            | None => None
            | Some (evs, Raised e) => Some (evs, Raised e)
            | Some (evs, Ok _) =>
                match seed_children recur id level max_level total_sub_seeds rest with
                | None => None
                | Some (evs', r) => Some (evs ++ evs', r)
                end
            end
        end
    end.

Section WithCutoff.

Variable report_till_level : Z.

    (** [[
def _seed(cur_bbox, level, max_level, id='', full_intersect=False):
    bbox_, tiles_, subtiles = grid.get_affected_level_tiles(cur_bbox, level)
    subtiles = list(subtiles)
    if level <= report_till_level:
        print '[%s] %2s %s full:%r' % (timestamp(), level, format_bbox(cur_bbox),
                                       full_intersect)
        sys.stdout.flush()
    if level < max_level:
        sub_seeds = []
        ... first loop ...
        if sub_seeds:
            total_sub_seeds = len(sub_seeds)
            ... second loop ...
    seed_pool.seed(id, subtiles)
]]
        The recursion descends one level per call; [fuel] bounds its depth
        and [None] means that the bound was reached. *)
Fixpoint _seed (fuel : nat) (cur_bbox : bbox) (level max_level : Z)
        (id : string) (full_intersect : bool)
      : option (list seed_event * result error unit) :=
      match fuel with
      | O => None
      | S fuel' =>
          let '(bbox_, tiles_, subtiles) :=
            get_affected_level_tiles grid cur_bbox level in
          let enter := EvEnter cur_bbox level id full_intersect in
          let progress :=
            if level <=? report_till_level
            then [EvProgress level cur_bbox full_intersect] else [] in
          if level <? max_level then
            let '(sub_seeds, calls) := collect_sub_seeds full_intersect subtiles in
            let descent :=
              match sub_seeds with
              | [] => Some ([], Ok tt)
              | _ :: _ =>
                  let total_sub_seeds := Z.of_nat (List.length sub_seeds) in
                  seed_children (_seed fuel') id level max_level total_sub_seeds
                                (enumerate sub_seeds)
              end in
            match descent with
            | None => None
            | Some (evs, Raised e) =>
                Some (enter :: progress ++ calls ++ evs, Raised e)
            | Some (evs, Ok _) =>
                Some (enter :: progress ++ calls ++ evs ++ [EvSubmit id subtiles],
                      Ok tt)
            end
          else
            Some (enter :: progress ++ [EvSubmit id subtiles], Ok tt)
      end.

    (** The depth a call at [level] can reach. *)
Definition depth (level max_level : Z) : nat :=
      S (Z.to_nat (max_level - level)).

End WithCutoff.

  (** The part of [_seed_location] that runs the traversal:
[[
num_seed_levels = level[1] - level[0] + 1
report_till_level = level[0] + int(num_seed_levels * 0.7)
...
_seed(bbox, level[0], level[1])
]] *)
Definition _seed_location (level : Z * Z)
    : option (list seed_event * result error unit) :=
    match report_till_level level with
    | Raised e => Some ([], Raised e)
    | Ok cutoff =>
        _seed cutoff (depth (fst level) (snd level))
              target (fst level) (snd level) EmptyString false
    end.

  (** Projections of a run. *)
Definition is_submit (ev : seed_event) : bool :=
    match ev with EvSubmit _ _ => true | _ => false end.

Definition is_intersects (ev : seed_event) : bool :=
    match ev with EvIntersects _ => true | _ => false end.

Definition is_progress (ev : seed_event) : bool :=
    match ev with EvProgress _ _ _ => true | _ => false end.

Definition is_enter (ev : seed_event) : bool :=
    match ev with EvEnter _ _ _ _ => true | _ => false end.

  (** The work items submitted, in order. *)
Fixpoint submitted (evs : list seed_event) : list (string * batch) :=
    match evs with
    | [] => []
    | EvSubmit id subtiles :: rest => (id, subtiles) :: submitted rest
    | _ :: rest => submitted rest
    end.

  (** The tiles of the submitted work items, placeholders dropped. *)
Fixpoint present (b : batch) : list tile :=
    match b with
    | [] => []
    | Some t :: rest => t :: present rest
    | None :: rest => present rest
    end.

Definition emitted_tiles (evs : list seed_event) : list tile :=
    flat_map (fun item => present (snd item)) (submitted evs).

End Traversal.

Arguments EvEnter {grid} cur_bbox level id full_intersect.
Arguments EvProgress {grid} level cur_bbox full_intersect.
Arguments EvIntersects {grid} sub_bbox.
Arguments EvSubmit {grid} id subtiles.
Arguments is_submit {grid} ev.
Arguments is_intersects {grid} ev.
Arguments is_progress {grid} ev.
Arguments submitted {grid} evs.
Arguments present {grid} b.
Arguments emitted_tiles {grid} evs.

(** ** Exceptions and the world outside the engine

    What [exp_backoff] retries is decided by [isinstance] against a tuple
    of exception classes.  The classes, the exceptions a callee raises and
    the state the callee works on (the cache, the upstream service, the
    clock) are not fixed by the module; they are the interface below.
    [TileSourceError] is imported from [mapproxy.core.cache]. *)
Class Runtime : Type := {
  exn : Type;
  exc_class : Type;
  isinstance : exn -> exc_class -> bool;
  TileSourceError : exc_class;
  IOError : exc_class;
  world : Type;
  (** the world after [time.sleep(secs)] returned *)
  elapse : Z -> world -> world;
  (** what [time.sleep] raises when it is given a negative duration *)
  sleep_error : exn
}.

(** ** [exp_backoff] *)

Section ExpBackoff.

Context {RT : Runtime}.
Variable R : Type.

(** What a run of [exp_backoff] does, in the order it does it. *)
Inductive backoff_event : Type :=
| Called (o : result exn R)          (** [func()] was called and ended in [o] *)
| Printed (wait_for : Z) (ex : exn)  (** the retry message on [sys.stderr] *)
| Slept (wait_for : Z).              (** [time.sleep(wait_for)] returned *)

(** [except exceptions, ex]: the clause catches [ex] when it is an instance
    of one of the classes of the tuple. *)
Definition caught (exceptions : list exc_class) (ex : exn) : bool :=
  existsb (isinstance ex) exceptions.

Definition time_sleep (secs : Z) (w : world) : result exn unit * world :=
  if secs <? 0 then (Raised sleep_error, w) else (Ok tt, elapse secs w).

(** [[
def exp_backoff(func, max_repeat=10, start_backoff_sec=2,
        exceptions=(Exception,)):
    n = 0
    while True:
        try:
            result = func()
        except exceptions, ex:
            if (n+1) >= max_repeat:
                raise
            wait_for = start_backoff_sec * 2**n
            print >>sys.stderr, ("An error occured. Retry in %d seconds: %r" %
                (wait_for, ex))
            time.sleep(wait_for)
            n += 1
        else:
            return result
]]
    One unfolding of the loop per unit of [fuel]; [None] means that the
    fuel ran out. *)
Fixpoint exp_backoff_loop (func : world -> result exn R * world)
    (max_repeat start_backoff_sec : Z) (exceptions : list exc_class)
    (fuel : nat) (n : Z) (w : world)
  : option (result exn R * world * list backoff_event) :=
  match fuel with
  | O => None
  | S fuel' =>
      let '(o, w1) := func w in
      match o with
      | Ok result => Some (Ok result, w1, [Called o])
      | Raised ex =>
          if caught exceptions ex then
            if n + 1 >=? max_repeat then Some (Raised ex, w1, [Called o])
            else
              let wait_for := start_backoff_sec * 2 ^ n in
              match time_sleep wait_for w1 with
              | (Raised e, w2) =>
                  Some (Raised e, w2, [Called o; Printed wait_for ex])
              | (Ok _, w2) =>
                  match exp_backoff_loop func max_repeat start_backoff_sec
                                         exceptions fuel' (n + 1) w2 with
                  | None => None
                  | Some (r, w3, evs) =>
                      Some (r, w3,
                            Called o :: Printed wait_for ex :: Slept wait_for :: evs)
                  end
              end
          else Some (Raised ex, w1, [Called o])
      end
  end.

Definition default_max_repeat : Z := 10.
Definition default_start_backoff_sec : Z := 2.

Definition exp_backoff (func : world -> result exn R * world)
    (max_repeat start_backoff_sec : Z) (exceptions : list exc_class) (w : world)
  : option (result exn R * world * list backoff_event) :=
  exp_backoff_loop func max_repeat start_backoff_sec exceptions
                   (Z.to_nat (Z.max 1 max_repeat)) 0 w.

(** Projections of a run. *)
Fixpoint calls (evs : list backoff_event) : list (result exn R) :=
  match evs with
  | [] => []
  | Called o :: rest => o :: calls rest
  | _ :: rest => calls rest
  end.

Fixpoint sleeps (evs : list backoff_event) : list Z :=
  match evs with
  | [] => []
  | Slept d :: rest => d :: sleeps rest
  | _ :: rest => sleeps rest
  end.

Definition total_sleep (evs : list backoff_event) : Z :=
  fold_right Z.add 0 (sleeps evs).

End ExpBackoff.

Arguments Called {RT R} o.
Arguments Printed {RT R} wait_for ex.
Arguments Slept {RT R} wait_for.
Arguments exp_backoff_loop {RT R} func max_repeat start_backoff_sec exceptions fuel n w.
Arguments exp_backoff {RT R} func max_repeat start_backoff_sec exceptions w.
Arguments calls {RT R} evs.
Arguments sleeps {RT R} evs.
Arguments total_sleep {RT R} evs.

(** ** The queue items *)

Section QueueItems.

Variable grid : MetaGrid.

(** What travels through [tiles_queue]: the pair [(seed_id, tiles)] put by
    [SeedPool.seed], or the pair [(None, None)] put by [SeedPool.stop]. *)
Definition qitem : Type := (option string * option (batch grid))%type.

Definition sentinel : qitem := (None, None).

Definition work_item (seed_id : string) (tiles : batch grid) : qitem :=
  (Some seed_id, Some tiles).

(** The test of the worker: [tiles is None]. *)
Definition tiles_is_None (x : qitem) : bool :=
  match snd x with
  | None => true
  | Some _ => false
  end.

Definition sentinels (l : list qitem) : nat :=
  List.length (filter tiles_is_None l).

End QueueItems.

Arguments tiles_is_None {grid} x.
Arguments sentinels {grid} l.

(** ** [SeedWorker] *)

Module SeedWorker.

Section Worker.

Context {RT : Runtime}.
Variable grid : MetaGrid.

(** [self.cache.cache_mgr.load_tile_coords], a capability of the cache. *)
Variable load_tile_coords : batch grid -> world -> result exn unit * world.

Variable dry_run : bool.

Inductive worker_event : Type :=
| Announced (seed_id : option string)
    (** [print '[%s] %s\r' % (timestamp(), seed_id),] *)
| Loading (tiles : batch grid) (ev : backoff_event unit).
    (** an event of [exp_backoff(load_tiles, ...)], where [load_tiles] is
        [lambda: self.cache.cache_mgr.load_tile_coords(tiles)] *)

(** How one turn of the loop of [run] ends. *)
Inductive turn_end : Type :=
| Returns            (** [return], on [tiles is None] *)
| Continues          (** back to [self.tiles_queue.get()] *)
| Propagates (e : exn).  (** an exception leaves [run] *)

(** One turn of
[[
def run(self):
    while True:
        seed_id, tiles = self.tiles_queue.get()
        if tiles is None:
            return
        print '[%s] %s\r' % (timestamp(), seed_id), #, tiles
        sys.stdout.flush()
        if not self.dry_run:
            load_tiles = lambda: self.cache.cache_mgr.load_tile_coords(tiles)
            exp_backoff(load_tiles, exceptions=(TileSourceError, IOError))
]]
    for the item [x] that [get] returned. *)
Definition turn (x : qitem grid) (w : world)
  : option (turn_end * world * list worker_event) :=
  let '(seed_id, tiles) := x in
  match tiles with
  | None => Some (Returns, w, [])
  | Some tiles =>
      if dry_run then Some (Continues, w, [Announced seed_id])
      else
        let load_tiles := load_tile_coords tiles in
        match exp_backoff load_tiles default_max_repeat default_start_backoff_sec
                          [TileSourceError; IOError] w with
        | None => None
        | Some (Ok _, w', evs) =>
            Some (Continues, w', Announced seed_id :: map (Loading tiles) evs)
        | Some (Raised e, w', evs) =>
            Some (Propagates e, w', Announced seed_id :: map (Loading tiles) evs)
        end
  end.

(** How [run] stands after the queue handed it the items [gets]. *)
Inductive run_end : Type :=
| Exited               (** [run] returned *)
| Died (e : exn)       (** [run] was left by an exception *)
| Waiting.             (** blocked in [self.tiles_queue.get()] *)

Fixpoint run (gets : list (qitem grid)) (w : world)
  : option (run_end * world * list worker_event) :=
  match gets with
  | [] => Some (Waiting, w, [])
  | x :: rest =>
      match turn x w with
      | None => None
      | Some (Returns, w', evs) => Some (Exited, w', evs)
      | Some (Propagates e, w', evs) => Some (Died e, w', evs)
      | Some (Continues, w', evs) =>
          match run rest w' with
          | None => None
          | Some (r, w'', evs') => Some (r, w'', evs ++ evs')
          end
      end
  end.

(** The tile lists that were passed to [load_tile_coords]. *)
Fixpoint loaded (evs : list worker_event) : list (batch grid) :=
  match evs with
  | [] => []
  | Loading tiles (Called _) :: rest => tiles :: loaded rest
  | _ :: rest => loaded rest
  end.

End Worker.

Arguments Announced {RT grid} seed_id.
Arguments Loading {RT grid} tiles ev.
Arguments Propagates {RT} e.
Arguments Died {RT} e.
Arguments loaded {RT grid} evs.

End SeedWorker.

(** ** [SeedPool]

    The pool is the queue, the worker processes and the process that
    created them.  Its runs are the interleavings of three kinds of steps:
    the main process puts an item, the main process joins a worker, a
    live worker gets an item and takes one turn of its loop with it. *)

Module SeedPool.

Section Pool.

Context {RT : Runtime}.
Variable grid : MetaGrid.
Variable load_tile_coords : batch grid -> world -> result exn unit * world.
Variable dry_run : bool.

(** [multiprocessing.Queue(16)] *)
Definition capacity : nat := 16.

Inductive proc_state : Type :=
| Alive
| ExitedNormally
| ExitedWithError (e : exn).

(** A worker process: its state, the items it got from the queue and the
    items whose turn it completed, both oldest first. *)
Record proc : Type := {
  state : proc_state;
  taken : list (qitem grid);
  completed : list (qitem grid)
}.

Definition started : proc :=
  {| state := Alive; taken := []; completed := [] |}.

Definition is_alive (p : proc) : bool :=
  match state p with
  | Alive => true
  | _ => false
  end.

(** What the main process has still to do. *)
Inductive main_op : Type :=
| Put (x : qitem grid)   (** [self.tiles_queue.put(x)] *)
| Join (k : nat).        (** [self.procs[k].join()] *)

(** [[
def seed(self, seed_id, tiles):
    self.tiles_queue.put((seed_id, tiles))
]] *)
Definition seed (seed_id : string) (tiles : batch grid) : list main_op :=
  [Put (work_item grid seed_id tiles)].

(** [[
def stop(self):
    for _ in xrange(len(self.procs)):
        self.tiles_queue.put((None, None))
    for proc in self.procs:
        proc.join()
]] *)
Definition stop (nprocs : nat) : list main_op :=
  repeat (Put (sentinel grid)) nprocs ++ map Join (seq 0 nprocs).

(** The pool; [history] records every item ever put, oldest first. *)
Record pool : Type := {
  tiles_queue : list (qitem grid);
  procs : list proc;
  main : list main_op;
  env : world;
  history : list (qitem grid)
}.

(** The main process of [_seed_location] once the pool is created: the
    submissions of the traversal, then [seed_pool.stop()]. *)
Definition program (size : nat) (items : list (string * batch grid))
  : list main_op :=
  flat_map (fun item => seed (fst item) (snd item)) items ++ stop size.

(** [SeedPool(cache, size)] followed by the program above. *)
Definition create (size : nat) (items : list (string * batch grid)) (w : world)
  : pool :=
  {| tiles_queue := [];
     procs := repeat started size;
     main := program size items;
     env := w;
     history := [] |}.

Fixpoint replace_nth {A} (k : nat) (a : A) (l : list A) : list A :=
  match l, k with
  | [], _ => []
  | _ :: l', O => a :: l'
  | b :: l', S k' => b :: replace_nth k' a l'
  end.

(** The worker after the turn it took with [x]. *)
Definition after_turn (p : proc) (x : qitem grid) (r : SeedWorker.turn_end)
  : proc :=
  match r with
  | SeedWorker.Returns =>
      {| state := ExitedNormally; taken := taken p ++ [x];
         completed := completed p |}
  | SeedWorker.Continues =>
      {| state := Alive; taken := taken p ++ [x];
         completed := completed p ++ [x] |}
  | SeedWorker.Propagates e =>
      {| state := ExitedWithError e; taken := taken p ++ [x];
         completed := completed p |}
  end.

Inductive step : pool -> pool -> Prop :=
| step_put x rest q ps w h :
    (List.length q < capacity)%nat ->
    step {| tiles_queue := q; procs := ps; main := Put x :: rest;
            env := w; history := h |}
         {| tiles_queue := q ++ [x]; procs := ps; main := rest;
            env := w; history := h ++ [x] |}
| step_join k p rest q ps w h :
    nth_error ps k = Some p ->
    is_alive p = false ->
    step {| tiles_queue := q; procs := ps; main := Join k :: rest;
            env := w; history := h |}
         {| tiles_queue := q; procs := ps; main := rest;
            env := w; history := h |}
| step_get k p x q ps m w h r w' evs :
    nth_error ps k = Some p ->
    is_alive p = true ->
    SeedWorker.turn grid load_tile_coords dry_run x w = Some (r, w', evs) ->
    step {| tiles_queue := x :: q; procs := ps; main := m;
            env := w; history := h |}
         {| tiles_queue := q; procs := replace_nth k (after_turn p x r) ps;
            main := m; env := w'; history := h |}.

Inductive reachable (s0 : pool) : pool -> Prop :=
| reach_start : reachable s0 s0
| reach_step s s' : reachable s0 s -> step s s' -> reachable s0 s'.

(** [stop()] has returned when the main process has nothing left to do. *)
Definition stopped (s : pool) : Prop := main s = [].

(** The items that a stretch of the main process puts. *)
Definition puts_of (ops : list main_op) : list (qitem grid) :=
  flat_map (fun op => match op with Put x => [x] | Join _ => [] end) ops.

Definition puts_left (s : pool) : list (qitem grid) := puts_of (main s).

End Pool.

Arguments Put {grid} x.
Arguments Join {grid} k.
Arguments ExitedWithError {RT} e.
Arguments state {RT grid} p.
Arguments taken {RT grid} p.
Arguments completed {RT grid} p.
Arguments is_alive {RT grid} p.
Arguments after_turn {RT grid} p x r.
Arguments tiles_queue {RT grid} p.
Arguments procs {RT grid} p.
Arguments main {RT grid} p.
Arguments env {RT grid} p.
Arguments history {RT grid} p.
Arguments stopped {RT grid} s.
Arguments puts_of {grid} ops.
Arguments program {grid} size items.
Arguments create {RT grid} size items w.
Arguments puts_left {RT grid} s.

End SeedPool.

(** ** A concrete grid and a concrete runtime

    Used to run the definitions on explicit inputs. *)

Module Fixture.

Definition zrange (a : Z) (n : nat) : list Z :=
  map (fun k => a + Z.of_nat k) (seq 0 n).

Definition box : Type := (Z * Z * Z * Z)%type.
Definition coord : Type := (Z * Z * Z)%type.

(** The grid covers the square [[0, extent) x [0, extent)]; level [l] cuts
    it into [2^l x 2^l] tiles. *)
Definition extent : Z := 2 ^ 100.

Definition tile_size (level : Z) : Z := extent / 2 ^ level.

Definition in_grid (level x y : Z) : bool :=
  (0 <=? x) && (x <? 2 ^ level) && (0 <=? y) && (y <? 2 ^ level).

(** Modelled from the spec: [MetaGrid.affected_level_tiles] of section 4.1,
    for meta-tiles of one tile; [mapproxy.core.grid] is not among the
    sources.  The result is the aligned box, the number of columns and
    rows, and the tiles that overlap [b] row by row, with [None] for a
    coordinate outside the grid. *)
Definition quad_affected (b : box) (level : Z)
  : box * (Z * Z) * list (option coord) :=
  let '(minx, miny, maxx, maxy) := b in
  let s := tile_size level in
  let x0 := minx / s in
  let y0 := miny / s in
  let x1 := (maxx - 1) / s in
  let y1 := (maxy - 1) / s in
  let nx := x1 - x0 + 1 in
  let ny := y1 - y0 + 1 in
  ((x0 * s, y0 * s, (x1 + 1) * s, (y1 + 1) * s),
   (nx, ny),
   flat_map (fun y =>
     map (fun x => if in_grid level x y then Some (x, y, level) else None)
         (zrange x0 (Z.to_nat nx)))
     (zrange y0 (Z.to_nat ny))).

(** Modelled from the spec: [MetaGrid.meta_bbox] of section 4.1. *)
Definition quad_meta_bbox (t : coord) : box :=
  let '(x, y, level) := t in
  let s := tile_size level in
  (x * s, y * s, (x + 1) * s, (y + 1) * s).

(** Modelled from the spec: [CONTAINED] of section 4.2, every point of the
    candidate lies in the target, boundary included. *)
Definition box_contains (one two : box) : bool :=
  let '(a_x0, a_y0, a_x1, a_y1) := one in
  let '(b_x0, b_y0, b_x1, b_y1) := two in
  (a_x0 <=? b_x0) && (a_y0 <=? b_y0) && (b_x1 <=? a_x1) && (b_y1 <=? a_y1).

(** Modelled from the spec: not [DISJOINT] of section 4.2, the interiors
    overlap. *)
Definition box_intersects (one two : box) : bool :=
  let '(a_x0, a_y0, a_x1, a_y1) := one in
  let '(b_x0, b_y0, b_x1, b_y1) := two in
  (a_x0 <? b_x1) && (b_x0 <? a_x1) && (a_y0 <? b_y1) && (b_y0 <? a_y1).

Definition quad_grid : MetaGrid :=
  {| bbox := box;
     tile := coord;
     get_affected_level_tiles := quad_affected;
     meta_bbox := quad_meta_bbox;
     bbox_contains := box_contains;
     bbox_intersects := box_intersects |}.

(** The levels at which a run entered a frame, and those at which it
    printed a progress line. *)
Fixpoint entered_levels (evs : list (seed_event quad_grid)) : list Z :=
  match evs with
  | [] => []
  | EvEnter _ level _ _ :: rest => level :: entered_levels rest
  | _ :: rest => entered_levels rest
  end.

Fixpoint progress_levels (evs : list (seed_event quad_grid)) : list Z :=
  match evs with
  | [] => []
  | EvProgress level _ _ :: rest => level :: progress_levels rest
  | _ :: rest => progress_levels rest
  end.

(** Both lists for the run of [_seed_location] on [target] and [level]. *)
Definition levels_of_run (target : box) (level : Z * Z)
  : option (list Z * list Z) :=
  match _seed_location quad_grid target level with
  | Some (tr, Ok _) => Some (entered_levels tr, progress_levels tr)
  | _ => None
  end.

(** The tiles of the batches that the run submits. *)
Definition tiles_of_run (target : box) (level : Z * Z) : option (list coord) :=
  match _seed_location quad_grid target level with
  | Some (tr, Ok _) => Some (emitted_tiles tr)
  | _ => None
  end.

(** The batches that the run submits. *)
Definition batches_of_run (target : box) (level : Z * Z)
  : option (list (string * batch quad_grid)) :=
  match _seed_location quad_grid target level with
  | Some (tr, Ok _) => Some (submitted tr)
  | _ => None
  end.

(** A runtime with three exceptions, each the only instance of its class;
    the world counts the calls made to the callee. *)
Inductive kind : Type :=
| Upstream   (** a [TileSourceError] *)
| Disk       (** an [IOError] *)
| Broken.    (** anything else *)

Definition kind_eqb (a b : kind) : bool :=
  match a, b with
  | Upstream, Upstream => true
  | Disk, Disk => true
  | Broken, Broken => true
  | _, _ => false
  end.

#[global] Instance runtime : Runtime :=
  {| exn := kind;
     exc_class := kind;
     isinstance := kind_eqb;
     TileSourceError := Upstream;
     IOError := Disk;
     world := nat;
     elapse := fun _ w => w;
     sleep_error := Disk |}.

(** A callee that raises [e] at every call. *)
Definition always_raises (e : kind) (w : nat) : result kind unit * nat :=
  (Raised e, S w).

(** A cache whose [load_tile_coords] returns at once. *)
Definition loads (tiles : batch quad_grid) (w : nat) : result kind unit * nat :=
  (Ok tt, S w).

(** A cache whose [load_tile_coords] raises [e]. *)
Definition load_raises (e : kind) (tiles : batch quad_grid) (w : nat)
  : result kind unit * nat :=
  (Raised e, S w).

Definition one_tile : batch quad_grid := [Some (0, 0, 0)].
Definition with_placeholder : batch quad_grid := [None; Some (0, 0, 0)].

(** A pool of one worker after the worker has loaded the first of two
    work items. *)
Definition first_item : qitem quad_grid := work_item quad_grid "." [Some (0, 0, 1)].
Definition second_item : qitem quad_grid := work_item quad_grid "" [Some (0, 0, 0)].

Definition two_items : list (string * batch quad_grid) :=
  [("."%string, [Some (0, 0, 1)]); (""%string, [Some (0, 0, 0)])].

Definition after_first_item : SeedPool.pool quad_grid :=
  {| SeedPool.tiles_queue := [second_item];
     SeedPool.procs :=
       [{| SeedPool.state := SeedPool.Alive;
           SeedPool.taken := [first_item];
           SeedPool.completed := [first_item] |}];
     SeedPool.main := SeedPool.stop quad_grid 1;
     SeedPool.env := 1%nat;
     SeedPool.history := [first_item; second_item] |}.

(** The tile lists that a worker passes to [load_tile_coords] when the
    queue hands it [gets]. *)
Definition loaded_by_worker (gets : list (qitem quad_grid))
  : option (list (batch quad_grid)) :=
  match SeedWorker.run quad_grid loads false gets 0%nat with
  | Some (_, _, evs) => Some (SeedWorker.loaded evs)
  | None => None
  end.

End Fixture.


(** ** Notions used to state the properties *)

Section TraversalNotions.

Variable grid : MetaGrid.
Variable target : bbox grid.

(** The tile list of the frame for [cur_bbox] at [level]. *)
Definition subtiles_of (cur_bbox : bbox grid) (level : Z) : batch grid :=
  snd (get_affected_level_tiles grid cur_bbox level).

(** The class the first loop gives to the meta-tile of [t]. *)
Definition classify (full_intersect : bool) (t : tile grid) : Z :=
  if full_intersect then -1 else intersects grid target (meta_bbox grid t).

(** [t] is kept in [sub_seeds]. *)
Definition selected (full_intersect : bool) (t : tile grid) : bool :=
  negb (classify full_intersect t =? 0).

(** [tr] is the run of the frame [_seed(cur_bbox, level, max_level, id,
    full_intersect)], and the frame returned. *)
Definition frame_run (cutoff : Z) (cur_bbox : bbox grid) (level max_level : Z)
    (id : string) (full_intersect : bool) (tr : list (seed_event grid)) : Prop :=
  _seed grid target cutoff (depth level max_level)
        cur_bbox level max_level id full_intersect = Some (tr, Ok tt).

(** [tr] is the run of the child frame that the second loop starts for the
    entry [ic] of [enumerate(sub_seeds)]. *)
Definition child_run (cutoff : Z) (id : string) (level max_level total : Z)
    (ic : Z * (bbox grid * Z)) (tr : list (seed_event grid)) : Prop :=
  exists c, status_symbol (fst ic) total = Ok c /\
    frame_run cutoff (fst (snd ic)) (level + 1) max_level
              (String.append id (String c EmptyString))
              (snd (snd ic) =? -1) tr.

(** The frame printed its progress line: the line, when there is one, is
    what follows the entry of the frame. *)
Definition own_progress (tr : list (seed_event grid)) : bool :=
  match tr with
  | _ :: EvProgress _ _ _ :: _ => true
  | _ => false
  end.

(** A run opens with the entry of its frame. *)
Definition starts_with_enter (tr : list (seed_event grid)) : Prop :=
  match tr with
  | EvEnter _ _ _ _ :: _ => True
  | _ => False
  end.

(** The events of a frame before it descends. *)
Definition frame_head (cutoff : Z) (cur_bbox : bbox grid) (level max_level : Z)
    (id : string) (full_intersect : bool) : list (seed_event grid) :=
  EvEnter cur_bbox level id full_intersect
  :: (if level <=? cutoff then [EvProgress level cur_bbox full_intersect] else [])
  ++ (if level <? max_level
      then snd (collect_sub_seeds grid target full_intersect
                                  (subtiles_of cur_bbox level))
      else []).

(** No event of [tr] calls [intersects], and every frame entered in [tr]
    is entered with [full_intersect = True]. *)
Definition contained_event (ev : seed_event grid) : Prop :=
  match ev with
  | EvIntersects _ => False
  | EvEnter _ _ _ full_intersect => full_intersect = true
  | EvProgress _ _ full_intersect => full_intersect = true
  | EvSubmit _ _ => True
  end.

End TraversalNotions.

Arguments own_progress {grid} tr.
Arguments starts_with_enter {grid} tr.
Arguments contained_event {grid} ev.

(** The offset of the cutoff: [int(num_seed_levels * 0.7)]. *)
Definition cutoff_offset (n : Z) : result error Z :=
  bind (B64.of_int n) (fun x => B64.to_int (PrimFloat.mul x B64.seven_tenths)).

(** [floor(0.7 * n)] over the rationals. *)
Definition floor_seven_tenths (n : Z) : Z := Qfloor ((7 # 10) * inject_Z n).

Definition cutoff_offset_is_floor (n : Z) : bool :=
  match cutoff_offset n with
  | Ok k => k =? floor_seven_tenths n
  | Raised _ => false
  end.

(** The levels [1 .. n]. *)
Definition levels_upto (n : nat) : list Z := map (fun k => Z.of_nat k + 1) (seq 0 n).

(** The runs of [exp_backoff] from the attempt counter [n] and the world
    [w], rule by rule: the call returns; it raises what the clause does
    not catch; it raises for the last time; [time.sleep] refuses the
    duration; the call is retried. *)
Section BackoffRuns.

Context {RT : Runtime}.
Variable R : Type.
Variable func : world -> result exn R * world.
Variables max_repeat start_backoff_sec : Z.
Variable exceptions : list exc_class.

Inductive backoff_run
  : Z -> world -> list (backoff_event R) -> result exn R -> world -> Prop :=
| run_returns n w v w1 :
    func w = (Ok v, w1) ->
    backoff_run n w [Called (Ok v)] (Ok v) w1
| run_propagates n w e w1 :
    func w = (Raised e, w1) ->
    caught exceptions e = false ->
    backoff_run n w [Called (Raised e)] (Raised e) w1
| run_gives_up n w e w1 :
    func w = (Raised e, w1) ->
    caught exceptions e = true ->
    max_repeat <= n + 1 ->
    backoff_run n w [Called (Raised e)] (Raised e) w1
| run_sleep_refused n w e w1 :
    func w = (Raised e, w1) ->
    caught exceptions e = true ->
    n + 1 < max_repeat ->
    start_backoff_sec * 2 ^ n < 0 ->
    backoff_run n w
      [Called (Raised e); Printed (start_backoff_sec * 2 ^ n) e]
      (Raised sleep_error) w1
| run_retries n w e w1 evs r w2 :
    func w = (Raised e, w1) ->
    caught exceptions e = true ->
    n + 1 < max_repeat ->
    0 <= start_backoff_sec * 2 ^ n ->
    backoff_run (n + 1) (elapse (start_backoff_sec * 2 ^ n) w1) evs r w2 ->
    backoff_run n w
      (Called (Raised e) :: Printed (start_backoff_sec * 2 ^ n) e
         :: Slept (start_backoff_sec * 2 ^ n) :: evs)
      r w2.

(** A call that failed with an exception the clause catches. *)
Definition recoverable_failure (o : result exn R) : Prop :=
  exists e, o = Raised e /\ caught exceptions e = true.

(** The events of the failed calls [failed], the first of which is the
    call with the attempt counter [n]: each call is followed by its message
    and by its sleep, [start_backoff_sec * 2^n] seconds for the counter
    [n]. *)
Fixpoint retry_rounds (n : Z) (failed : list (result exn R))
  : list (backoff_event R) :=
  match failed with
  | [] => []
  | Ok v :: rest => Called (Ok v) :: retry_rounds (n + 1) rest
  | Raised e :: rest =>
      Called (Raised e)
        :: Printed (start_backoff_sec * 2 ^ n) e
        :: Slept (start_backoff_sec * 2 ^ n)
        :: retry_rounds (n + 1) rest
  end.

End BackoffRuns.

Arguments backoff_run {RT R} func max_repeat start_backoff_sec exceptions
  n w evs r w'.
Arguments recoverable_failure {RT R} exceptions o.
Arguments retry_rounds {RT R} start_backoff_sec n failed.

(** What holds of a worker process at every moment. *)
Section PoolNotions.

Context {RT : Runtime}.
Variable grid : MetaGrid.
Variable dry_run : bool.

Definition real_items (l : list (qitem grid)) : Prop :=
  Forall (fun x => tiles_is_None x = false) l.

(** A live worker has completed the turn of every item it took, and took
    no sentinel.  A worker that returned took a sentinel last and
    completed the turn of every item before it.  A worker that an
    exception ended took a work item last, whose turn raised. *)
Definition proc_ok (p : SeedPool.proc grid) : Prop :=
  real_items (SeedPool.completed p) /\
  match SeedPool.state p with
  | SeedPool.Alive => SeedPool.taken p = SeedPool.completed p
  | SeedPool.ExitedNormally =>
      exists x, SeedPool.taken p = SeedPool.completed p ++ [x] /\
                tiles_is_None x = true
  | SeedPool.ExitedWithError e =>
      dry_run = false /\
      exists x, SeedPool.taken p = SeedPool.completed p ++ [x] /\
                tiles_is_None x = false
  end.

(** What holds of the pool at every moment of a run of [prog]. *)
Definition pool_inv (size : nat) (prog : list (SeedPool.main_op grid))
    (s : SeedPool.pool grid) : Prop :=
  List.length (SeedPool.procs s) = size /\
  Forall proc_ok (SeedPool.procs s) /\
  (List.length (SeedPool.tiles_queue s) <= SeedPool.capacity)%nat /\
  exists done,
    prog = done ++ SeedPool.main s /\
    SeedPool.history s = SeedPool.puts_of done /\
    forall k, In (SeedPool.Join k) done ->
      exists p, nth_error (SeedPool.procs s) k = Some p /\
                SeedPool.is_alive p = false.

End PoolNotions.

(** ** Further notions, for the properties of Part III *)

Section MoreTraversalNotions.

Variable grid : MetaGrid.

(** The symbols that [status_symbol] gives to siblings. *)
Definition sibling_symbols : list ascii := ["."; "o"; "O"; "0"]%char.

(** [id'] is [root] followed by one sibling symbol for each level from
    [level] down to [l]. *)
Definition id_below (root : string) (level : Z) (id' : string) (l : Z) : Prop :=
  exists s : list ascii,
    id' = String.append root (string_of_list_ascii s) /\
    Z.of_nat (List.length s) = l - level /\
    Forall (fun c => In c sibling_symbols) s.

Definition enters_below (root : string) (level : Z) (ev : seed_event grid)
  : Prop :=
  match ev with
  | EvEnter _ l id' _ => id_below root level id' l
  | _ => True
  end.

(** The event is at a level between [lo] and [hi]. *)
Definition event_level_in (lo hi : Z) (ev : seed_event grid) : Prop :=
  match ev with
  | EvEnter _ l _ _ => lo <= l <= hi
  | EvProgress l _ _ => lo <= l <= hi
  | _ => True
  end.

(** The ids of the frames entered, in the order of entry. *)
Fixpoint entered_ids (evs : list (seed_event grid)) : list string :=
  match evs with
  | [] => []
  | EvEnter _ _ id _ :: rest => id :: entered_ids rest
  | _ :: rest => entered_ids rest
  end.

(** The number of progress lines, and the number of frames entered at a
    level up to [cutoff]. *)
Fixpoint progress_lines (evs : list (seed_event grid)) : nat :=
  match evs with
  | [] => 0
  | EvProgress _ _ _ :: rest => S (progress_lines rest)
  | _ :: rest => progress_lines rest
  end.

Fixpoint entered_upto (cutoff : Z) (evs : list (seed_event grid)) : nat :=
  match evs with
  | [] => 0
  | EvEnter _ l _ _ :: rest =>
      if l <=? cutoff then S (entered_upto cutoff rest)
      else entered_upto cutoff rest
  | _ :: rest => entered_upto cutoff rest
  end.

End MoreTraversalNotions.

Arguments enters_below {grid} root level ev.
Arguments event_level_in {grid} lo hi ev.
Arguments entered_ids {grid} evs.
Arguments progress_lines {grid} evs.
Arguments entered_upto {grid} cutoff evs.

Section MorePoolNotions.

Context {RT : Runtime}.
Variable grid : MetaGrid.

(** What is left to do: two for each operation of the main process, one
    for each item in the queue. *)
Definition pool_measure (s : SeedPool.pool grid) : nat :=
  2 * List.length (SeedPool.main s) + List.length (SeedPool.tiles_queue s).

(** No worker has been ended by an exception. *)
Definition failed (p : SeedPool.proc grid) : bool :=
  match SeedPool.state p with
  | SeedPool.ExitedWithError _ => true
  | _ => false
  end.

Definition none_failed (s : SeedPool.pool grid) : Prop :=
  Forall (fun p => failed p = false) (SeedPool.procs s).

(** The queue is first in, first out: the items put so far are the items
    taken, in the order of taking, followed by the queue; and the items
    taken are those the workers hold. *)
Definition pool_flow (s : SeedPool.pool grid) : Prop :=
  exists dequeued,
    SeedPool.history s = dequeued ++ SeedPool.tiles_queue s /\
    Permutation dequeued (List.concat (map SeedPool.taken (SeedPool.procs s))).

Definition is_join (op : SeedPool.main_op grid) : bool :=
  match op with
  | SeedPool.Join _ => true
  | SeedPool.Put _ => false
  end.

(** The work items among [l]. *)
Definition work_items_of (l : list (qitem grid)) : list (qitem grid) :=
  filter (fun x => negb (tiles_is_None x)) l.

End MorePoolNotions.

Arguments pool_measure {RT grid} s.
Arguments failed {RT grid} p.
Arguments none_failed {RT grid} s.
Arguments pool_flow {RT grid} s.
Arguments work_items_of {grid} l.
Arguments is_join {grid} op.

(** ** Schedules

    A run of the pool is fixed by the order in which the processes move.
    A schedule names the moves; [schedule] carries them out as long as the
    pool allows them. *)

Section Schedules.

Context {RT : Runtime}.
Variable grid : MetaGrid.
Variable load_tile_coords : batch grid -> world -> result exn unit * world.
Variable dry_run : bool.

Inductive move : Type :=
| MainMoves            (** the main process puts or joins *)
| WorkerMoves (k : nat).  (** the worker [k] gets an item and takes a turn *)

Definition make_move (mv : move) (s : SeedPool.pool grid)
  : option (SeedPool.pool grid) :=
  match mv with
  | MainMoves =>
      match SeedPool.main s with
      | [] => None
      | SeedPool.Put x :: rest =>
          if (List.length (SeedPool.tiles_queue s) <? SeedPool.capacity)%nat
          then Some {| SeedPool.tiles_queue := SeedPool.tiles_queue s ++ [x];
                       SeedPool.procs := SeedPool.procs s;
                       SeedPool.main := rest;
                       SeedPool.env := SeedPool.env s;
                       SeedPool.history := SeedPool.history s ++ [x] |}
          else None
      | SeedPool.Join k :: rest =>
          match nth_error (SeedPool.procs s) k with
          | Some p =>
              if SeedPool.is_alive p then None
              else Some {| SeedPool.tiles_queue := SeedPool.tiles_queue s;
                           SeedPool.procs := SeedPool.procs s;
                           SeedPool.main := rest;
                           SeedPool.env := SeedPool.env s;
                           SeedPool.history := SeedPool.history s |}
          | None => None
          end
      end
  | WorkerMoves k =>
      match SeedPool.tiles_queue s, nth_error (SeedPool.procs s) k with
      | x :: q, Some p =>
          if SeedPool.is_alive p then
            match SeedWorker.turn grid load_tile_coords dry_run x
                                  (SeedPool.env s) with
            | Some (r, w', _) =>
                Some {| SeedPool.tiles_queue := q;
                        SeedPool.procs :=
                          SeedPool.replace_nth k (SeedPool.after_turn p x r)
                                               (SeedPool.procs s);
                        SeedPool.main := SeedPool.main s;
                        SeedPool.env := w';
                        SeedPool.history := SeedPool.history s |}
            | None => None
            end
          else None
      | _, _ => None
      end
  end.

Fixpoint schedule (mvs : list move) (s : SeedPool.pool grid)
  : option (SeedPool.pool grid) :=
  match mvs with
  | [] => Some s
  | mv :: rest =>
      match make_move mv s with
      | Some s' => schedule rest s'
      | None => None
      end
  end.

End Schedules.

(** ** Pools that cannot move *)

Section Deadlock.

Context {RT : Runtime}.
Variable grid : MetaGrid.
Variable load_tile_coords : batch grid -> world -> result exn unit * world.
Variable dry_run : bool.

(** The main process has not returned from [stop()] and no process can
    move: the whole program hangs. *)
Definition deadlocked (s : SeedPool.pool grid) : Prop :=
  ~ SeedPool.stopped s /\
  forall s', ~ SeedPool.step grid load_tile_coords dry_run s s'.

(** The worker was ended by an exception that left [run]. *)
Definition crashed (p : SeedPool.proc grid) : Prop :=
  exists e, SeedPool.state p = SeedPool.ExitedWithError e.

End Deadlock.

(** ** Pools of the fixture *)

Module Scenario.

(** One worker has loaded both work items, taken the sentinel and been
    joined. *)
Definition finished : SeedPool.pool Fixture.quad_grid :=
  {| SeedPool.tiles_queue := [];
     SeedPool.procs :=
       [{| SeedPool.state := SeedPool.ExitedNormally;
           SeedPool.taken := [Fixture.first_item; Fixture.second_item;
                              sentinel Fixture.quad_grid];
           SeedPool.completed := [Fixture.first_item; Fixture.second_item] |}];
     SeedPool.main := [];
     SeedPool.env := 2%nat;
     SeedPool.history := [Fixture.first_item; Fixture.second_item;
                          sentinel Fixture.quad_grid] |}.

(** The moves that lead there. *)
Definition to_finished : list move :=
  [MainMoves; MainMoves; WorkerMoves 0; WorkerMoves 0; MainMoves;
   WorkerMoves 0; MainMoves].

(** The pool after the first put. *)
Definition after_first_put : SeedPool.pool Fixture.quad_grid :=
  {| SeedPool.tiles_queue := [Fixture.first_item];
     SeedPool.procs := [SeedPool.started Fixture.quad_grid];
     SeedPool.main :=
       SeedPool.Put Fixture.second_item :: SeedPool.stop Fixture.quad_grid 1;
     SeedPool.env := 0%nat;
     SeedPool.history := [Fixture.first_item] |}.

(** Seventeen work items, one more than the queue holds. *)
Definition seventeen_items : list (string * batch Fixture.quad_grid) :=
  repeat ("."%string, [Some (0, 0, 1)]) 17.

End Scenario.

(** ** [TileSeeder]: the caches of a layer and the caches that a view seeds *)

Module TileSeeder.

(** [AttributeError], raised by the lookup of an attribute that the object
    does not have. *)
Inductive attribute_error : Type :=
| AttributeError (attr : string).

Section Seeder.

Context {RT : Runtime}.

(** The cache objects, and the objects that [cache.grid.srs] gives. *)
Variable cache : Type.
Variable srs : Type.

(** [cache.grid.srs] *)
Variable grid_srs : cache -> srs.

(** [x == y] on the objects of [mapproxy.core.srs.SRS], as the operator
    [in] applies it. *)
Variable srs_eq : srs -> srs -> bool.

(** The objects that the constructor inspects, by the attributes it asks
    for; an attribute that [hasattr] does not find is [None]. *)
Record source : Type := {
  source_cache : option cache        (** [source.cache] *)
}.

Record layer : Type := {
  sources : option (list source);    (** [layer.sources] *)
  layer_cache : option cache         (** [layer.cache] *)
}.

(** The first argument of the constructor: an object that may have the
    attribute [layers] and is taken for a layer itself when it has not. *)
Record vlayer : Type := {
  layers : option (list layer);      (** [vlayer.layers] *)
  as_layer : layer
}.

(** [[
[source.cache for source in layer.sources if hasattr(source, 'cache')]
]] *)
Fixpoint caches_of_sources (l : list source) : list cache :=
  match l with
  | [] => []
  | s :: rest =>
      match source_cache s with
      | Some c => c :: caches_of_sources rest
      | None => caches_of_sources rest
      end
  end.

(** [[
for layer in vlayer:
    if hasattr(layer, 'sources'): # VLayer
        self.caches.extend([source.cache for source in layer.sources
                            if hasattr(source, 'cache')])
    else:
        self.caches.append(layer.cache)
]]
    from the list [caches] that the loop has built so far. *)
Fixpoint collect_caches (vl : list layer) (caches : list cache)
  : result attribute_error (list cache) :=
  match vl with
  | [] => Ok caches
  | l :: rest =>
      match sources l with
      | Some ss => collect_caches rest (caches ++ caches_of_sources ss)
      | None =>
          match layer_cache l with
          | Some c => collect_caches rest (caches ++ [c])
          | None => Raised (AttributeError "cache")
          end
      end
  end.

(** [[
def __init__(self, vlayer, remove_before, progress_meter, dry_run=False):
    ...
    self.caches = []
    if hasattr(vlayer, 'layers'): # MultiLayer
        vlayer = vlayer.layers
    else:
        vlayer = [vlayer]
    for layer in vlayer:
        ...
]]
    The result is [self.caches] of the new seeder. *)
Definition __init__ (v : vlayer) : result attribute_error (list cache) :=
  let vl := match layers v with
            | Some ls => ls
            | None => [as_layer v]
            end in
  collect_caches vl [].

(** [self._seed_location(cache, bbox, level=level, srs=srs)] for the
    [bbox], [level] and [srs] of the call of [seed_location]. *)
Variable _seed_location : cache -> world -> result exn unit * world.

(** [not cache_srs], for [None] or a list. *)
Definition is_falsy (cache_srs : option (list srs)) : bool :=
  match cache_srs with
  | None => true
  | Some [] => true
  | Some (_ :: _) => false
  end.

(** [not cache_srs or cache.grid.srs in cache_srs] *)
Definition wanted (cache_srs : option (list srs)) (c : cache) : bool :=
  is_falsy cache_srs ||
  match cache_srs with
  | Some l => existsb (srs_eq (grid_srs c)) l
  | None => false
  end.

(** [[
def seed_location(self, bbox, level, srs, cache_srs):
    for cache in self.caches:
        if not cache_srs or cache.grid.srs in cache_srs:
            self._seed_location(cache, bbox, level=level, srs=srs)
]]
    The result carries the caches for which [_seed_location] was called,
    in the order of the calls. *)
Fixpoint seed_location (caches : list cache) (cache_srs : option (list srs))
    (w : world) : result exn unit * world * list cache :=
  match caches with
  | [] => (Ok tt, w, [])
  | c :: rest =>
      if wanted cache_srs c then
        match _seed_location c w with
        | (Ok _, w1) =>
            let '(r, w2, called) := seed_location rest cache_srs w1 in
            (r, w2, c :: called)
        | (Raised e, w1) => (Raised e, w1, [c])
        end
      else seed_location rest cache_srs w
  end.

(** How the call ended, and the caches it seeded. *)
Definition outcome (run : result exn unit * world * list cache)
  : result exn unit := fst (fst run).

Definition seeded (run : result exn unit * world * list cache) : list cache :=
  snd run.

(** The caches that one layer contributes. *)
Definition caches_of_layer (l : layer) : list cache :=
  match sources l with
  | Some ss => caches_of_sources ss
  | None =>
      match layer_cache l with
      | Some c => [c]
      | None => []
      end
  end.

(** The layer has neither [sources] nor [cache]. *)
Definition bare (l : layer) : bool :=
  match sources l, layer_cache l with
  | None, None => true
  | _, _ => false
  end.

(** The layers that the loop of the constructor visits. *)
Definition visited (v : vlayer) : list layer :=
  match layers v with
  | Some ls => ls
  | None => [as_layer v]
  end.

End Seeder.

Arguments source_cache {cache} s.
Arguments sources {cache} l.
Arguments layer_cache {cache} l.
Arguments layers {cache} v.
Arguments as_layer {cache} v.
Arguments caches_of_sources {cache} l.
Arguments collect_caches {cache} vl caches.
Arguments __init__ {cache} v.
Arguments is_falsy {srs} cache_srs.
Arguments wanted {cache srs} grid_srs srs_eq cache_srs c.
Arguments seed_location {RT cache srs} grid_srs srs_eq _seed_location caches cache_srs w.
Arguments outcome {RT cache} run.
Arguments seeded {RT cache} run.
Arguments caches_of_layer {cache} l.
Arguments bare {cache} l.
Arguments visited {cache} v.

End TileSeeder.

(** A seeder of the fixture: caches are named, and the cache [broken]
    cannot be seeded. *)
Module SeederFixture.

Local Open Scope string_scope.

Definition srs_of (c : string) : string :=
  if String.eqb c "osm_4326" then "EPSG:4326" else "EPSG:900913".

Definition seeds (c : string) (w : nat) : result Fixture.kind unit * nat :=
  if String.eqb c "broken" then (Raised Fixture.Broken, S w) else (Ok tt, S w).

Definition always_seeds (c : string) (w : nat)
  : result Fixture.kind unit * nat := (Ok tt, S w).

(** A multi-layer of a layer with two sources, one of them without a
    cache, and of a layer with a cache of its own. *)
Definition multi_layer : TileSeeder.vlayer string :=
  {| TileSeeder.layers :=
       Some [ {| TileSeeder.sources :=
                   Some [ {| TileSeeder.source_cache := Some "osm_900913" |};
                          {| TileSeeder.source_cache := None |} ];
                 TileSeeder.layer_cache := Some "unused" |};
              {| TileSeeder.sources := None;
                 TileSeeder.layer_cache := Some "osm_4326" |} ];
     TileSeeder.as_layer :=
       {| TileSeeder.sources := None; TileSeeder.layer_cache := None |} |}.

Definition three_caches : list string := ["osm_900913"; "broken"; "osm_4326"].

End SeederFixture.

(** ** The pyramid of meta-tiles

    What the traversal covers depends on the grid.  The grid classes are
    imported; the laws below are those of the pyramid they implement. *)

Section Pyramid.

Variable grid : MetaGrid.
Variable target : bbox grid.

(** The meta-tile of [t] is not disjoint from the target: it is contained
    in it or intersects it. *)
Definition meets (t : tile grid) : bool :=
  bbox_contains grid target (meta_bbox grid t)
  || bbox_intersects grid target (meta_bbox grid t).

(** The meta-tiles listed for the box of [p], a meta-tile of [level], one
    level down. *)
Definition children_of (level : Z) (p : tile grid) : list (tile grid) :=
  present (subtiles_of grid (meta_bbox grid p) (level + 1)).

(** [t], of the level [l'], lies under [p], of the level [l]: it is listed
    for [p], or for a meta-tile that lies under [p]. *)
Inductive under (l : Z) (p : tile grid) : Z -> tile grid -> Prop :=
| under_child t :
    In t (children_of l p) -> under l p (l + 1) t
| under_step l' q t :
    under l p l' q -> In t (children_of l' q) -> under l p (l' + 1) t.

(** Modelled from the spec: sections 2 and 4.1 and the glossary.  The
    grid is a pyramid between the levels [lo] and [hi], and
    [at_level l t] says that [t] is a meta-tile of its level [l]:
    [affected_level_tiles] lists the meta-tiles of the level that
    intersect the box, each once, and lists no other; below a meta-tile it
    lists meta-tiles of the next level; every meta-tile of a level below
    [lo] lies in exactly one meta-tile of the level above it, and meets
    the target only if that one does. *)
Record pyramid (at_level : Z -> tile grid -> Prop) (lo hi : Z) : Prop := {
  root_listed : forall t,
    In t (present (subtiles_of grid target lo)) -> at_level lo t;
  root_complete : forall t,
    at_level lo t -> meets t = true ->
    In t (present (subtiles_of grid target lo));
  root_once : NoDup (present (subtiles_of grid target lo));
  children_level : forall l p t,
    lo <= l < hi -> at_level l p -> In t (children_of l p) ->
    at_level (l + 1) t;
  children_once : forall l p,
    lo <= l < hi -> at_level l p -> NoDup (children_of l p);
  parent_exists : forall l t,
    lo <= l < hi -> at_level (l + 1) t ->
    exists p, at_level l p /\ In t (children_of l p);
  parent_unique : forall l p p' t,
    lo <= l < hi -> at_level l p -> at_level l p' ->
    In t (children_of l p) -> In t (children_of l p') -> p = p';
  parent_meets : forall l p t,
    lo <= l < hi -> at_level l p -> In t (children_of l p) ->
    meets t = true -> meets p = true;
  levels_apart : forall l l' t, at_level l t -> at_level l' t -> l = l'
}.

(** What a frame with the tile list [listed], at [level], emits when the
    traversal covers the pyramid: its list; nothing twice; only
    meta-tiles of its list or under one of them; and every meta-tile under
    one of its list that meets the target, when that one is descended
    into. *)
Definition frame_covers (at_level : Z -> tile grid -> Prop) (hi : Z)
    (listed : list (tile grid)) (level : Z) (full_intersect : bool)
    (emitted : list (tile grid)) : Prop :=
  (forall t, In t listed -> In t emitted) /\
  (forall t, In t emitted ->
     In t listed \/
     exists c l', In c listed /\ under level c l' t /\ l' <= hi) /\
  NoDup emitted /\
  (forall c l' t,
     In c listed -> full_intersect = true \/ meets c = true ->
     under level c l' t -> l' <= hi -> meets t = true ->
     In t emitted).

End Pyramid.

Arguments under_child {grid} l p t.
Arguments under_step {grid} l p l' q t.

(** The meta-tiles of the quad-tree grid of the fixture: the tiles
    [(x, y, l)] of the levels 0 to 100 that lie in the grid. *)
Definition quad_at_level (l : Z) (t : Fixture.coord) : Prop :=
  let '(x, y, l') := t in
  l' = l /\ 0 <= l <= 100 /\ Fixture.in_grid l x y = true.
(** * Part II: properties *)

(** ** [status_symbol] *)

Lemma status_index_exact (i total : Z) :
  total <> 0 ->
  status_index i total = Ok (Qceiling (inject_Z i / (inject_Z total / 4))).
Proof.
  intros Ht. unfold status_index, truediv.
  assert (H4 : Qeq_bool 4 0 = false) by reflexivity.
  rewrite H4. cbn [bind].
  assert (E : Qeq_bool (inject_Z total / 4) 0 = false).
  { destruct total; [congruence | reflexivity | reflexivity]. }
  rewrite E. reflexivity.
Qed.

Lemma status_index_zero_total (i : Z) :
  status_index i 0 = Raised ZeroDivisionError.
Proof. reflexivity. Qed.

Lemma quotient_as_fraction (i total : Z) :
  0 < total ->
  (inject_Z i / (inject_Z total / 4) == (4 * i) # (Z.to_pos total))%Q.
Proof.
  intros Ht. destruct total as [|p|p]; try lia.
  unfold Qeq, Qdiv, Qmult, Qinv, inject_Z. cbn.
  rewrite Pos.mul_1_r. destruct i; lia.
Qed.

Lemma status_index_bounds (i total : Z) :
  1 <= i <= total ->
  exists k, status_index i total = Ok k /\ 1 <= k <= 4.
Proof.
  intros Hi. assert (Ht : 0 < total) by lia.
  exists (Qceiling (inject_Z i / (inject_Z total / 4))).
  split; [apply status_index_exact; lia|].
  rewrite (Qceiling_comp _ _ (quotient_as_fraction i total Ht)).
  unfold Qceiling, Qfloor. cbn [Qopp Qnum Qden].
  rewrite Z2Pos.id by lia.
  assert (H1 : - (4 * i) / total < 0) by (apply Z.div_lt_upper_bound; lia).
  assert (H2 : -4 <= - (4 * i) / total) by (apply Z.div_le_lower_bound; lia).
  lia.
Qed.

Lemma getitem_symbols (k : Z) :
  1 <= k <= 4 ->
  exists c, getitem symbols k = Ok c /\ c <> " "%char.
Proof.
  intros Hk.
  assert (D : k = 1 \/ k = 2 \/ k = 3 \/ k = 4) by lia.
  destruct D as [-> | [-> | [-> | ->]]]; eexists; (split; [reflexivity | discriminate]).
Qed.

Lemma status_symbol_overflow (i total : Z) :
  0 <= i -> total <= i -> status_symbol i total = Ok "X"%char.
Proof.
  intros H0 Ht. unfold status_symbol.
  assert (E : (0 <? i + 1) && (i + 1 >? total) = true).
  { apply andb_true_intro. split; [apply Z.ltb_lt | apply Z.gtb_lt]; lia. }
  rewrite E. reflexivity.
Qed.

Lemma status_symbol_inside (i total : Z) :
  0 <= i < total ->
  exists k c, status_index (i + 1) total = Ok k /\ 1 <= k <= 4 /\
              getitem symbols k = Ok c /\ c <> " "%char /\
              status_symbol i total = Ok c.
Proof.
  intros Hi.
  destruct (@status_index_bounds (i + 1) total) as [k [Hk Hb]]; [lia|].
  destruct (getitem_symbols k Hb) as [c [Hc Hs]].
  exists k, c. repeat split; try assumption; try lia.
  unfold status_symbol.
  assert (E : (0 <? i + 1) && (i + 1 >? total) = false).
  { apply andb_false_intro2. rewrite Z.gtb_ltb. apply Z.ltb_ge. lia. }
  rewrite E, Hk. exact Hc.
Qed.

(** Inside a frame the symbol of a child is always defined. *)
Lemma status_symbol_ok (i total : Z) :
  0 <= i < total -> exists c, status_symbol i total = Ok c.
Proof.
  intros Hi. destruct (status_symbol_inside i total Hi) as [k [c H]].
  exists c. apply H.
Qed.

(** C6: [status_symbol] has the tabulated values: ['0'] at [(0, 1)]; the
    rows for [total = 4] and [total = 10]; and ['X'] at [(total, total)]
    for every [total >= 1]. *)
Theorem status_symbol_table :
  status_symbol 0 1 = Ok "0"%char /\
  map (fun i => status_symbol i 4) (range 5)
    = map Ok ["."; "o"; "O"; "0"; "X"]%char /\
  map (fun i => status_symbol i 10) (range 11)
    = map Ok ["."; "."; "o"; "o"; "o"; "O"; "O"; "0"; "0"; "0"; "X"]%char /\
  (forall total, 1 <= total -> status_symbol total total = Ok "X"%char).
Proof.
  split; [vm_compute; reflexivity|].
  split; [vm_compute; reflexivity|].
  split; [vm_compute; reflexivity|].
  intros total Ht. apply status_symbol_overflow; lia.
Qed.

(** The last part of the table at [total = 7]. *)
Lemma status_symbol_table_witness : status_symbol 7 7 = Ok "X"%char.
Proof.
  apply (proj2 (proj2 (proj2 status_symbol_table)) 7). lia.
Defined.

(** The binary64 transcription returns the same symbols for every sibling
    count up to 64 and every index from [-1] to the count. *)
Lemma status_symbol_binary64_agrees : status_symbol_agrees_upto 64 = true.
Proof. vm_compute. reflexivity. Qed.

(** ** Binary64: what rounding to the nearest float keeps *)

Section Float64Facts.
Local Open Scope Q_scope.

Lemma pow2_pos (k : Z) : 0 < 2 ^ k.
Proof. apply Qpower_0_lt. reflexivity. Qed.

Lemma pow2_nonzero (k : Z) : ~ 2 ^ k == 0.
Proof. pose proof (pow2_pos k). lra. Qed.

Lemma pow2_plus (n m : Z) : 2 ^ (n + m) == 2 ^ n * 2 ^ m.
Proof. apply Qpower_plus. discriminate. Qed.

Lemma pow2_split (n m k : Z) : k = (n + m)%Z -> 2 ^ k == 2 ^ n * 2 ^ m.
Proof. intros ->. apply pow2_plus. Qed.

Lemma pow2_le (n m : Z) : (n <= m)%Z -> 2 ^ n <= 2 ^ m.
Proof. intros H. apply Qpower_le_compat_l; [exact H | discriminate]. Qed.

Lemma pow2_lt (n m : Z) : (n < m)%Z -> 2 ^ n < 2 ^ m.
Proof. intros H. apply Qpower_lt_compat_l; [exact H | reflexivity]. Qed.

Lemma pow2_lt_inv (n m : Z) : 2 ^ n < 2 ^ m -> (n < m)%Z.
Proof. intros H. eapply Qpower_lt_compat_l_inv; [exact H | reflexivity]. Qed.

Lemma pow2_Z (k : Z) : (0 <= k)%Z -> inject_Z (2 ^ k) == 2 ^ k.
Proof. intros H. apply (Zpower_Qpower 2 k H). Qed.

Lemma ilog2_spec (a : Q) :
  0 < a -> 2 ^ Float64.ilog2 a <= a /\ a < 2 ^ (Float64.ilog2 a + 1).
Proof.
  intros Ha. destruct a as [n d].
  assert (Hn : (0 < n)%Z) by (unfold Qlt in Ha; cbn in Ha; lia).
  unfold Float64.ilog2. cbn [Qnum Qden].
  set (ln := Z.log2 n). set (ld := Z.log2 (Zpos d)). set (c := (ln - ld)%Z).
  destruct (Z.log2_spec n Hn) as [Hn1 Hn2]. fold ln in Hn1, Hn2.
  destruct (Z.log2_spec (Zpos d) eq_refl) as [Hd1 Hd2]. fold ld in Hd1, Hd2.
  assert (Hln : (0 <= ln)%Z) by apply Z.log2_nonneg.
  assert (Hld : (0 <= ld)%Z) by apply Z.log2_nonneg.
  rewrite Zle_Qle, pow2_Z in Hn1 by lia.
  rewrite Zlt_Qlt, pow2_Z in Hn2 by lia.
  rewrite Zle_Qle, pow2_Z in Hd1 by lia.
  rewrite Zlt_Qlt, pow2_Z in Hd2 by lia.
  assert (HD : 0 < inject_Z (Zpos d)) by reflexivity.
  assert (Ea : n # d == inject_Z n / inject_Z (Zpos d)) by apply Qmake_Qdiv.
  assert (Hup : n # d < 2 ^ (c + 1)).
  { rewrite Ea. apply Qlt_shift_div_r; [exact HD|].
    apply Qlt_le_trans with (2 ^ Z.succ ln); [exact Hn2|].
    rewrite (pow2_split (c + 1) ld (Z.succ ln)) by lia. apply Qmult_le_l; [apply pow2_pos | exact Hd1]. }
  assert (Hlo : 2 ^ (c - 1) <= n # d).
  { rewrite Ea. apply Qle_shift_div_l; [exact HD|].
    apply Qle_trans with (2 ^ ln); [|exact Hn1].
    rewrite (pow2_split (c - 1) (Z.succ ld) ln) by lia. apply Qmult_le_l; [apply pow2_pos|].
    apply Qlt_le_weak. exact Hd2. }
  destruct (Qle_bool (2 ^ c) (n # d)) eqn:E.
  - apply Qle_bool_iff in E. split; assumption.
  - split; [exact Hlo|].
    replace (c - 1 + 1)%Z with c by lia.
    apply Qnot_le_lt. intros H. apply Qle_bool_iff in H. congruence.
Qed.

Lemma ilog2_unique (a : Q) (k : Z) :
  2 ^ k <= a -> a < 2 ^ (k + 1) -> Float64.ilog2 a = k.
Proof.
  intros H1 H2.
  assert (Ha : 0 < a) by (eapply Qlt_le_trans; [apply pow2_pos | exact H1]).
  destruct (ilog2_spec a Ha) as [H3 H4].
  assert (Float64.ilog2 a < k + 1)%Z
    by (apply pow2_lt_inv; eapply Qle_lt_trans; eassumption).
  assert (k < Float64.ilog2 a + 1)%Z
    by (apply pow2_lt_inv; eapply Qle_lt_trans; eassumption).
  lia.
Qed.

Lemma ilog2_comp (a b : Q) : 0 < a -> a == b -> Float64.ilog2 a = Float64.ilog2 b.
Proof.
  intros Ha E. symmetry. destruct (ilog2_spec a Ha) as [H1 H2].
  apply ilog2_unique; rewrite <- E; assumption.
Qed.

Lemma ilog2_mono (a b : Q) : 0 < a -> a <= b -> (Float64.ilog2 a <= Float64.ilog2 b)%Z.
Proof.
  intros Ha Hab.
  assert (Hb : 0 < b) by (eapply Qlt_le_trans; eassumption).
  destruct (ilog2_spec a Ha) as [H1 _]. destruct (ilog2_spec b Hb) as [_ H2].
  assert (Float64.ilog2 a < Float64.ilog2 b + 1)%Z; [|lia].
  apply pow2_lt_inv. eapply Qle_lt_trans; [exact H1|].
  eapply Qle_lt_trans; eassumption.
Qed.

(** Float64.round_half_even *)

Lemma rhe_floor (z : Q) :
  (Qfloor z <= Float64.round_half_even z <= Qfloor z + 1)%Z.
Proof.
  unfold Float64.round_half_even.
  destruct (z - inject_Z (Qfloor z) ?= 1 # 2); [destruct (Z.even _)| |]; lia.
Qed.

Lemma rhe_ge (z : Q) (A : Z) : inject_Z A <= z -> (A <= Float64.round_half_even z)%Z.
Proof.
  intros H. apply Qfloor_resp_le in H. rewrite Qfloor_Z in H.
  pose proof (rhe_floor z). lia.
Qed.

Lemma rhe_up (z : Q) :
  Float64.round_half_even z = (Qfloor z + 1)%Z -> inject_Z (Qfloor z) < z.
Proof.
  unfold Float64.round_half_even.
  destruct (Qcompare_spec (z - inject_Z (Qfloor z)) (1 # 2)) as [E | E | E];
    intros H.
  - lra.
  - lia.
  - lra.
Qed.

Lemma rhe_le (z : Q) (A : Z) : z <= inject_Z A -> (Float64.round_half_even z <= A)%Z.
Proof.
  intros H. pose proof (rhe_floor z) as [H1 H2].
  destruct (Z.eq_dec (Float64.round_half_even z) (Qfloor z + 1)) as [E | E].
  - apply rhe_up in E.
    assert (inject_Z (Qfloor z) < inject_Z A) by lra.
    rewrite <- Zlt_Qlt in H0. lia.
  - assert (inject_Z (Qfloor z) <= inject_Z A).
    { eapply Qle_trans; [apply Qfloor_le | exact H]. }
    rewrite <- Zle_Qle in H0. lia.
Qed.

Lemma rhe_comp (z z' : Q) : z == z' -> Float64.round_half_even z = Float64.round_half_even z'.
Proof.
  intros E. unfold Float64.round_half_even. rewrite (Qfloor_comp _ _ E).
  assert (E' : z - inject_Z (Qfloor z') == z' - inject_Z (Qfloor z'))
    by (rewrite E; reflexivity).
  rewrite (Qcompare_comp _ _ E' _ _ (Qeq_refl (1 # 2))). reflexivity.
Qed.

Lemma rhe_mono (z z' : Q) :
  z <= z' -> (Float64.round_half_even z <= Float64.round_half_even z')%Z.
Proof.
  intros H. pose proof (Qfloor_resp_le _ _ H) as Hf.
  pose proof (rhe_floor z) as [H1 H2]. pose proof (rhe_floor z') as [H3 H4].
  destruct (Z.eq_dec (Qfloor z) (Qfloor z')) as [E | E]; [|lia].
  unfold Float64.round_half_even in *. rewrite <- E in *.
  destruct (Qcompare_spec (z - inject_Z (Qfloor z)) (1 # 2)) as [Ea | Ea | Ea];
    destruct (Qcompare_spec (z' - inject_Z (Qfloor z)) (1 # 2)) as [Eb | Eb | Eb];
    try destruct (Z.even (Qfloor z)); try lia; lra.
Qed.

(** Float64.round_pos *)

Lemma ulp_exponent_cases (a : Q) :
  (Float64.ulp_exponent a = Float64.ilog2 a - 52 /\ -1074 <= Float64.ilog2 a - 52)%Z \/
  (Float64.ulp_exponent a = -1074 /\ Float64.ilog2 a - 52 < -1074)%Z.
Proof. unfold Float64.ulp_exponent. lia. Qed.

Lemma scaled_int (m v u : Z) :
  (u <= v)%Z ->
  inject_Z m * 2 ^ v == inject_Z (m * 2 ^ (v - u)) * 2 ^ u.
Proof.
  intros H. rewrite inject_Z_mult, pow2_Z by lia.
  rewrite (pow2_split (v - u) u v) by lia. ring.
Qed.

Lemma representable_below (m v e : Z) :
  (0 < m <= 2 ^ 53)%Z -> (53 + v <= e)%Z -> inject_Z m * 2 ^ v <= 2 ^ e.
Proof.
  intros Hm Hv.
  apply Qle_trans with (2 ^ 53 * 2 ^ v).
  - apply Qmult_le_compat_r; [|apply Qlt_le_weak, pow2_pos].
    rewrite <- pow2_Z by lia. rewrite <- Zle_Qle. lia.
  - rewrite <- (pow2_plus 53 v). apply pow2_le. lia.
Qed.

Lemma round_pos_binade (a : Q) :
  0 < a -> (-1074 <= Float64.ilog2 a - 52)%Z ->
  2 ^ Float64.ilog2 a <= Float64.round_pos a.
Proof.
  intros Ha Hn. unfold Float64.round_pos.
  assert (Eu : Float64.ulp_exponent a = (Float64.ilog2 a - 52)%Z) by (unfold Float64.ulp_exponent; lia).
  rewrite Eu. set (u := (Float64.ilog2 a - 52)%Z).
  destruct (ilog2_spec a Ha) as [H1 _].
  assert (Hz : inject_Z (2 ^ 52) <= a / 2 ^ u).
  { apply Qle_shift_div_l; [apply pow2_pos|].
    rewrite pow2_Z by lia.
    rewrite <- (pow2_split 52 u (Float64.ilog2 a)) by (unfold u; lia). exact H1. }
  apply rhe_ge in Hz. rewrite Zle_Qle in Hz.
  apply Qle_trans with (inject_Z (2 ^ 52) * 2 ^ u).
  - rewrite pow2_Z by lia.
    rewrite <- (pow2_split 52 u (Float64.ilog2 a)) by (unfold u; lia). apply Qle_refl.
  - apply Qmult_le_compat_r; [exact Hz | apply Qlt_le_weak, pow2_pos].
Qed.

Lemma round_pos_ge (a : Q) (m v : Z) :
  0 < a -> (0 < m <= 2 ^ 53)%Z -> (-1074 <= v)%Z ->
  inject_Z m * 2 ^ v <= a -> inject_Z m * 2 ^ v <= Float64.round_pos a.
Proof.
  intros Ha Hm Hv HF.
  destruct (Z_le_gt_dec (Float64.ulp_exponent a) v) as [Hu | Hu].
  - unfold Float64.round_pos. set (u := Float64.ulp_exponent a) in *.
    rewrite (scaled_int m v u Hu) in *.
    apply Qmult_le_compat_r; [|apply Qlt_le_weak, pow2_pos].
    rewrite <- Zle_Qle. apply rhe_ge.
    apply Qle_shift_div_l; [apply pow2_pos | exact HF].
  - destruct (ulp_exponent_cases a) as [[Eu Hn] | [Eu Hn]]; [|lia].
    apply Qle_trans with (2 ^ Float64.ilog2 a).
    + apply representable_below; [exact Hm | lia].
    + apply round_pos_binade; assumption.
Qed.

Lemma round_pos_le (a : Q) (m v : Z) :
  0 < a -> (0 < m <= 2 ^ 53)%Z -> (-1074 <= v)%Z ->
  a <= inject_Z m * 2 ^ v -> Float64.round_pos a <= inject_Z m * 2 ^ v.
Proof.
  intros Ha Hm Hv HF.
  destruct (Z_le_gt_dec (Float64.ulp_exponent a) v) as [Hu | Hu].
  - unfold Float64.round_pos. set (u := Float64.ulp_exponent a) in *.
    rewrite (scaled_int m v u Hu) in *.
    apply Qmult_le_compat_r; [|apply Qlt_le_weak, pow2_pos].
    rewrite <- Zle_Qle. apply rhe_le.
    apply Qle_shift_div_r; [apply pow2_pos | exact HF].
  - destruct (ulp_exponent_cases a) as [[Eu Hn] | [Eu Hn]]; [|lia].
    destruct (ilog2_spec a Ha) as [H1 _].
    assert (HFe : inject_Z m * 2 ^ v <= 2 ^ Float64.ilog2 a)
      by (apply representable_below; [exact Hm | lia]).
    apply Qle_trans with (2 ^ Float64.ilog2 a); [|lra].
    unfold Float64.round_pos. rewrite Eu. set (u := (Float64.ilog2 a - 52)%Z).
    assert (Hz : a / 2 ^ u <= inject_Z (2 ^ 52)).
    { apply Qle_shift_div_r; [apply pow2_pos|].
      rewrite pow2_Z by lia.
      rewrite <- (pow2_split 52 u (Float64.ilog2 a)) by (unfold u; lia). lra. }
    apply rhe_le in Hz. rewrite Zle_Qle in Hz.
    apply Qle_trans with (inject_Z (2 ^ 52) * 2 ^ u).
    + apply Qmult_le_compat_r; [exact Hz | apply Qlt_le_weak, pow2_pos].
    + rewrite pow2_Z by lia.
      rewrite <- (pow2_split 52 u (Float64.ilog2 a)) by (unfold u; lia). apply Qle_refl.
Qed.

Lemma round_pos_exact (m v : Z) :
  (0 < m <= 2 ^ 53)%Z -> (-1074 <= v)%Z ->
  Float64.round_pos (inject_Z m * 2 ^ v) == inject_Z m * 2 ^ v.
Proof.
  intros Hm Hv.
  assert (Ha : 0 < inject_Z m * 2 ^ v).
  { apply Qmult_lt_0_compat; [|apply pow2_pos].
    change 0 with (inject_Z 0). rewrite <- Zlt_Qlt. lia. }
  apply Qle_antisym.
  - apply round_pos_le; try assumption. apply Qle_refl.
  - apply round_pos_ge; try assumption. apply Qle_refl.
Qed.

Lemma round_pos_mono (a b : Q) :
  0 < a -> a <= b -> Float64.round_pos a <= Float64.round_pos b.
Proof.
  intros Ha Hab.
  assert (Hb : 0 < b) by (eapply Qlt_le_trans; eassumption).
  pose proof (ilog2_mono a b Ha Hab) as He.
  destruct (Z.eq_dec (Float64.ulp_exponent a) (Float64.ulp_exponent b)) as [E | E].
  - unfold Float64.round_pos. rewrite E.
    apply Qmult_le_compat_r; [|apply Qlt_le_weak, pow2_pos].
    rewrite <- Zle_Qle. apply rhe_mono.
    apply Qmult_le_compat_r; [exact Hab|].
    apply Qlt_le_weak, Qinv_lt_0_compat, pow2_pos.
  - assert (Hlt : (Float64.ilog2 a < Float64.ilog2 b)%Z /\ (-1074 <= Float64.ilog2 b - 52)%Z)
      by (unfold Float64.ulp_exponent in E; lia).
    destruct Hlt as [Hlt Hnb].
    destruct (ilog2_spec a Ha) as [_ Ha2].
    assert (Hmid : a <= inject_Z 1 * 2 ^ Float64.ilog2 b).
    { rewrite Qmult_1_l. apply Qlt_le_weak. eapply Qlt_le_trans; [exact Ha2|].
      apply pow2_le. lia. }
    apply Qle_trans with (inject_Z 1 * 2 ^ Float64.ilog2 b).
    + apply round_pos_le; try assumption; lia.
    + rewrite Qmult_1_l. apply round_pos_binade; assumption.
Qed.

Lemma round_pos_comp (a b : Q) :
  0 < a -> a == b -> Float64.round_pos a == Float64.round_pos b.
Proof.
  intros Ha E. unfold Float64.round_pos, Float64.ulp_exponent.
  rewrite <- (ilog2_comp a b Ha E).
  set (u := Z.max (Float64.ilog2 a - 52) (-1074)).
  assert (Ez : a / 2 ^ u == b / 2 ^ u) by (rewrite E; reflexivity).
  rewrite (rhe_comp _ _ Ez). reflexivity.
Qed.

Lemma round_pos_scale4 (a : Q) :
  0 < a -> (-1074 <= Float64.ilog2 a - 52)%Z ->
  Float64.round_pos (4 * a) == 4 * Float64.round_pos a.
Proof.
  intros Ha Hn. destruct (ilog2_spec a Ha) as [H1 H2].
  assert (E4 : 2 ^ 2 == 4) by reflexivity.
  assert (He : Float64.ilog2 (4 * a) = (Float64.ilog2 a + 2)%Z).
  { apply ilog2_unique.
    - rewrite (pow2_split 2 (Float64.ilog2 a) (Float64.ilog2 a + 2)), E4 by lia. lra.
    - rewrite (pow2_split 2 (Float64.ilog2 a + 1) (Float64.ilog2 a + 2 + 1)), E4 by lia. lra. }
  unfold Float64.round_pos, Float64.ulp_exponent. rewrite He.
  replace (Z.max (Float64.ilog2 a + 2 - 52) (-1074))
    with (2 + Z.max (Float64.ilog2 a - 52) (-1074))%Z by lia.
  set (u := Z.max (Float64.ilog2 a - 52) (-1074)).
  assert (E2 : 2 ^ (2 + u) == 4 * 2 ^ u) by (rewrite (pow2_plus 2 u), E4; reflexivity).
  assert (Ez : 4 * a / 2 ^ (2 + u) == a / 2 ^ u).
  { rewrite E2. field. apply pow2_nonzero. }
  rewrite (rhe_comp _ _ Ez), E2. ring.
Qed.


(** [round] by the sign of its argument. *)

Lemma round_positive (r : Q) :
  0 < r ->
  Float64.round r
  = if Qle_bool Float64.overflow (Float64.round_pos r)
    then Float64.Infinite false
    else Float64.Finite (Float64.round_pos r).
Proof.
  intros H. unfold Float64.round.
  destruct r as [[|p|p] d]; try reflexivity; unfold Qlt in H; cbn in H; lia.
Qed.

Lemma round_negative (r : Q) :
  r < 0 ->
  Float64.round r
  = if Qle_bool Float64.overflow (Float64.round_pos (- r))
    then Float64.Infinite true
    else Float64.Finite (- Float64.round_pos (- r)).
Proof.
  intros H. unfold Float64.round.
  destruct r as [[|p|p] d]; try reflexivity; unfold Qlt in H; cbn in H; lia.
Qed.

Lemma round_zero (r : Q) : r == 0 -> Float64.round r = Float64.Finite 0.
Proof.
  intros H. unfold Float64.round.
  destruct r as [[|p|p] d]; try reflexivity; unfold Qeq in H; cbn in H; lia.
Qed.

Lemma below_overflow (q : Q) :
  q < Float64.overflow -> Qle_bool Float64.overflow q = false.
Proof.
  intros H. destruct (Qle_bool Float64.overflow q) eqn:E; [|reflexivity].
  apply Qle_bool_iff in E. lra.
Qed.

Lemma above_overflow (q : Q) :
  Float64.overflow <= q -> Qle_bool Float64.overflow q = true.
Proof. intros H. apply Qle_bool_iff. exact H. Qed.

Lemma inject_Z_pos (z : Z) : (0 < z)%Z -> 0 < inject_Z z.
Proof. intros H. change 0 with (inject_Z 0). rewrite <- Zlt_Qlt. exact H. Qed.

Lemma pow2_0 : 2 ^ 0 == 1.
Proof. reflexivity. Qed.

(** A positive rational up to [2^k] with [k <= 1023] rounds to a finite
    float. *)
Lemma round_pos_bounded (a : Q) (k : Z) :
  0 < a -> (-1074 <= k <= 1023)%Z -> a <= 2 ^ k ->
  Float64.round_pos a <= 2 ^ k /\ Float64.round_pos a < Float64.overflow.
Proof.
  intros Ha Hk Hak.
  assert (H : Float64.round_pos a <= inject_Z 1 * 2 ^ k).
  { apply round_pos_le; try assumption; try lia.
    change (inject_Z 1) with 1. lra. }
  change (inject_Z 1) with 1 in H.
  split; [lra|].
  eapply Qle_lt_trans; [exact H|]. rewrite Qmult_1_l.
  unfold Float64.overflow. apply pow2_lt. lia.
Qed.

(** The largest float is one. *)
Lemma max_int_value :
  inject_Z Float64.max_int == inject_Z (2 ^ 53 - 1) * 2 ^ 971.
Proof.
  unfold Float64.max_int. rewrite inject_Z_mult, pow2_Z by lia. reflexivity.
Qed.

Lemma round_pos_finite (a : Q) :
  0 < a -> a <= inject_Z Float64.max_int ->
  Float64.round_pos a <= inject_Z Float64.max_int /\
  Float64.round_pos a < Float64.overflow.
Proof.
  intros Ha Hmax. rewrite max_int_value in *.
  assert (H : Float64.round_pos a <= inject_Z (2 ^ 53 - 1) * 2 ^ 971)
    by (apply round_pos_le; try assumption; lia).
  split; [exact H|].
  eapply Qle_lt_trans; [exact H|].
  unfold Float64.overflow. rewrite (pow2_split 53 971 1024) by lia.
  apply Qmult_lt_compat_r; [apply pow2_pos|].
  rewrite <- pow2_Z by lia. rewrite <- Zlt_Qlt. lia.
Qed.

Lemma round_pos_positive (a : Q) : 0 < a -> (-1074 <= Float64.ilog2 a)%Z ->
  0 < Float64.round_pos a.
Proof.
  intros Ha Hn. destruct (ilog2_spec a Ha) as [H1 _].
  assert (H : inject_Z 1 * 2 ^ Float64.ilog2 a <= Float64.round_pos a).
  { apply round_pos_ge; try assumption; try lia.
    change (inject_Z 1) with 1. lra. }
  change (inject_Z 1) with 1 in H. pose proof (pow2_pos (Float64.ilog2 a)). lra.
Qed.

(** Integers up to [2^53] as bounds. *)
Lemma round_pos_ge_int (a : Q) (k : Z) :
  0 < a -> (0 < k <= 2 ^ 53)%Z -> inject_Z k <= a ->
  inject_Z k <= Float64.round_pos a.
Proof.
  intros Ha Hk H.
  apply Qle_trans with (inject_Z k * 2 ^ 0); [rewrite pow2_0; lra|].
  apply round_pos_ge; try assumption; try lia. rewrite pow2_0. lra.
Qed.

Lemma round_pos_le_int (a : Q) (k : Z) :
  0 < a -> (0 < k <= 2 ^ 53)%Z -> a <= inject_Z k ->
  Float64.round_pos a <= inject_Z k.
Proof.
  intros Ha Hk H.
  apply Qle_trans with (inject_Z k * 2 ^ 0); [|rewrite pow2_0; lra].
  apply round_pos_le; try assumption; try lia. rewrite pow2_0. lra.
Qed.

(** Integers up to [2^53] are floats. *)
Lemma round_pos_int (z : Z) :
  (0 < z <= 2 ^ 53)%Z -> Float64.round_pos (inject_Z z) == inject_Z z.
Proof.
  intros Hz.
  assert (E : inject_Z z == inject_Z z * 2 ^ 0) by (rewrite pow2_0; ring).
  assert (Ha : 0 < inject_Z z) by (apply inject_Z_pos; lia).
  apply Qle_antisym.
  - rewrite E at 2. apply round_pos_le; try assumption; try lia.
    rewrite <- E. apply Qle_refl.
  - rewrite E at 1. apply round_pos_ge; try assumption; try lia.
    rewrite <- E. apply Qle_refl.
Qed.

(** [float(z)] *)

Lemma of_int_zero : Float64.of_int 0 = Ok 0.
Proof. reflexivity. Qed.

Lemma of_int_positive (z : Z) :
  (0 < z <= Float64.max_int)%Z ->
  Float64.of_int z = Ok (Float64.round_pos (inject_Z z)).
Proof.
  intros Hz. unfold Float64.of_int.
  assert (Ha : 0 < inject_Z z) by (apply inject_Z_pos; lia).
  rewrite (round_positive _ Ha).
  rewrite below_overflow; [reflexivity|].
  apply round_pos_finite; [exact Ha|]. rewrite <- Zle_Qle. lia.
Qed.

Lemma of_int_negative (z : Z) :
  (- Float64.max_int <= z < 0)%Z ->
  Float64.of_int z = Ok (- Float64.round_pos (- inject_Z z)).
Proof.
  intros Hz. unfold Float64.of_int.
  assert (Ha : inject_Z z < 0).
  { change 0 with (inject_Z 0). rewrite <- Zlt_Qlt. lia. }
  rewrite (round_negative _ Ha).
  rewrite below_overflow; [reflexivity|].
  apply round_pos_finite; [lra|].
  rewrite <- inject_Z_opp, <- Zle_Qle. lia.
Qed.

End Float64Facts.

(** [Float64.round] gives what the machine gives, at integers and
    quotients that are exact, that fall between two floats, that fall
    midway, that are subnormal, and that overflow. *)
Lemma round_as_machine :
  forallb Float64.converts_as_machine Float64.conversion_samples = true /\
  forallb Float64.divides_as_machine Float64.quotient_samples = true.
Proof. split; vm_compute; reflexivity. Qed.

(** ** [status_symbol] in binary64 *)

(** The index of the exact quotient, in integers. *)

Lemma ceil_div (a b : Z) :
  0 < b -> - (- a / b) = (a + b - 1) / b.
Proof.
  intros Hb.
  pose proof (Z.div_mod (a + b - 1) b ltac:(lia)) as Hdm.
  pose proof (Z.mod_pos_bound (a + b - 1) b Hb) as Hmod.
  set (q := (a + b - 1) / b) in *. set (r := (a + b - 1) mod b) in *.
  assert (Hq : - a / b = - q).
  { symmetry. apply (Z.div_unique_pos (- a) b (- q) (b - 1 - r)); lia. }
  lia.
Qed.

(** The index without floats: the ceiling of [4 * i / total]. *)
Lemma status_index_integer (i total : Z) :
  0 < total ->
  status_index i total = Ok ((4 * i + total - 1) / total).
Proof.
  intros Ht. rewrite status_index_exact by lia. f_equal.
  rewrite (Qceiling_comp _ _ (quotient_as_fraction i total Ht)).
  unfold Qceiling, Qfloor. cbn [Qopp Qnum Qden].
  rewrite Z2Pos.id by lia. apply ceil_div. exact Ht.
Qed.

Lemma status_symbol_integer (i total : Z) :
  0 <= i < total ->
  status_symbol i total
  = getitem symbols ((4 * (i + 1) + total - 1) / total).
Proof.
  intros Hi. unfold status_symbol.
  assert (E : (0 <? i + 1) && (i + 1 >? total) = false).
  { apply andb_false_intro2. rewrite Z.gtb_ltb. apply Z.ltb_ge. lia. }
  rewrite E, status_index_integer by lia. reflexivity.
Qed.

Lemma status_index_range (i j total : Z) :
  0 <= i -> i <= j -> j < total ->
  1 <= (4 * (i + 1) + total - 1) / total /\
  (4 * (i + 1) + total - 1) / total <= (4 * (j + 1) + total - 1) / total /\
  (4 * (j + 1) + total - 1) / total <= 4.
Proof.
  intros Hi Hij Hj.
  split; [apply Z.div_le_lower_bound; lia|].
  split; [apply Z.div_le_mono; lia|].
  assert ((4 * (j + 1) + total - 1) / total < 5); [|lia].
  apply Z.div_lt_upper_bound; lia.
Qed.

(** A sibling gets one of the four symbols ['.'], ['o'], ['O'], ['0']. *)
Lemma status_symbol_in_siblings (i total : Z) :
  0 <= i < total ->
  exists c, status_symbol i total = Ok c /\ In c sibling_symbols.
Proof.
  intros Hi. rewrite status_symbol_integer by lia.
  destruct (status_index_range i i total) as [H1 [_ H4]]; try lia.
  set (k := (4 * (i + 1) + total - 1) / total) in *.
  assert (D : k = 1 \/ k = 2 \/ k = 3 \/ k = 4) by lia.
  destruct D as [-> | [-> | [-> | ->]]]; eexists; (split; [reflexivity|]);
    cbn; tauto.
Qed.

Lemma status_symbol_integer_below (i total : Z) :
  0 < total -> i + 1 <= 0 ->
  status_symbol i total
  = getitem symbols ((4 * (i + 1) + total - 1) / total).
Proof.
  intros Ht Hi. unfold status_symbol.
  assert (E : (0 <? i + 1) && (i + 1 >? total) = false).
  { apply andb_false_intro1. apply Z.ltb_ge. lia. }
  rewrite E, status_index_integer by lia. reflexivity.
Qed.

Lemma getitem_symbols_below (k : Z) :
  k <= -6 -> getitem symbols k = Raised IndexError.
Proof.
  intros Hk. unfold getitem. change (Z.of_nat (List.length symbols)) with 5.
  destruct (k <? 0) eqn:Hneg; [|apply Z.ltb_ge in Hneg; lia].
  assert (Hout : (0 <=? k + 5) = false) by (apply Z.leb_gt; lia).
  rewrite Hout. reflexivity.
Qed.

Section StatusFloat.
Local Open Scope Q_scope.

(** [total/4], [i] as a float and their quotient, for positive [i] and
    [total]. *)
Local Abbreviation quarter total :=
  (Float64.round_pos (inject_Z total / inject_Z 4)).
Local Abbreviation as_float i := (Float64.round_pos (inject_Z i)).
Local Abbreviation ratio i total :=
  (Float64.round_pos (as_float i / quarter total)).

Lemma quarter_positive (total : Z) : (0 < total)%Z -> 0 < inject_Z total / inject_Z 4.
Proof.
  intros Ht. pose proof (inject_Z_pos total Ht).
  apply Qlt_shift_div_l; [reflexivity | lra].
Qed.

Lemma int_truediv_quarter (total : Z) :
  (0 < total <= Float64.max_int)%Z ->
  Float64.int_truediv total 4 = Ok (quarter total).
Proof.
  intros Ht. unfold Float64.int_truediv. change (4 =? 0)%Z with false. cbv iota.
  rewrite (round_positive _ (quarter_positive total ltac:(lia))).
  rewrite below_overflow; [reflexivity|].
  apply round_pos_finite; [apply quarter_positive; lia|].
  assert (inject_Z total <= inject_Z Float64.max_int) by (rewrite <- Zle_Qle; lia).
  pose proof (inject_Z_pos total ltac:(lia)).
  apply Qle_shift_div_r; [reflexivity|].
  change (inject_Z 4) with 4. lra.
Qed.

Lemma quarter_bounds (total : Z) :
  (0 < total <= Float64.max_int)%Z ->
  1 # 4 <= quarter total /\ quarter total <= 2 ^ 1022.
Proof.
  intros Ht. pose proof (quarter_positive total ltac:(lia)) as Hq.
  assert (H1 : 1 <= inject_Z total)
    by (change 1 with (inject_Z 1); rewrite <- Zle_Qle; lia).
  assert (Hmax : inject_Z total <= inject_Z Float64.max_int)
    by (rewrite <- Zle_Qle; lia).
  split.
  - assert (E : 1 # 4 == inject_Z 1 * 2 ^ (-2)) by reflexivity.
    rewrite E. apply round_pos_ge; try assumption; try lia.
    rewrite <- E. apply Qle_shift_div_l; [reflexivity|].
    change (inject_Z 4) with 4. lra.
  - apply round_pos_bounded; [exact Hq | lia|].
    apply Qle_shift_div_r; [reflexivity|]. change (inject_Z 4) with 4.
    eapply Qle_trans; [exact Hmax|]. rewrite max_int_value.
    assert (E : 2 ^ 1022 * 4 == 2 ^ 53 * 2 ^ 971).
    { rewrite <- (pow2_split 53 971 1024) by lia.
      rewrite (pow2_split 1022 2 1024) by lia. reflexivity. }
    rewrite E. apply Qmult_le_compat_r; [|apply Qlt_le_weak, pow2_pos].
    rewrite <- pow2_Z by lia. rewrite <- Zle_Qle. lia.
Qed.

Lemma ilog2_quarter (total : Z) :
  (0 < total)%Z -> (-2 <= Float64.ilog2 (inject_Z total / inject_Z 4))%Z.
Proof.
  intros Ht.
  change (-2)%Z with (Float64.ilog2 (1 # 4)).
  apply ilog2_mono; [reflexivity|].
  assert (H1 : 1 <= inject_Z total)
    by (change 1 with (inject_Z 1); rewrite <- Zle_Qle; lia).
  apply Qle_shift_div_l; [reflexivity|]. change (inject_Z 4) with 4. lra.
Qed.

(** [total] as a float is four times [total/4]. *)
Lemma as_float_total (total : Z) :
  (0 < total)%Z -> as_float total == 4 * quarter total.
Proof.
  intros Ht. pose proof (quarter_positive total Ht) as Hq.
  rewrite <- round_pos_scale4;
    [|exact Hq | pose proof (ilog2_quarter total Ht); lia].
  apply round_pos_comp; [apply inject_Z_pos; exact Ht|].
  change (inject_Z 4) with 4. field.
Qed.

Lemma as_float_bounds (i total : Z) :
  (1 <= i <= total)%Z ->
  1 <= as_float i /\ as_float i <= 4 * quarter total.
Proof.
  intros Hi.
  assert (Ha : 0 < inject_Z i) by (apply inject_Z_pos; lia).
  split.
  - assert (E : 1 == inject_Z 1 * 2 ^ 0) by reflexivity.
    rewrite E. apply round_pos_ge; try assumption; try lia.
    rewrite <- E. change 1 with (inject_Z 1). rewrite <- Zle_Qle. lia.
  - rewrite <- as_float_total by lia.
    apply round_pos_mono; [exact Ha|]. rewrite <- Zle_Qle. lia.
Qed.

(** The quotient of a sibling lies in [(0, 4]]. *)
Lemma ratio_bounds (i total : Z) :
  (1 <= i <= total)%Z -> (total <= Float64.max_int)%Z ->
  0 < as_float i / quarter total /\
  0 < ratio i total /\ ratio i total <= 4.
Proof.
  intros Hi Ht.
  destruct (quarter_bounds total ltac:(lia)) as [Hq1 Hq2].
  destruct (as_float_bounds i total Hi) as [Hx1 Hx2].
  assert (Hq : 0 < quarter total) by lra.
  assert (Ha : 0 < as_float i / quarter total)
    by (apply Qlt_shift_div_l; [exact Hq | lra]).
  split; [exact Ha|]. split.
  - assert (Hlow : inject_Z 1 * 2 ^ (-1022) <= as_float i / quarter total).
    { apply Qle_shift_div_l; [exact Hq|]. change (inject_Z 1) with 1.
      apply Qle_trans with (2 ^ (-1022) * 2 ^ 1022).
      - rewrite Qmult_1_l. apply Qmult_le_l; [apply pow2_pos | exact Hq2].
      - rewrite <- (pow2_split (-1022) 1022 0) by lia. rewrite pow2_0. exact Hx1. }
    pose proof (round_pos_ge _ 1 (-1022) Ha ltac:(lia) ltac:(lia) Hlow) as H.
    change (inject_Z 1) with 1 in H. pose proof (pow2_pos (-1022)). lra.
  - assert (E : 4 == inject_Z 4 * 2 ^ 0) by reflexivity.
    rewrite E. apply round_pos_le; try assumption; try lia.
    rewrite <- E. apply Qle_shift_div_r; [exact Hq | exact Hx2].
Qed.

Lemma Qceiling_between (y : Q) (k : Z) :
  inject_Z (k - 1) < y -> y <= inject_Z k -> Qceiling y = k.
Proof.
  intros H1 H2.
  pose proof (Qle_ceiling y) as H3. pose proof (Qceiling_lt y) as H4.
  assert (inject_Z (k - 1) < inject_Z (Qceiling y)) by lra.
  assert (inject_Z (Qceiling y - 1) < inject_Z k) by lra.
  rewrite <- Zlt_Qlt in *. lia.
Qed.

Lemma Qceiling_range (y : Q) (lo hi : Z) :
  inject_Z lo < y -> y <= inject_Z hi -> (lo < Qceiling y <= hi)%Z.
Proof.
  intros H1 H2.
  pose proof (Qle_ceiling y) as H3. pose proof (Qceiling_lt y) as H4.
  assert (inject_Z lo < inject_Z (Qceiling y)) by lra.
  assert (inject_Z (Qceiling y - 1) < inject_Z hi) by lra.
  rewrite <- Zlt_Qlt in *. lia.
Qed.

(** The index of a sibling, as the code computes it. *)
Lemma status_index_b64_sibling (i total : Z) :
  (1 <= i <= total)%Z -> (total <= Float64.max_int)%Z ->
  status_index_b64 i total = Ok (Qceiling (ratio i total)) /\
  (1 <= Qceiling (ratio i total) <= 4)%Z.
Proof.
  intros Hi Ht.
  destruct (ratio_bounds i total Hi Ht) as [Ha [Hy1 Hy2]].
  destruct (quarter_bounds total ltac:(lia)) as [Hq1 _].
  split.
  - unfold status_index_b64.
    rewrite int_truediv_quarter by lia. cbn [bind].
    rewrite of_int_positive by lia. cbn [bind].
    unfold Float64.truediv.
    assert (Eq0 : Qeq_bool (quarter total) 0 = false).
    { destruct (Qeq_bool (quarter total) 0) eqn:E; [|reflexivity].
      apply Qeq_bool_eq in E. lra. }
    rewrite Eq0. cbn [bind].
    rewrite (round_positive _ Ha).
    rewrite below_overflow; [reflexivity|].
    unfold Float64.overflow. pose proof (pow2_lt 2 1024 ltac:(lia)) as Hp.
    change (2 ^ 2) with 4 in Hp. lra.
  - assert (H : (0 < Qceiling (ratio i total) <= 4)%Z); [|lia].
    apply Qceiling_range; assumption.
Qed.


Lemma status_symbol_b64_sibling (i total : Z) :
  (0 <= i < total)%Z ->
  status_symbol_b64 i total
  = bind (status_index_b64 (i + 1) total) (fun k => getitem symbols k).
Proof.
  intros Hi. unfold status_symbol_b64.
  assert (E : ((0 <? i + 1) && (i + 1 >? total))%Z = false).
  { apply andb_false_intro2. rewrite Z.gtb_ltb. apply Z.ltb_ge. lia. }
  rewrite E. reflexivity.
Qed.

Lemma status_symbol_b64_below (i total : Z) :
  (i + 1 <= 0)%Z ->
  status_symbol_b64 i total
  = bind (status_index_b64 (i + 1) total) (fun k => getitem symbols k).
Proof.
  intros Hi. unfold status_symbol_b64.
  assert (E : ((0 <? i + 1) && (i + 1 >? total))%Z = false).
  { apply andb_false_intro1. apply Z.ltb_ge. lia. }
  rewrite E. reflexivity.
Qed.

Lemma status_symbol_b64_guard (i total : Z) :
  (0 <= i)%Z -> (total <= i)%Z -> status_symbol_b64 i total = Ok "X"%char.
Proof.
  intros H0 Ht. unfold status_symbol_b64.
  assert (E : ((0 <? i + 1) && (i + 1 >? total))%Z = true).
  { apply andb_true_intro. split; [apply Z.ltb_lt | apply Z.gtb_lt]; lia. }
  rewrite E. reflexivity.
Qed.

(** The quotient does not decrease from a sibling to the next. *)
Lemma ratio_mono (i j total : Z) :
  (1 <= i)%Z -> (i <= j)%Z -> (j <= total)%Z -> (total <= Float64.max_int)%Z ->
  (Qceiling (ratio i total) <= Qceiling (ratio j total))%Z.
Proof.
  intros Hi Hij Hj Ht.
  destruct (ratio_bounds i total ltac:(lia) Ht) as [Ha _].
  destruct (quarter_bounds total ltac:(lia)) as [Hq1 _].
  apply Qceiling_resp_le. apply round_pos_mono; [exact Ha|].
  apply Qmult_le_compat_r.
  - apply round_pos_mono; [apply inject_Z_pos; lia|]. rewrite <- Zle_Qle. lia.
  - apply Qlt_le_weak, Qinv_lt_0_compat. lra.
Qed.

(** The last sibling has the quotient 4. *)
Lemma ratio_last (total : Z) :
  (1 <= total <= Float64.max_int)%Z -> Qceiling (ratio total total) = 4%Z.
Proof.
  intros Ht.
  destruct (ratio_bounds total total ltac:(lia) ltac:(lia)) as [Ha _].
  destruct (quarter_bounds total ltac:(lia)) as [Hq1 _].
  assert (E : as_float total / quarter total == 4).
  { rewrite as_float_total by lia. field. lra. }
  rewrite (Qceiling_comp _ _ (round_pos_comp _ _ Ha E)).
  rewrite (Qceiling_comp (Float64.round_pos 4) (inject_Z 4)
             (round_pos_int 4 ltac:(lia))).
  apply Qceiling_Z.
Qed.

(** With four siblings or more, the first has a quotient of at most 1. *)
Lemma ratio_first (total : Z) :
  (4 <= total <= Float64.max_int)%Z -> Qceiling (ratio 1 total) = 1%Z.
Proof.
  intros Ht.
  destruct (ratio_bounds 1 total ltac:(lia) ltac:(lia)) as [Ha [Hy _]].
  pose proof (quarter_positive total ltac:(lia)) as Hq.
  assert (Hq1 : inject_Z 1 <= quarter total).
  { apply round_pos_ge_int; try assumption; try lia.
    apply Qle_shift_div_l; [reflexivity|].
    rewrite <- inject_Z_mult, <- Zle_Qle. lia. }
  pose proof (round_pos_int 1 ltac:(lia)) as Hx.
  assert (Hq0 : 0 < quarter total).
  { eapply Qlt_le_trans; [|exact Hq1]. reflexivity. }
  apply Qceiling_between; [exact Hy|].
  apply round_pos_le_int; try assumption; try lia.
  apply Qle_shift_div_r; [exact Hq0|].
  rewrite Hx. rewrite Qmult_1_l. exact Hq1.
Qed.

(** The index at [i + 1 = 0] is 0. *)
Lemma status_index_b64_zero (total : Z) :
  (1 <= total <= Float64.max_int)%Z -> status_index_b64 0 total = Ok 0%Z.
Proof.
  intros Ht. destruct (quarter_bounds total ltac:(lia)) as [Hq1 _].
  unfold status_index_b64.
  rewrite int_truediv_quarter by lia. cbn [bind].
  rewrite of_int_zero. cbn [bind]. unfold Float64.truediv.
  assert (Eq0 : Qeq_bool (quarter total) 0 = false).
  { destruct (Qeq_bool (quarter total) 0) eqn:E; [|reflexivity].
    apply Qeq_bool_eq in E. lra. }
  rewrite Eq0. cbn [bind].
  rewrite round_zero; [reflexivity|]. field. lra.
Qed.

(** With [total = 0] the quotient [total/4] is zero, and the division by
    it raises once [i] has become a float. *)
Lemma status_index_b64_zero_total (i : Z) :
  (- Float64.max_int <= i <= 0)%Z ->
  status_index_b64 i 0 = Raised ZeroDivisionError.
Proof.
  intros Hi. unfold status_index_b64.
  change (Float64.int_truediv 0 4) with (@Ok error Q 0). cbn [bind].
  destruct (Z.eq_dec i 0) as [-> | Hne].
  - reflexivity.
  - rewrite of_int_negative by lia. reflexivity.
Qed.

(** Beyond the floats: [total/4] is too large for a float. *)
Lemma status_index_b64_overflow (i total : Z) :
  (2 ^ 1026 <= total)%Z -> status_index_b64 i total = Raised OverflowError.
Proof.
  intros Ht. unfold status_index_b64, Float64.int_truediv.
  change (4 =? 0)%Z with false. cbv iota.
  assert (HT : inject_Z (2 ^ 1026) <= inject_Z total) by (rewrite <- Zle_Qle; lia).
  rewrite pow2_Z in HT by lia.
  assert (Hq : 2 ^ 1024 <= inject_Z total / inject_Z 4).
  { apply Qle_shift_div_l; [reflexivity|].
    change (inject_Z 4) with (2 ^ 2).
    rewrite <- (pow2_split 1024 2 1026) by lia. exact HT. }
  assert (Hpos : 0 < inject_Z total / inject_Z 4).
  { pose proof (pow2_pos 1024). lra. }
  rewrite (round_positive _ Hpos).
  rewrite above_overflow; [reflexivity|].
  unfold Float64.overflow.
  assert (E : 2 ^ 1024 == inject_Z 1 * 2 ^ 1024) by (change (inject_Z 1) with 1; ring).
  rewrite E. apply round_pos_ge; try assumption; lia.
Qed.


(** *** Where no rounding is felt: [total] up to [2^50] *)

Lemma quarter_exact (total : Z) :
  (0 < total <= 2 ^ 53)%Z -> quarter total == inject_Z total / inject_Z 4.
Proof.
  intros Ht. pose proof (quarter_positive total ltac:(lia)) as Hq.
  assert (E : inject_Z total / inject_Z 4 == inject_Z total * 2 ^ (-2)).
  { change (2 ^ (-2)) with (/ inject_Z 4). reflexivity. }
  apply Qle_antisym.
  - eapply Qle_trans; [|rewrite E; apply Qle_refl].
    apply round_pos_le; try assumption; try lia. rewrite E. apply Qle_refl.
  - eapply Qle_trans; [rewrite E; apply Qle_refl|].
    apply round_pos_ge; try assumption; try lia. rewrite E. apply Qle_refl.
Qed.

Lemma pow2_neg50 (total : Z) :
  (0 < total <= 2 ^ 50)%Z -> 2 ^ (-50) * inject_Z total <= 1.
Proof.
  intros Ht.
  assert (H : inject_Z total <= 2 ^ 50).
  { rewrite <- pow2_Z by lia. rewrite <- Zle_Qle. lia. }
  apply Qle_trans with (2 ^ (-50) * 2 ^ 50).
  - apply Qmult_le_l; [apply pow2_pos | exact H].
  - rewrite <- (pow2_split (-50) 50 0) by lia. rewrite pow2_0. apply Qle_refl.
Qed.

Lemma dyadic_above (k : Z) :
  inject_Z (k * 2 ^ 50 + 1) * 2 ^ (-50) == inject_Z k + 2 ^ (-50).
Proof.
  rewrite inject_Z_plus, inject_Z_mult, pow2_Z by lia.
  change (inject_Z 1) with 1.
  assert (E : 2 ^ 50 * 2 ^ (-50) == 1).
  { rewrite <- (pow2_split 50 (-50) 0) by lia. apply pow2_0. }
  rewrite Qmult_plus_distr_l, <- Qmult_assoc, E. ring.
Qed.

Lemma dyadic_below (k : Z) :
  inject_Z (k * 2 ^ 50 - 1) * 2 ^ (-50) == inject_Z k - 2 ^ (-50).
Proof.
  replace (k * 2 ^ 50 - 1)%Z with ((k - 1) * 2 ^ 50 + (2 ^ 50 - 1))%Z by lia.
  rewrite inject_Z_plus, inject_Z_mult, pow2_Z by lia.
  assert (E : 2 ^ 50 * 2 ^ (-50) == 1).
  { rewrite <- (pow2_split 50 (-50) 0) by lia. apply pow2_0. }
  assert (E1 : inject_Z (2 ^ 50 - 1) == 2 ^ 50 - 1).
  { rewrite <- pow2_Z by lia. unfold Z.sub. rewrite inject_Z_plus. reflexivity. }
  assert (E2 : inject_Z (k - 1) == inject_Z k - 1).
  { unfold Z.sub. rewrite inject_Z_plus. reflexivity. }
  rewrite E1, E2.
  setoid_replace ((inject_Z k - 1) * 2 ^ 50 + (2 ^ 50 - 1))
    with (inject_Z k * 2 ^ 50 - 1) by ring.
  unfold Qminus at 1. rewrite Qmult_plus_distr_l, <- Qmult_assoc, E. ring.
Qed.

(** A positive quotient [n / (total/4)] of integers that are floats,
    between two consecutive integers, keeps its ceiling and its floor when
    it is rounded. *)
Lemma quotient_rounded (n total : Z) :
  (0 < n <= 2 ^ 53)%Z -> (0 < total <= 2 ^ 50)%Z ->
  let y := Float64.round_pos (as_float n / quarter total) in
  0 < as_float n / quarter total /\
  0 < y /\ y < Float64.overflow /\
  ((4 * n + total - 1) / total <= 6 ->
     Qceiling y = ((4 * n + total - 1) / total)%Z)%Z /\
  ((4 * n / total <= 5)%Z -> Qfloor y = (4 * n / total)%Z) /\
  ((6 <= 4 * n / total)%Z -> (6 <= Qfloor y)%Z).
Proof.
  intros Hn Ht y.
  pose proof (quarter_exact total ltac:(lia)) as Eq.
  pose proof (round_pos_int n Hn) as Ex.
  pose proof (inject_Z_pos total ltac:(lia)) as HT.
  pose proof (inject_Z_pos n ltac:(lia)) as HN.
  pose proof (pow2_neg50 total Ht) as H50.
  pose proof (pow2_pos (-50)) as Hp.
  assert (Hq : 0 < quarter total).
  { rewrite Eq. apply quarter_positive. lia. }
  assert (Ea : as_float n / quarter total
               == inject_Z 4 * inject_Z n / inject_Z total).
  { rewrite Eq, Ex. change (inject_Z 4) with 4. field. lra. }
  assert (Ha : 0 < as_float n / quarter total).
  { apply Qlt_shift_div_l; [exact Hq | lra]. }
  assert (Hle : forall k : Z, (4 * n <= k * total)%Z ->
                  as_float n / quarter total <= inject_Z k).
  { intros k Hk. rewrite Ea. apply Qle_shift_div_r; [exact HT|].
    rewrite <- !inject_Z_mult, <- Zle_Qle. exact Hk. }
  assert (Hge : forall k : Z, (k * total <= 4 * n)%Z ->
                  inject_Z k <= as_float n / quarter total).
  { intros k Hk. rewrite Ea. apply Qle_shift_div_l; [exact HT|].
    rewrite <- !inject_Z_mult, <- Zle_Qle. exact Hk. }
  assert (Hgt : forall k : Z, (k * total + 1 <= 4 * n)%Z ->
                  inject_Z k + 2 ^ (-50) <= as_float n / quarter total).
  { intros k Hk. rewrite Ea. apply Qle_shift_div_l; [exact HT|].
    assert (H : inject_Z (k * total + 1) <= inject_Z (4 * n))
      by (rewrite <- Zle_Qle; exact Hk).
    rewrite inject_Z_plus, !inject_Z_mult in H. change (inject_Z 1) with 1 in H.
    rewrite Qmult_plus_distr_l. lra. }
  assert (Hlt : forall k : Z, (4 * n + 1 <= k * total)%Z ->
                  as_float n / quarter total <= inject_Z k - 2 ^ (-50)).
  { intros k Hk. rewrite Ea. apply Qle_shift_div_r; [exact HT|].
    assert (H : inject_Z (4 * n + 1) <= inject_Z (k * total))
      by (rewrite <- Zle_Qle; exact Hk).
    rewrite inject_Z_plus, !inject_Z_mult in H. change (inject_Z 1) with 1 in H.
    setoid_replace ((inject_Z k - 2 ^ (-50)) * inject_Z total)
      with (inject_Z k * inject_Z total - 2 ^ (-50) * inject_Z total) by ring.
    lra. }
  assert (Hy0 : 0 < y).
  { assert (H : inject_Z (0 * 2 ^ 50 + 1) * 2 ^ (-50) <= y).
    { apply round_pos_ge; try assumption; try lia.
      rewrite dyadic_above. apply Hgt. lia. }
    rewrite dyadic_above in H. change (inject_Z 0) with 0 in H. lra. }
  assert (Hfin : y < Float64.overflow).
  { apply (round_pos_bounded _ 55); [exact Ha | lia|].
    rewrite <- pow2_Z by lia. apply Hle.
    assert (4 * n <= 2 ^ 55)%Z by lia. nia. }
  pose proof (Z.div_mod (4 * n + total - 1) total ltac:(lia)) as Hc.
  pose proof (Z.mod_pos_bound (4 * n + total - 1) total ltac:(lia)) as Hcm.
  pose proof (Z.div_mod (4 * n) total ltac:(lia)) as Hf.
  pose proof (Z.mod_pos_bound (4 * n) total ltac:(lia)) as Hfm.
  split; [exact Ha|]. split; [exact Hy0|]. split; [exact Hfin|].
  split; [|split].
  - intros HK. set (K := ((4 * n + total - 1) / total)%Z) in *.
    assert (HK1 : (1 <= K)%Z) by (apply Z.div_le_lower_bound; lia).
    apply Qceiling_between.
    + assert (H : inject_Z ((K - 1) * 2 ^ 50 + 1) * 2 ^ (-50) <= y).
      { apply round_pos_ge; try assumption; try lia.
        rewrite dyadic_above. apply Hgt. nia. }
      rewrite dyadic_above in H. lra.
    + apply round_pos_le_int; try assumption; try lia. apply Hle. nia.
  - intros HF. set (F := (4 * n / total)%Z) in *.
    assert (HF0 : (0 <= F)%Z) by (apply Z.div_pos; lia).
    assert (Hlow : inject_Z F <= y).
    { destruct (Z.eq_dec F 0) as [E0 | E0].
      - rewrite E0. change (inject_Z 0) with 0. lra.
      - apply round_pos_ge_int; try assumption; try lia. apply Hge. nia. }
    assert (Hup : y <= inject_Z (F + 1) - 2 ^ (-50)).
    { rewrite <- dyadic_below. apply round_pos_le; try assumption; try lia.
      rewrite dyadic_below. apply Hlt. nia. }
    assert (Hfl : inject_Z (Qfloor y) <= y) by apply Qfloor_le.
    assert (Hfu : y < inject_Z (Qfloor y + 1)) by apply Qlt_floor.
    assert (inject_Z F < inject_Z (Qfloor y + 1)) by lra.
    assert (inject_Z (Qfloor y) < inject_Z (F + 1)) by lra.
    rewrite <- Zlt_Qlt in *. lia.
  - intros HF.
    assert (H : inject_Z 6 <= y).
    { apply round_pos_ge_int; try assumption; try lia. apply Hge. nia. }
    apply Qfloor_resp_le in H. rewrite Qfloor_Z in H. exact H.
Qed.


Lemma max_int_large : (2 ^ 53 <= Float64.max_int)%Z.
Proof. unfold Float64.max_int. lia. Qed.

(** The index of a sibling is the ceiling of the exact quotient. *)
Lemma status_index_b64_exact (i total : Z) :
  (1 <= i <= total)%Z -> (total <= 2 ^ 50)%Z ->
  status_index_b64 i total = Ok ((4 * i + total - 1) / total)%Z.
Proof.
  intros Hi Ht. pose proof max_int_large as Hmax.
  destruct (status_index_b64_sibling i total Hi ltac:(lia)) as [E _].
  rewrite E. f_equal.
  destruct (quotient_rounded i total ltac:(lia) ltac:(lia))
    as [_ [_ [_ [Hc _]]]].
  apply Hc.
  assert ((4 * i + total - 1) / total < 7)%Z; [|lia].
  apply Z.div_lt_upper_bound; lia.
Qed.

(** Below zero: the index is minus the floor of the quotient of [-i]. *)
Lemma status_index_b64_negative (n total : Z) :
  (0 < n <= 2 ^ 53)%Z -> (0 < total <= 2 ^ 50)%Z ->
  status_index_b64 (- n) total = Ok (- Qfloor (ratio n total))%Z.
Proof.
  intros Hn Ht. pose proof max_int_large as Hmax.
  destruct (quotient_rounded n total Hn Ht) as [Ha [Hy [Hfin _]]].
  destruct (quarter_bounds total ltac:(lia)) as [Hq1 _].
  unfold status_index_b64.
  rewrite int_truediv_quarter by lia. cbn [bind].
  rewrite of_int_negative by lia. cbn [bind].
  rewrite inject_Z_opp.
  assert (Eo : - - inject_Z n == inject_Z n) by apply Qopp_involutive.
  assert (Hn0 : 0 < inject_Z n) by (apply inject_Z_pos; lia).
  assert (Hx0 : 0 < - - inject_Z n) by (rewrite Eo; exact Hn0).
  pose proof (round_pos_comp _ _ Hx0 Eo) as Ex.
  set (x' := Float64.round_pos (- - inject_Z n)) in *.
  unfold Float64.truediv.
  assert (Eq0 : Qeq_bool (quarter total) 0 = false).
  { destruct (Qeq_bool (quarter total) 0) eqn:E; [|reflexivity].
    apply Qeq_bool_eq in E. lra. }
  rewrite Eq0. cbn [bind].
  assert (Eb : - (- x' / quarter total) == as_float n / quarter total).
  { rewrite Ex. field. lra. }
  assert (Hb0 : 0 < - (- x' / quarter total)) by (rewrite Eb; exact Ha).
  assert (Hneg : - x' / quarter total < 0) by lra.
  rewrite (round_negative _ Hneg).
  pose proof (round_pos_comp _ _ Hb0 Eb) as Ey.
  rewrite below_overflow by (rewrite Ey; exact Hfin).
  cbn [Float64.ceil_int]. f_equal. unfold Qceiling. f_equal.
  apply Qfloor_comp. rewrite Ey. apply Qopp_involutive.
Qed.

(** For every sibling count up to [2^50], and every index from
    [-2^53] on, the code returns what the exact quotient gives. *)
Lemma status_symbol_b64_exact (i total : Z) :
  (1 <= total <= 2 ^ 50)%Z -> (- 2 ^ 53 <= i + 1)%Z ->
  status_symbol_b64 i total = status_symbol i total.
Proof.
  intros Ht Hi. pose proof max_int_large as Hmax.
  destruct (Z_lt_le_dec i total) as [Hlt | Hge].
  - destruct (Z_le_gt_dec 0 i) as [H0 | H0].
    + rewrite status_symbol_b64_sibling, status_symbol_integer by lia.
      rewrite status_index_b64_exact by lia. reflexivity.
    + destruct (Z.eq_dec (i + 1) 0) as [E0 | E0].
      * rewrite status_symbol_b64_below, status_symbol_integer_below by lia.
        rewrite E0, status_index_b64_zero by lia. cbn [bind].
        f_equal. symmetry. apply Z.div_small. lia.
      * rewrite status_symbol_b64_below, status_symbol_integer_below by lia.
        set (n := (- (i + 1))%Z).
        replace (i + 1)%Z with (- n)%Z by (unfold n; lia).
        assert (Hn : (0 < n <= 2 ^ 53)%Z) by (unfold n; lia).
        rewrite status_index_b64_negative by lia. cbn [bind].
        assert (EK : ((4 * - n + total - 1) / total = - (4 * n / total))%Z).
        { rewrite <- ceil_div by lia. f_equal. f_equal. lia. }
        rewrite EK.
        destruct (quotient_rounded n total Hn ltac:(lia))
          as [_ [_ [_ [_ [Hsmall Hlarge]]]]].
        destruct (Z_le_gt_dec (4 * n / total) 5) as [H5 | H5].
        -- rewrite (Hsmall H5). reflexivity.
        -- rewrite !getitem_symbols_below; [reflexivity | lia|].
           pose proof (Hlarge ltac:(lia)). lia.
  - destruct (Z_le_gt_dec 0 i) as [H0 | H0]; [|lia].
    rewrite status_symbol_b64_guard, status_symbol_overflow by lia.
    reflexivity.
Qed.

End StatusFloat.

Lemma getitem_symbols_sibling (k : Z) :
  1 <= k <= 4 ->
  exists c, getitem symbols k = Ok c /\
            In c ["."; "o"; "O"; "0"]%char /\ c <> " "%char.
Proof.
  intros Hk.
  assert (D : k = 1 \/ k = 2 \/ k = 3 \/ k = 4) by lia.
  destruct D as [-> | [-> | [-> | ->]]]; eexists;
    (split; [reflexivity | split; [cbn; tauto | discriminate]]).
Qed.

(** A sibling in binary64: the index lies in [[1, 4]]. *)
Lemma status_symbol_b64_inside (i total : Z) :
  0 <= i < total -> total <= Float64.max_int ->
  exists k c, status_index_b64 (i + 1) total = Ok k /\ 1 <= k <= 4 /\
              getitem symbols k = Ok c /\
              In c ["."; "o"; "O"; "0"]%char /\ c <> " "%char /\
              status_symbol_b64 i total = Ok c.
Proof.
  intros Hi Ht.
  destruct (status_index_b64_sibling (i + 1) total ltac:(lia) Ht) as [Hk Hb].
  destruct (getitem_symbols_sibling _ Hb) as [c [Hc [Hin Hne]]].
  eexists _, c. split; [exact Hk|]. split; [exact Hb|].
  split; [exact Hc|]. split; [exact Hin|]. split; [exact Hne|].
  rewrite status_symbol_b64_sibling, Hk by lia. exact Hc.
Qed.

(** C10, as stated, fails: with [total = 0] the call [status_symbol(0, 0)]
    returns ['X'] and raises nothing. *)
Lemma status_symbol_zero_total_returns :
  status_symbol_b64 0 0 = Ok "X"%char /\
  status_symbol_b64 0 0 <> Raised ZeroDivisionError.
Proof. split; [reflexivity | discriminate]. Qed.

(** C10, amended: the domain of [status_symbol], with the divisions in
    binary64 as Python carries them out.  For [total] from 1 to the
    largest float and [0 <= i <= total] the call returns and never
    returns the blank; for [0 <= i < total] the index
    [int(math.ceil((i+1)/(total/4)))] lies in [[1, 4]] and selects the
    symbol; for [i = total] the guard returns ['X'] before any index is
    computed.  From [total = 2^1026] on, [total/4] is too large for a float
    and the call raises [OverflowError] for every [0 <= i < total].  With
    [total = 0] the guard returns ['X'] for every [i >= 0]; the division by
    zero is reached only for [i <= -1], and raises [ZeroDivisionError]
    as long as [i + 1] is not below the floats. *)
Theorem status_symbol_domain :
  (forall i total, 1 <= total <= Float64.max_int -> 0 <= i <= total ->
     exists c, status_symbol_b64 i total = Ok c /\ c <> " "%char) /\
  (forall i total, 1 <= total <= Float64.max_int -> 0 <= i < total ->
     exists k, status_index_b64 (i + 1) total = Ok k /\ 1 <= k <= 4 /\
               status_symbol_b64 i total = getitem symbols k) /\
  (forall total, 1 <= total -> status_symbol_b64 total total = Ok "X"%char) /\
  (forall i total, 2 ^ 1026 <= total -> 0 <= i < total ->
     status_symbol_b64 i total = Raised OverflowError) /\
  (forall i, 0 <= i -> status_symbol_b64 i 0 = Ok "X"%char) /\
  (forall i, - Float64.max_int <= i + 1 <= 0 ->
     status_symbol_b64 i 0 = Raised ZeroDivisionError).
Proof.
  split; [|split; [|split; [|split; [|split]]]].
  - intros i total Ht Hi.
    destruct (Z.eq_dec i total) as [-> | Hne].
    + exists "X"%char.
      split; [apply status_symbol_b64_guard; lia | discriminate].
    + destruct (status_symbol_b64_inside i total) as [k [c H]]; try lia.
      exists c. split; apply H.
  - intros i total Ht Hi.
    destruct (status_symbol_b64_inside i total) as [k [c H]]; try lia.
    destruct H as [Hk [Hb [Hc [_ [_ Hs]]]]].
    exists k. split; [exact Hk|]. split; [exact Hb|]. congruence.
  - intros total Ht. apply status_symbol_b64_guard; lia.
  - intros i total Ht Hi.
    rewrite status_symbol_b64_sibling by lia.
    rewrite status_index_b64_overflow by lia. reflexivity.
  - intros i Hi. apply status_symbol_b64_guard; lia.
  - intros i Hi. rewrite status_symbol_b64_below by lia.
    rewrite status_index_b64_zero_total by lia. reflexivity.
Qed.

(** The theorem at [(2, 10)], [(10, 10)], [(0, 2^1026)], [(5, 0)] and
    [(-1, 0)]. *)
Lemma status_symbol_domain_witness :
  (exists c, status_symbol_b64 2 10 = Ok c /\ c <> " "%char) /\
  (exists k, status_index_b64 (2 + 1) 10 = Ok k /\ 1 <= k <= 4 /\
             status_symbol_b64 2 10 = getitem symbols k) /\
  status_symbol_b64 10 10 = Ok "X"%char /\
  status_symbol_b64 0 (2 ^ 1026) = Raised OverflowError /\
  status_symbol_b64 5 0 = Ok "X"%char /\
  status_symbol_b64 (-1) 0 = Raised ZeroDivisionError.
Proof.
  pose proof max_int_large as Hmax.
  destruct status_symbol_domain as [H1 [H2 [H3 [H4 [H5 H6]]]]].
  split; [apply (H1 2 10); lia|].
  split; [apply (H2 2 10); lia|].
  split; [apply (H3 10); lia|].
  split; [apply (H4 0 (2 ^ 1026)); lia|].
  split; [apply (H5 5); lia | apply (H6 (-1)); lia].
Defined.

(** ** The traversal *)

Section TraversalFacts.

Variable grid : MetaGrid.
Variable target : bbox grid.

Local Abbreviation seed_event := (seed_event grid).

Lemma enumerate_from_bounds {A} (a : Z) (l : list A) :
  Forall (fun ic => a <= fst ic < a + Z.of_nat (List.length l))
         (enumerate_from a l).
Proof.
  revert a. induction l as [|x l IH]; intros a; cbn [enumerate_from].
  - constructor.
  - constructor.
    + cbn [fst List.length]. lia.
    + eapply Forall_impl; [|apply (IH (a + 1))].
      intros ic Hic. cbn beta in Hic. cbn [List.length]. lia.
Qed.

Lemma enumerate_bounds {A} (l : list A) :
  Forall (fun ic => 0 <= fst ic < Z.of_nat (List.length l)) (enumerate l).
Proof. apply (enumerate_from_bounds 0 l). Qed.

Lemma enumerate_from_snd {A} (a : Z) (l : list A) :
  map snd (enumerate_from a l) = l.
Proof.
  revert a. induction l as [|x l IH]; intros a; cbn; [reflexivity|].
  now rewrite IH.
Qed.

(** What the first loop computes: the selected tiles with their classes,
    and one call of [intersects] per tile that is present, unless the frame
    is a full-intersect frame. *)
Lemma collect_sub_seeds_spec (full_intersect : bool) (subtiles : batch grid) :
  collect_sub_seeds grid target full_intersect subtiles
  = (map (fun t => (meta_bbox grid t, classify grid target full_intersect t))
         (filter (selected grid target full_intersect) (present subtiles)),
     if full_intersect then []
     else map (fun t => EvIntersects (meta_bbox grid t)) (present subtiles)).
Proof.
  induction subtiles as [|[t|] rest IH]; cbn [collect_sub_seeds present].
  - destruct full_intersect; reflexivity.
  - rewrite IH. cbn [filter].
    assert (Hsel : selected grid target full_intersect t
                   = negb ((if full_intersect then -1
                            else intersects grid target (meta_bbox grid t)) =? 0))
      by reflexivity.
    rewrite Hsel. destruct full_intersect.
    + reflexivity.
    + destruct (intersects grid target (meta_bbox grid t) =? 0);
        reflexivity.
  - exact IH.
Qed.

(** The second loop, when every child frame returns. *)
Lemma seed_children_runs recur (id : string) (level max_level total : Z)
    (l : list (Z * (bbox grid * Z))) :
  (forall sb id' f, exists tr,
      recur sb (level + 1) max_level id' f = Some (tr, Ok tt)) ->
  Forall (fun ic => 0 <= fst ic < total) l ->
  exists children : list (list seed_event),
    seed_children grid recur id level max_level total l
      = Some (List.concat children, Ok tt) /\
    Forall2 (fun ic tr => exists c, status_symbol (fst ic) total = Ok c /\
               recur (fst (snd ic)) (level + 1) max_level
                     (String.append id (String c EmptyString))
                     (snd (snd ic) =? -1) = Some (tr, Ok tt))
            l children.
Proof.
  intros Hrec Hl. induction Hl as [|[i [sb r]] l Hi Hl IH].
  - exists []. split; [reflexivity | constructor].
  - destruct IH as [children [Hrun Hch]].
    cbn [fst] in Hi. destruct (status_symbol_ok i total Hi) as [c Hc].
    destruct (Hrec sb (String.append id (String c EmptyString)) (r =? -1))
      as [tr Htr].
    exists (tr :: children). split.
    + cbn [seed_children]. rewrite Hc, Htr, Hrun. reflexivity.
    + constructor; [|exact Hch]. exists c. split; assumption.
Qed.

Lemma depth_step (level max_level : Z) :
  level < max_level ->
  Z.to_nat (max_level - level) = depth (level + 1) max_level.
Proof. intros H. unfold depth. lia. Qed.

(** The run of a frame: its head, the runs of its child frames in the
    order of [sub_seeds], then its own work item.  Every frame returns. *)
Lemma seed_frame (cutoff : Z) (cur_bbox : bbox grid) (level max_level : Z)
    (id : string) (full_intersect : bool) :
  exists children : list (list seed_event),
    frame_run grid target cutoff cur_bbox level max_level id full_intersect
      (frame_head grid target cutoff cur_bbox level max_level id full_intersect
       ++ List.concat children
       ++ [EvSubmit id (subtiles_of grid cur_bbox level)]) /\
    if level <? max_level then
      let sub_seeds :=
        fst (collect_sub_seeds grid target full_intersect
                               (subtiles_of grid cur_bbox level)) in
      Forall2 (child_run grid target cutoff id level max_level
                         (Z.of_nat (List.length sub_seeds)))
              (enumerate sub_seeds) children
    else children = [].
Proof.
  remember (Z.to_nat (max_level - level)) as n eqn:Hn.
  revert cur_bbox level id full_intersect Hn.
  induction n as [|n IH]; intros cur_bbox level id full_intersect Hn.
  - (* at most the last level *)
    destruct (level <? max_level) eqn:Hlt.
    + apply Z.ltb_lt in Hlt. lia.
    + exists []. split; [|reflexivity].
      unfold frame_run, frame_head, depth, subtiles_of. rewrite <- Hn.
      cbn [_seed]. destruct (get_affected_level_tiles grid cur_bbox level)
        as [[bbox_ tiles_] subtiles].
      rewrite Hlt. cbn [snd List.concat app]. rewrite app_nil_r. reflexivity.
  - assert (Hlt : level < max_level) by lia.
    assert (Hrec : forall sb id' f, exists tr,
               _seed grid target cutoff (depth (level + 1) max_level)
                     sb (level + 1) max_level id' f = Some (tr, Ok tt)).
    { intros sb id' f.
      destruct (IH sb (level + 1) id' f) as [children [Hrun _]]; [lia|].
      eexists. exact Hrun. }
    unfold frame_run, frame_head, subtiles_of.
    unfold depth at 1. rewrite (depth_step level max_level Hlt).
    cbn [_seed].
    destruct (get_affected_level_tiles grid cur_bbox level)
      as [[bbox_ tiles_] subtiles].
    apply Z.ltb_lt in Hlt. rewrite Hlt. cbn [snd].
    destruct (collect_sub_seeds grid target full_intersect subtiles)
      as [sub_seeds calls] eqn:Hcol.
    cbn [fst snd].
    destruct sub_seeds as [|s0 sub_seeds'].
    + exists []. split; [|constructor].
      cbn [List.concat app]. rewrite <- ?app_assoc. reflexivity.
    + destruct (seed_children_runs
                  (_seed grid target cutoff (depth (level + 1) max_level))
                  id level max_level
                  (Z.of_nat (List.length (s0 :: sub_seeds')))
                  (enumerate (s0 :: sub_seeds')) Hrec
                  (enumerate_bounds (s0 :: sub_seeds')))
        as [children [Hrun Hch]].
      exists children. split.
      * rewrite Hrun. cbn [app]. rewrite <- ?app_assoc. reflexivity.
      * exact Hch.
Qed.

Lemma frame_run_functional cutoff cur_bbox level max_level id full_intersect
    (tr tr' : list seed_event) :
  frame_run grid target cutoff cur_bbox level max_level id full_intersect tr ->
  frame_run grid target cutoff cur_bbox level max_level id full_intersect tr' ->
  tr = tr'.
Proof. unfold frame_run. intros H H'. congruence. Qed.

Lemma Forall_concat_intro {A} (P : A -> Prop) (ls : list (list A)) :
  Forall (Forall P) ls -> Forall P (List.concat ls).
Proof.
  induction 1 as [|l ls Hl _ IH]; cbn [List.concat].
  - constructor.
  - apply Forall_app. split; assumption.
Qed.

Lemma Forall2_right {A B} (R : A -> B -> Prop) (P : B -> Prop)
    (l : list A) (l' : list B) :
  Forall2 R l l' ->
  (forall a b, In a l -> R a b -> P b) ->
  Forall P l'.
Proof.
  induction 1 as [|a b l l' Hab _ IH]; intros HP.
  - constructor.
  - constructor.
    + apply (HP a b); [left; reflexivity | exact Hab].
    + apply IH. intros a' b' Hin. apply HP. right. exact Hin.
Qed.

Lemma enumerate_from_In {A} (a : Z) (l : list A) (ic : Z * A) :
  In ic (enumerate_from a l) -> In (snd ic) l.
Proof.
  intros H. rewrite <- (enumerate_from_snd a l). apply in_map. exact H.
Qed.

(** Over a list built by [map], the entries of [enumerate] can be read
    back as the elements they come from. *)
Lemma Forall2_enumerate_map {A B C} (f : A -> B) (R : Z * B -> C -> Prop)
    (a : Z) (l : list A) (cs : list C) :
  Forall2 R (enumerate_from a (map f l)) cs ->
  Forall2 (fun x c => exists i, R (i, f x) c) l cs.
Proof.
  revert a cs. induction l as [|x l IH]; intros a cs H; cbn in H.
  - inversion H. constructor.
  - inversion H as [|ic c l0 cs' Hic Hrest]; subst.
    constructor; [exists a; exact Hic | eapply IH; exact Hrest].
Qed.

Lemma submitted_app (evs evs' : list seed_event) :
  submitted (evs ++ evs') = submitted evs ++ submitted evs'.
Proof.
  induction evs as [|ev evs IH]; [reflexivity|].
  destruct ev; cbn [app submitted]; rewrite IH; reflexivity.
Qed.

Lemma submitted_concat (ls : list (list seed_event)) :
  submitted (List.concat ls) = flat_map submitted ls.
Proof.
  induction ls as [|l ls IH]; [reflexivity|].
  cbn [List.concat flat_map]. rewrite submitted_app, IH. reflexivity.
Qed.

Lemma submitted_none (evs : list seed_event) :
  Forall (fun ev => is_submit ev = false) evs -> submitted evs = [].
Proof.
  induction 1 as [|ev evs Hev _ IH]; [reflexivity|].
  destruct ev; cbn in Hev; try discriminate; exact IH.
Qed.

Lemma frame_head_no_submit cutoff cur_bbox level max_level id full_intersect :
  Forall (fun ev => is_submit ev = false)
         (frame_head grid target cutoff cur_bbox level max_level id full_intersect).
Proof.
  unfold frame_head. constructor; [reflexivity|].
  apply Forall_app. split.
  - destruct (level <=? cutoff); repeat constructor.
  - destruct (level <? max_level); [|constructor].
    rewrite collect_sub_seeds_spec. cbn [snd].
    destruct full_intersect; [constructor|].
    apply Forall_forall. intros ev Hev. apply in_map_iff in Hev.
    destruct Hev as [t [<- _]]. reflexivity.
Qed.

Lemma frame_run_starts cutoff cur_bbox level max_level id full_intersect
    (tr : list seed_event) :
  frame_run grid target cutoff cur_bbox level max_level id full_intersect tr ->
  starts_with_enter tr.
Proof.
  intros H.
  destruct (seed_frame cutoff cur_bbox level max_level id full_intersect)
    as [children [Hrun _]].
  rewrite (frame_run_functional _ _ _ _ _ _ _ _ H Hrun).
  exact I.
Qed.

Lemma children_start cutoff id level max_level total
    (l : list (Z * (bbox grid * Z))) (children : list (list seed_event)) :
  Forall2 (child_run grid target cutoff id level max_level total) l children ->
  Forall starts_with_enter children.
Proof.
  intros H. eapply Forall2_right; [exact H|].
  intros ic tr _ [c [_ Hrun]]. eapply frame_run_starts. exact Hrun.
Qed.

Lemma own_progress_no_head (calls : list seed_event)
    (children : list (list seed_event)) id subtiles
    (enter : seed_event) :
  Forall (fun ev => is_progress ev = false) calls ->
  Forall starts_with_enter children ->
  own_progress (enter :: calls ++ List.concat children ++ [EvSubmit id subtiles])
  = false.
Proof.
  intros Hcalls Hch. destruct calls as [|ev calls]; cbn [app own_progress].
  - destruct children as [|tr children]; cbn [List.concat app]; [reflexivity|].
    inversion Hch as [|? ? Htr _]; subst.
    destruct tr as [|ev tr]; [destruct Htr|].
    destruct ev; try destruct Htr. reflexivity.
  - inversion Hcalls as [|? ? Hev _]; subst.
    destruct ev; cbn in Hev; try discriminate; reflexivity.
Qed.

(** The run of a frame, with the progress line of the frame itself told
    apart from the lines of its descendants. *)
Lemma seed_frame_progress cutoff cur_bbox level max_level id full_intersect :
  exists tr,
    frame_run grid target cutoff cur_bbox level max_level id full_intersect tr /\
    own_progress tr = (level <=? cutoff).
Proof.
  destruct (seed_frame cutoff cur_bbox level max_level id full_intersect)
    as [children [Hrun Hch]].
  eexists. split; [exact Hrun|].
  unfold frame_head.
  destruct (level <=? cutoff) eqn:Hc; [reflexivity|].
  cbn [app].
  apply own_progress_no_head.
  - destruct (level <? max_level); [|constructor].
    rewrite collect_sub_seeds_spec. cbn [snd].
    destruct full_intersect; [constructor|].
    apply Forall_forall. intros ev Hev. apply in_map_iff in Hev.
    destruct Hev as [t [<- _]]. reflexivity.
  - destruct (level <? max_level).
    + eapply children_start. exact Hch.
    + subst children. constructor.
Qed.

Lemma classify_full (t : tile grid) : classify grid target true t = -1.
Proof. reflexivity. Qed.

Lemma selected_not_disjoint (t : tile grid) :
  selected grid target false t
  = bbox_contains grid target (meta_bbox grid t)
    || bbox_intersects grid target (meta_bbox grid t).
Proof.
  unfold selected, classify, intersects.
  destruct (bbox_contains grid target (meta_bbox grid t)); [reflexivity|].
  destruct (bbox_intersects grid target (meta_bbox grid t)); reflexivity.
Qed.

(** C2: in the run of a frame entered with [full_intersect = True] the
    predicate [intersects] is never called, and every frame of the subtree
    is itself entered with [full_intersect = True]. *)
Theorem seed_contained_subtree (cutoff : Z) (cur_bbox : bbox grid)
    (level max_level : Z) (id : string) :
  exists tr,
    frame_run grid target cutoff cur_bbox level max_level id true tr /\
    Forall contained_event tr /\
    Forall (fun ev => is_intersects ev = false) tr.
Proof.
  remember (Z.to_nat (max_level - level)) as n eqn:Hn.
  revert cur_bbox level id Hn.
  induction n as [|n IH]; intros cur_bbox level id Hn;
    destruct (seed_frame cutoff cur_bbox level max_level id true)
      as [children [Hrun Hch]];
    (eexists; split; [exact Hrun|]).
  - assert (Hlt : (level <? max_level) = false) by (apply Z.ltb_ge; lia).
    rewrite Hlt in Hch. subst children. unfold frame_head. rewrite Hlt.
    split; (constructor; [cbn; reflexivity|]);
      destruct (level <=? cutoff); repeat constructor.
  - assert (Hlt : (level <? max_level) = true) by (apply Z.ltb_lt; lia).
    rewrite Hlt in Hch. cbn zeta in Hch.
    assert (Hkids : Forall (fun tr => Forall contained_event tr /\
                       Forall (fun ev => is_intersects ev = false) tr) children).
    { eapply Forall2_right; [exact Hch|].
      intros [i [sb r]] tr Hin [c [_ Hc]]. cbn [fst snd] in Hc.
      apply enumerate_from_In in Hin. cbn [snd] in Hin.
      rewrite collect_sub_seeds_spec in Hin. cbn [fst] in Hin.
      apply in_map_iff in Hin. destruct Hin as [t [Ht _]].
      rewrite classify_full in Ht. injection Ht as _ <-.
      destruct (IH sb (level + 1)
                   (String.append id (String c EmptyString)))
        as [tr' [Hrun' Hgood]]; [lia|].
      rewrite (frame_run_functional _ _ _ _ _ _ _ _ Hc Hrun').
      exact Hgood. }
    unfold frame_head. rewrite Hlt, collect_sub_seeds_spec. cbn [snd].
    rewrite app_nil_r.
    split.
    + constructor; [reflexivity|].
      apply Forall_app. split; [destruct (level <=? cutoff); repeat constructor|].
      apply Forall_app. split; [|repeat constructor].
      apply Forall_concat_intro. eapply Forall_impl; [|exact Hkids].
      intros tr H. apply H.
    + constructor; [reflexivity|].
      apply Forall_app. split; [destruct (level <=? cutoff); repeat constructor|].
      apply Forall_app. split; [|repeat constructor].
      apply Forall_concat_intro. eapply Forall_impl; [|exact Hkids].
      intros tr H. apply H.
Qed.

(** C3: the run of every frame ends with the submission of the frame's
    own batch; before it come the frame's own events, none of which is a
    submission, and then the complete runs of its child frames.  So the
    items of all descendants are submitted before the item of the frame,
    the item of the root is submitted last, and a frame submits its batch
    whatever [level] and [max_level] are and whether or not it has
    children. *)
Theorem seed_post_order (cutoff : Z) (cur_bbox : bbox grid)
    (level max_level : Z) (id : string) (full_intersect : bool) :
  exists (own : list seed_event) (children : list (list seed_event)),
    frame_run grid target cutoff cur_bbox level max_level id full_intersect
      (own ++ List.concat children
           ++ [EvSubmit id (subtiles_of grid cur_bbox level)]) /\
    Forall (fun ev => is_submit ev = false) own /\
    Forall (fun tr => exists sb id' f,
              frame_run grid target cutoff sb (level + 1) max_level id' f tr)
           children /\
    submitted (own ++ List.concat children
                   ++ [EvSubmit id (subtiles_of grid cur_bbox level)])
    = flat_map submitted children ++ [(id, subtiles_of grid cur_bbox level)].
Proof.
  destruct (seed_frame cutoff cur_bbox level max_level id full_intersect)
    as [children [Hrun Hch]].
  exists (frame_head grid target cutoff cur_bbox level max_level id full_intersect),
         children.
  split; [exact Hrun|].
  split; [apply frame_head_no_submit|].
  split.
  - destruct (level <? max_level).
    + eapply Forall2_right; [exact Hch|].
      intros [i [sb r]] tr _ [c [_ Hc]]. cbn [fst snd] in Hc.
      eexists _, _, _. exact Hc.
    + subst children. constructor.
  - rewrite !submitted_app, submitted_concat.
    rewrite (submitted_none _ (frame_head_no_submit _ _ _ _ _ _)).
    reflexivity.
Qed.

(** A frame submits one batch, its whole tile list, after the batches of
    its child frames.  Below [max_level] it has one child frame for each
    tile of the list that is present and selected, in the order of the
    list: every present tile when the frame is a full-intersect frame, and
    otherwise the tiles whose meta-tile box is contained in the target or
    intersects it.  The child frame of [t] runs on [meta_bbox(t)] at the
    next level.  No frame is started at [max_level] or beyond. *)
Lemma seed_frame_children (cutoff : Z) (cur_bbox : bbox grid)
    (level max_level : Z) (id : string) (full_intersect : bool) :
  exists (tr : list seed_event) (children : list (list seed_event)),
    frame_run grid target cutoff cur_bbox level max_level id full_intersect tr /\
    submitted tr
    = flat_map submitted children ++ [(id, subtiles_of grid cur_bbox level)] /\
    (if level <? max_level then
       Forall2 (fun t child => exists id',
                  frame_run grid target cutoff (meta_bbox grid t) (level + 1)
                            max_level id'
                            (classify grid target full_intersect t =? -1) child)
               (filter (selected grid target full_intersect)
                       (present (subtiles_of grid cur_bbox level)))
               children
     else children = []) /\
    (forall t, selected grid target false t
               = bbox_contains grid target (meta_bbox grid t)
                 || bbox_intersects grid target (meta_bbox grid t)) /\
    (forall t, selected grid target true t = true).
Proof.
  destruct (seed_frame cutoff cur_bbox level max_level id full_intersect)
    as [children [Hrun Hch]].
  eexists _, children. split; [exact Hrun|].
  split.
  - rewrite !submitted_app, submitted_concat.
    rewrite (submitted_none _ (frame_head_no_submit _ _ _ _ _ _)).
    reflexivity.
  - split; [|split; [apply selected_not_disjoint | reflexivity]].
    destruct (level <? max_level); [|exact Hch].
    cbn zeta in Hch. rewrite collect_sub_seeds_spec in Hch. cbn [fst] in Hch.
    apply Forall2_enumerate_map in Hch.
    eapply Forall2_impl; [|exact Hch].
    intros t child [i [c [_ Hc]]]. cbn [fst snd] in Hc.
    eexists. exact Hc.
Qed.

Lemma present_map_Some (l : list (tile grid)) : present (map Some l) = l.
Proof.
  induction l as [|t l IH]; [reflexivity|]. cbn [map present]. now rewrite IH.
Qed.

(** The placeholders of a tile list have no part in the descent: the first
    loop gives the same [sub_seeds], and makes the same calls, with and
    without them. *)
Lemma collect_sub_seeds_placeholders (full_intersect : bool)
    (subtiles : batch grid) :
  collect_sub_seeds grid target full_intersect subtiles
  = collect_sub_seeds grid target full_intersect (map Some (present subtiles)).
Proof.
  rewrite !collect_sub_seeds_spec, present_map_Some. reflexivity.
Qed.

(** The batch a frame submits is the tile list as the grid returned it. *)
Lemma seed_submits_tile_list cutoff cur_bbox level max_level id full_intersect :
  exists before,
    frame_run grid target cutoff cur_bbox level max_level id full_intersect
      (before ++ [EvSubmit id (subtiles_of grid cur_bbox level)]).
Proof.
  destruct (seed_frame cutoff cur_bbox level max_level id full_intersect)
    as [children [Hrun _]].
  eexists. rewrite <- app_assoc. exact Hrun.
Qed.

End TraversalFacts.

(** ** The progress cutoff *)

Lemma report_till_level_offset (lo hi : Z) :
  report_till_level (lo, hi)
  = bind (cutoff_offset (hi - lo + 1)) (fun k => Ok (lo + k)).
Proof.
  unfold report_till_level, cutoff_offset, num_seed_levels. cbn [fst snd].
  destruct (B64.of_int (hi - lo + 1)); reflexivity.
Qed.

Lemma cutoff_offset_checked :
  forallb cutoff_offset_is_floor (levels_upto 89) = true.
Proof. vm_compute. reflexivity. Qed.

(** Up to 89 levels the binary64 product gives the floor of the exact
    product. *)
Lemma cutoff_offset_floor (n : Z) :
  1 <= n <= 89 -> cutoff_offset n = Ok (floor_seven_tenths n).
Proof.
  intros Hn.
  assert (Hin : In n (levels_upto 89)).
  { unfold levels_upto. apply in_map_iff. exists (Z.to_nat (n - 1)).
    split; [lia|]. apply in_seq. lia. }
  pose proof (proj1 (forallb_forall _ _) cutoff_offset_checked n Hin) as H.
  unfold cutoff_offset_is_floor in H.
  destruct (cutoff_offset n) as [k|e]; [|discriminate].
  apply Z.eqb_eq in H. now subst k.
Qed.

Lemma report_till_level_floor (lo hi : Z) :
  lo <= hi <= lo + 88 ->
  report_till_level (lo, hi) = Ok (lo + floor_seven_tenths (hi - lo + 1)).
Proof.
  intros H. rewrite report_till_level_offset, cutoff_offset_floor by lia.
  reflexivity.
Qed.

(** With 90 levels the product [90 * 0.7] is [62.99999999999999]. *)
Lemma cutoff_offset_90 :
  cutoff_offset 90 = Ok 62 /\ floor_seven_tenths 90 = 63.
Proof. split; vm_compute; reflexivity. Qed.

(** C7, as stated, fails: for the range [[0, 89]] the cutoff is [62], not
    [0 + floor(0.7 * 90) = 63]; the run enters a frame at every level from
    0 to 89 and prints the progress line at the levels from 0 to 62 only,
    so the frame at level 63 prints none. *)
Lemma progress_cutoff_90_levels :
  report_till_level (0, 89) = Ok 62 /\
  0 + floor_seven_tenths (89 - 0 + 1) = 63 /\
  Fixture.levels_of_run (0, 0, 1, 1) (0, 89) = Some (range 90, range 63).
Proof.
  split; [vm_compute; reflexivity|].
  split; vm_compute; reflexivity.
Qed.

(** C7, amended: for every seed range of at most 89 levels, the cutoff
    computed by [_seed_location] is [lo + floor(0.7 * (hi - lo + 1))]; it
    is computed once, the run being the root frame with that cutoff; and a
    frame at level [l] prints its progress line if and only if [l] is at
    most that cutoff.  (From 90 levels on, the rounding of the binary64
    product can make the cutoff one less.) *)
Theorem progress_cutoff (grid : MetaGrid) (target : bbox grid) (lo hi : Z) :
  lo <= hi <= lo + 88 ->
  report_till_level (lo, hi) = Ok (lo + floor_seven_tenths (hi - lo + 1)) /\
  _seed_location grid target (lo, hi)
    = _seed grid target (lo + floor_seven_tenths (hi - lo + 1))
            (depth lo hi) target lo hi EmptyString false /\
  forall cur_bbox l id full_intersect,
  exists tr,
    frame_run grid target (lo + floor_seven_tenths (hi - lo + 1))
              cur_bbox l hi id full_intersect tr /\
    (own_progress tr = true <-> l <= lo + floor_seven_tenths (hi - lo + 1)).
Proof.
  intros H.
  pose proof (report_till_level_floor lo hi H) as Hcut.
  split; [exact Hcut|].
  split; [unfold _seed_location; rewrite Hcut; reflexivity|].
  intros cur_bbox l id full_intersect.
  destruct (seed_frame_progress grid target
              (lo + floor_seven_tenths (hi - lo + 1))
              cur_bbox l hi id full_intersect) as [tr [Hrun Hown]].
  exists tr. split; [exact Hrun|].
  rewrite Hown. apply Z.leb_le.
Qed.

(** The theorem at the range [[2, 11]] on the quad-tree grid. *)
Lemma progress_cutoff_witness :
  report_till_level (2, 11) = Ok (2 + floor_seven_tenths (11 - 2 + 1)) /\
  _seed_location Fixture.quad_grid (0, 0, 1, 1) (2, 11)
    = _seed Fixture.quad_grid (0, 0, 1, 1)
            (2 + floor_seven_tenths (11 - 2 + 1))
            (depth 2 11) (0, 0, 1, 1) 2 11 EmptyString false /\
  forall cur_bbox l id full_intersect,
  exists tr,
    frame_run Fixture.quad_grid (0, 0, 1, 1)
              (2 + floor_seven_tenths (11 - 2 + 1))
              cur_bbox l 11 id full_intersect tr /\
    (own_progress tr = true <-> l <= 2 + floor_seven_tenths (11 - 2 + 1)).
Proof.
  apply (progress_cutoff Fixture.quad_grid (0, 0, 1, 1) 2 11). lia.
Defined.

(** ** [exp_backoff] *)

Section BackoffFacts.

Context {RT : Runtime}.
Variable R : Type.
Variable func : world -> result exn R * world.
Variables max_repeat start_backoff_sec : Z.
Variable exceptions : list exc_class.

Local Abbreviation loop :=
  (exp_backoff_loop func max_repeat start_backoff_sec exceptions).
Local Abbreviation run :=
  (backoff_run func max_repeat start_backoff_sec exceptions).

(** The loop ends, whatever the callee does, once the fuel covers the
    attempts that are left. *)
Lemma exp_backoff_loop_runs (fuel : nat) (n : Z) (w : world) :
  (Z.to_nat (max_repeat - 1 - n) < fuel)%nat ->
  exists r w' evs, loop fuel n w = Some (r, w', evs) /\ run n w evs r w'.
Proof.
  revert n w. induction fuel as [|fuel IH]; intros n w Hfuel; [lia|].
  cbn [exp_backoff_loop].
  destruct (func w) as [[v|e] w1] eqn:Hf.
  - eexists _, _, _. split; [reflexivity|]. now apply run_returns.
  - destruct (caught exceptions e) eqn:Hc.
    + destruct (n + 1 >=? max_repeat) eqn:Hlast.
      * eexists _, _, _. split; [reflexivity|].
        apply run_gives_up; try assumption.
        rewrite Z.geb_leb in Hlast. apply Z.leb_le in Hlast. exact Hlast.
      * rewrite Z.geb_leb in Hlast. apply Z.leb_gt in Hlast.
        unfold time_sleep.
        destruct (start_backoff_sec * 2 ^ n <? 0) eqn:Hneg.
        -- eexists _, _, _. split; [reflexivity|].
           apply run_sleep_refused; try assumption.
           apply Z.ltb_lt. exact Hneg.
        -- apply Z.ltb_ge in Hneg.
           destruct (IH (n + 1) (elapse (start_backoff_sec * 2 ^ n) w1))
             as [r [w2 [evs [Hloop Hrun]]]]; [lia|].
           rewrite Hloop. eexists _, _, _. split; [reflexivity|].
           now apply run_retries with (w1 := w1).
    + eexists _, _, _. split; [reflexivity|]. now apply run_propagates.
Qed.

Lemma exp_backoff_runs (w : world) :
  exists r w' evs,
    exp_backoff func max_repeat start_backoff_sec exceptions w
      = Some (r, w', evs) /\
    run 0 w evs r w'.
Proof. apply exp_backoff_loop_runs. lia. Qed.

(** The number of calls. *)
Lemma run_calls_bound n w evs r w' :
  run n w evs r w' ->
  (1 <= List.length (calls evs))%nat /\
  n + Z.of_nat (List.length (calls evs)) <= Z.max (n + 1) max_repeat.
Proof.
  induction 1; cbn [calls List.length]; try lia.
Qed.

(** The sleeps double from attempt to attempt. *)
Lemma run_sleeps n w evs r w' :
  0 <= n ->
  run n w evs r w' ->
  sleeps evs
  = map (fun k => start_backoff_sec * 2 ^ (n + Z.of_nat k))
        (seq 0 (List.length (calls evs) - 1)).
Proof.
  intros Hn Hrun. induction Hrun; cbn [sleeps calls List.length]; try reflexivity.
  rewrite IHHrun by lia.
  pose proof (run_calls_bound _ _ _ _ _ Hrun) as [Hlen _].
  replace (S (List.length (calls evs)) - 1)%nat
    with (S (List.length (calls evs) - 1)) by lia.
  cbn [seq map]. rewrite Z.add_0_r. f_equal.
  rewrite <- seq_shift, map_map. apply map_ext. intros k.
  f_equal. f_equal. lia.
Qed.

Lemma run_total_sleep n w evs r w' :
  0 <= n ->
  run n w evs r w' ->
  total_sleep evs
  = start_backoff_sec
    * (2 ^ (n + Z.of_nat (List.length (calls evs)) - 1) - 2 ^ n).
Proof.
  intros Hn Hrun. unfold total_sleep.
  induction Hrun; cbn [sleeps calls List.length fold_right];
    try (replace (n + Z.of_nat 1 - 1) with n by lia; lia).
  rewrite IHHrun by lia.
  pose proof (run_calls_bound _ _ _ _ _ Hrun) as [Hlen _].
  replace (n + 1 + Z.of_nat (List.length (calls evs)) - 1)
    with (n + Z.of_nat (S (List.length (calls evs))) - 1) by lia.
  rewrite (Z.pow_add_r 2 n 1) by lia. lia.
Qed.

(** The result is the outcome of the last call; every call before it
    failed with an exception the clause catches and was followed by its
    message and its sleep.  This needs the sleeps to be accepted. *)
Lemma run_result_is_last_call n w evs r w' :
  0 <= n -> 0 <= start_backoff_sec ->
  run n w evs r w' ->
  exists failed,
    evs = retry_rounds start_backoff_sec n failed ++ [Called r] /\
    calls evs = failed ++ [r] /\
    Forall (recoverable_failure exceptions) failed.
Proof.
  intros Hn Hs Hrun. induction Hrun; cbn [calls].
  - exists []. repeat split; constructor.
  - exists []. repeat split; constructor.
  - exists []. repeat split; constructor.
  - assert (0 <= start_backoff_sec * 2 ^ n)
      by (apply Z.mul_nonneg_nonneg; [lia | apply Z.pow_nonneg; lia]).
    lia.
  - destruct IHHrun as [failed [Hevs [Hcalls Hfailed]]]; [lia|].
    exists (Raised e :: failed). split; [|split].
    + rewrite Hevs. reflexivity.
    + rewrite Hcalls. reflexivity.
    + constructor; [|exact Hfailed]. exists e. split; [reflexivity | assumption].
Qed.

(** A callee that always fails with an exception the clause catches is
    called [max_repeat] times, and its exception is raised again. *)
Lemma run_always_failing n w evs r w' e :
  0 <= n < max_repeat -> 0 <= start_backoff_sec ->
  (forall w0, fst (func w0) = Raised e) ->
  caught exceptions e = true ->
  run n w evs r w' ->
  r = Raised e /\ n + Z.of_nat (List.length (calls evs)) = max_repeat.
Proof.
  intros Hn Hs Hf Hc Hrun.
  induction Hrun as [n w v w1 Hv | n w e' w1 He' Hc' | n w e' w1 He' Hc' Hmax
                    | n w e' w1 He' Hc' Hmax Hneg
                    | n w e' w1 evs r w2 He' Hc' Hmax Hpos Hrun IH];
    pose proof (Hf w) as Hw.
  - rewrite Hv in Hw. discriminate.
  - rewrite He' in Hw. cbn in Hw. injection Hw as ->. congruence.
  - rewrite He' in Hw. cbn in Hw. injection Hw as ->.
    split; [reflexivity|]. cbn [calls List.length]. lia.
  - assert (0 <= start_backoff_sec * 2 ^ n)
      by (apply Z.mul_nonneg_nonneg; [lia | apply Z.pow_nonneg; lia]).
    lia.
  - destruct IH as [Hr Hlen]; [lia|].
    split; [exact Hr|]. cbn [calls List.length]. lia.
Qed.

(** An exception the clause does not catch ends the run at once. *)
Lemma run_unrecoverable_is_last n w evs r w' :
  run n w evs r w' ->
  forall pre e post,
    evs = pre ++ Called (Raised e) :: post ->
    caught exceptions e = false ->
    post = [] /\ r = Raised e.
Proof.
  induction 1 as [n w v w1 Hv | n w e' w1 He' Hc' | n w e' w1 He' Hc' Hmax
                 | n w e' w1 He' Hc' Hmax Hneg
                 | n w e' w1 evs r w2 He' Hc' Hmax Hpos Hrun IH];
    intros pre e post Hevs Hc.
  - destruct pre as [|ev pre]; cbn in Hevs; [discriminate|].
    injection Hevs as _ Hrest. destruct pre; discriminate.
  - destruct pre as [|ev pre]; cbn in Hevs.
    + injection Hevs as <- <-. split; reflexivity.
    + injection Hevs as _ Hrest. destruct pre; discriminate.
  - destruct pre as [|ev pre]; cbn in Hevs.
    + injection Hevs as <- <-. congruence.
    + injection Hevs as _ Hrest. destruct pre; discriminate.
  - destruct pre as [|ev pre]; cbn in Hevs.
    + injection Hevs as <- _. congruence.
    + injection Hevs as _ Hrest.
      destruct pre as [|ev' pre]; cbn in Hrest; [discriminate|].
      injection Hrest as _ Hrest. destruct pre; discriminate.
  - destruct pre as [|ev0 pre]; cbn in Hevs.
    + injection Hevs as <- _. congruence.
    + injection Hevs as _ Hrest.
      destruct pre as [|ev1 pre]; cbn in Hrest; [discriminate|].
      injection Hrest as _ Hrest.
      destruct pre as [|ev2 pre]; cbn in Hrest; [discriminate|].
      injection Hrest as _ Hrest.
      eapply IH; eassumption.
Qed.

End BackoffFacts.

Lemma pow2_sum_bound (start len max_repeat : Z) :
  0 <= start -> 1 <= len <= max_repeat ->
  start * (2 ^ (0 + len - 1) - 2 ^ 0) <= start * (2 ^ max_repeat - 1).
Proof.
  intros Hs Hlen. apply Z.mul_le_mono_nonneg_l; [exact Hs|].
  assert (2 ^ (0 + len - 1) <= 2 ^ max_repeat)
    by (apply Z.pow_le_mono_r; lia).
  change (2 ^ 0) with 1. lia.
Qed.

Lemma doubling_from_one (start : Z) (m : nat) :
  map (fun k => start * 2 ^ (0 + Z.of_nat k)) (seq 0 m)
  = map (fun n => start * 2 ^ (Z.of_nat n - 1)) (seq 1 m).
Proof.
  rewrite <- seq_shift, map_map. apply map_ext. intros k.
  f_equal. f_equal. lia.
Qed.

(** C4: with [max_repeat >= 1] and a non-negative [start_backoff_sec]
    (the defaults are 10 and 2), [exp_backoff] returns or raises after at
    most [max_repeat] calls of [func], and its run is a run of [func]: the
    first call is [func] in the world [w], every further call is [func] in
    the world that the failed call before it and the sleep after that call
    left, and the world at the end is the one the last call left; the
    sleep after the [n]-th failed
    call is [start * 2^(n-1)] seconds, for [n] from 1 to the number of
    calls less one; the sleeps add up to at most
    [start * (2^max_repeat - 1)]; the result is the outcome of the last
    call, all calls before it having failed with a caught exception and
    each of them being followed by its message and its sleep; and
    when every call fails with the caught exception [e], there are exactly
    [max_repeat] calls and [e] is raised again. *)
Theorem exp_backoff_bounded {RT : Runtime} (R : Type)
    (func : world -> result exn R * world) (max_repeat start_backoff_sec : Z)
    (exceptions : list exc_class) (w : world) :
  1 <= max_repeat -> 0 <= start_backoff_sec ->
  exists r w' evs,
    exp_backoff func max_repeat start_backoff_sec exceptions w
      = Some (r, w', evs) /\
    backoff_run func max_repeat start_backoff_sec exceptions 0 w evs r w' /\
    Z.of_nat (List.length (calls evs)) <= max_repeat /\
    sleeps evs
      = map (fun n => start_backoff_sec * 2 ^ (Z.of_nat n - 1))
            (seq 1 (List.length (calls evs) - 1)) /\
    total_sleep evs <= start_backoff_sec * (2 ^ max_repeat - 1) /\
    (exists failed,
       evs = retry_rounds start_backoff_sec 0 failed ++ [Called r] /\
       calls evs = failed ++ [r] /\
       Forall (recoverable_failure exceptions) failed) /\
    (forall e, (forall w0, fst (func w0) = Raised e) ->
               caught exceptions e = true ->
               r = Raised e /\ Z.of_nat (List.length (calls evs)) = max_repeat).
Proof.
  intros Hmax Hstart.
  destruct (exp_backoff_runs R func max_repeat start_backoff_sec exceptions w)
    as [r [w' [evs [Heq Hrun]]]].
  exists r, w', evs. split; [exact Heq|].
  split; [exact Hrun|].
  pose proof (run_calls_bound _ _ _ _ _ _ _ _ _ _ Hrun) as [Hone Hlen].
  split; [lia|].
  split.
  { rewrite (run_sleeps _ _ _ _ _ _ _ _ _ _ (Z.le_refl 0) Hrun).
    apply doubling_from_one. }
  split.
  { rewrite (run_total_sleep _ _ _ _ _ _ _ _ _ _ (Z.le_refl 0) Hrun).
    apply pow2_sum_bound; lia. }
  split.
  { apply (run_result_is_last_call _ _ _ _ _ _ _ _ _ _
             (Z.le_refl 0) Hstart Hrun). }
  intros e Hf Hc.
  destruct (run_always_failing R func max_repeat start_backoff_sec exceptions
              0 w evs r w' e) as [Hr Hn]; try assumption; try lia.
  split; [exact Hr | lia].
Qed.

(** The theorem at the defaults, for a callee that always raises a
    [TileSourceError]. *)
Lemma exp_backoff_bounded_witness :
  exists r w' evs,
    exp_backoff (Fixture.always_raises Fixture.Upstream) 10 2
                [Fixture.Upstream; Fixture.Disk] 0%nat
      = Some (r, w', evs) /\
    backoff_run (Fixture.always_raises Fixture.Upstream) 10 2
                [Fixture.Upstream; Fixture.Disk] 0 0%nat evs r w' /\
    Z.of_nat (List.length (calls evs)) <= 10 /\
    sleeps evs
      = map (fun n => 2 * 2 ^ (Z.of_nat n - 1))
            (seq 1 (List.length (calls evs) - 1)) /\
    total_sleep evs <= 2 * (2 ^ 10 - 1) /\
    (exists failed,
       evs = retry_rounds 2 0 failed ++ [Called r] /\
       calls evs = failed ++ [r] /\
       Forall (recoverable_failure [Fixture.Upstream; Fixture.Disk]) failed) /\
    (forall e, (forall w0, fst (Fixture.always_raises Fixture.Upstream w0)
                           = Raised e) ->
               caught [Fixture.Upstream; Fixture.Disk] e = true ->
               r = Raised e /\ Z.of_nat (List.length (calls evs)) = 10).
Proof.
  apply (@exp_backoff_bounded Fixture.runtime unit
           (Fixture.always_raises Fixture.Upstream) 10 2
           [Fixture.Upstream; Fixture.Disk] 0%nat); lia.
Defined.

(** ** [SeedWorker] *)

Section WorkerFacts.

Context {RT : Runtime}.
Variable grid : MetaGrid.
Variable load_tile_coords : batch grid -> world -> result exn unit * world.

Local Abbreviation recoverable := [TileSourceError; IOError].

Lemma loaded_Loading (tiles : batch grid) (evs : list (backoff_event unit)) :
  SeedWorker.loaded (map (SeedWorker.Loading tiles) evs)
  = repeat tiles (List.length (calls evs)).
Proof.
  induction evs as [|ev evs IH]; [reflexivity|].
  destruct ev; cbn [map SeedWorker.loaded calls List.length repeat];
    rewrite IH; reflexivity.
Qed.

(** A turn with a work item, outside a dry run: the item is announced and
    [exp_backoff] runs [load_tile_coords] on the tile list of the item. *)
Lemma turn_loads (seed_id : option string) (tiles : batch grid) (w : world) :
  exists r w' evs,
    backoff_run (load_tile_coords tiles) default_max_repeat
                default_start_backoff_sec recoverable 0 w evs r w' /\
    SeedWorker.turn grid load_tile_coords false (seed_id, Some tiles) w
    = Some (match r with
            | Ok _ => SeedWorker.Continues
            | Raised e => SeedWorker.Propagates e
            end,
            w',
            SeedWorker.Announced seed_id
              :: map (SeedWorker.Loading tiles) evs).
Proof.
  destruct (exp_backoff_runs unit (load_tile_coords tiles) default_max_repeat
              default_start_backoff_sec recoverable w)
    as [r [w' [evs [Heq Hrun]]]].
  exists r, w', evs. split; [exact Hrun|].
  cbn [SeedWorker.turn]. rewrite Heq. destruct r; reflexivity.
Qed.

(** In a dry run a turn with a work item only announces it. *)
Lemma turn_dry_run (seed_id : option string) (tiles : batch grid) (w : world) :
  SeedWorker.turn grid load_tile_coords true (seed_id, Some tiles) w
  = Some (SeedWorker.Continues, w, [SeedWorker.Announced seed_id]).
Proof. reflexivity. Qed.

Lemma turn_sentinel (dry_run : bool) (seed_id : option string) (w : world) :
  SeedWorker.turn grid load_tile_coords dry_run (seed_id, None) w
  = Some (SeedWorker.Returns, w, []).
Proof. reflexivity. Qed.

(** A turn always ends. *)
Lemma turn_total (dry_run : bool) (x : qitem grid) (w : world) :
  exists r w' evs,
    SeedWorker.turn grid load_tile_coords dry_run x w = Some (r, w', evs) /\
    (r = SeedWorker.Returns <-> tiles_is_None x = true) /\
    (dry_run = true -> forall e, r <> SeedWorker.Propagates e).
Proof.
  destruct x as [seed_id [tiles|]].
  - destruct dry_run.
    + eexists _, _, _. split; [apply turn_dry_run|].
      split; [split; discriminate | discriminate].
    + destruct (turn_loads seed_id tiles w) as [r [w' [evs [_ Heq]]]].
      eexists _, _, _. split; [exact Heq|].
      split; [|discriminate].
      destruct r; split; discriminate.
  - eexists _, _, _. split; [apply turn_sentinel|].
    split; [split; reflexivity | discriminate].
Qed.

(** What the worker does with an exception of [load_tile_coords] that is
    neither a [TileSourceError] nor an [IOError]: one call, no sleep, and
    the exception leaves [run]. *)
Lemma turn_unrecoverable (seed_id : option string) (tiles : batch grid)
    (w w1 : world) (e : exn) :
  load_tile_coords tiles w = (Raised e, w1) ->
  isinstance e TileSourceError = false ->
  isinstance e IOError = false ->
  SeedWorker.turn grid load_tile_coords false (seed_id, Some tiles) w
  = Some (SeedWorker.Propagates e, w1,
          [SeedWorker.Announced seed_id;
           SeedWorker.Loading tiles (Called (Raised e))]).
Proof.
  intros Hload Ht Hi. cbn [SeedWorker.turn].
  unfold exp_backoff, default_max_repeat.
  change (Z.to_nat (Z.max 1 10)) with 10%nat.
  cbn [exp_backoff_loop]. rewrite Hload.
  unfold caught. cbn [existsb]. rewrite Ht, Hi. reflexivity.
Qed.

(** What it does with a [TileSourceError] or an [IOError]: it sleeps two
    seconds and calls again. *)
Lemma turn_recoverable (seed_id : option string) (tiles : batch grid)
    (w w1 : world) (e : exn) :
  load_tile_coords tiles w = (Raised e, w1) ->
  isinstance e TileSourceError || isinstance e IOError = true ->
  exists r w' o rest,
    SeedWorker.turn grid load_tile_coords false (seed_id, Some tiles) w
    = Some (r, w',
            SeedWorker.Announced seed_id
              :: SeedWorker.Loading tiles (Called (Raised e))
              :: SeedWorker.Loading tiles (Printed 2 e)
              :: SeedWorker.Loading tiles (Slept 2)
              :: SeedWorker.Loading tiles (Called o)
              :: rest).
Proof.
  intros Hload Hc.
  destruct (turn_loads seed_id tiles w) as [r [w' [evs [Hrun Heq]]]].
  rewrite Heq.
  assert (Hcaught : caught recoverable e = true).
  { unfold caught. cbn [existsb]. rewrite orb_false_r. exact Hc. }
  inversion Hrun as [n0 w0 v w2 Hv | n0 w0 e' w2 He' Hc' | n0 w0 e' w2 He' Hc' Hmax
                    | n0 w0 e' w2 He' Hc' Hmax Hneg
                    | n0 w0 e' w2 evs' r' w3 He' Hc' Hmax Hpos Hrest]; subst;
    rewrite Hload in *.
  - discriminate.
  - injection He' as <- <-. congruence.
  - unfold default_max_repeat in Hmax. lia.
  - unfold default_start_backoff_sec in Hneg. lia.
  - injection He' as <- <-.
    change (default_start_backoff_sec * 2 ^ 0) with 2.
    assert (Hfirst : exists o evs'', evs' = Called o :: evs'').
    { inversion Hrest; eexists _, _; reflexivity. }
    destruct Hfirst as [o [evs'' ->]].
    eexists _, _, o, _. cbn [map]. reflexivity.
Qed.

(** The tile list that reaches [load_tile_coords] is the list of the item,
    as it was dequeued. *)
Lemma turn_forwards_tiles (seed_id : option string) (tiles : batch grid)
    (w : world) :
  exists r w' evs,
    SeedWorker.turn grid load_tile_coords false (seed_id, Some tiles) w
    = Some (r, w', evs) /\
    SeedWorker.loaded evs <> [] /\
    Forall (eq tiles) (SeedWorker.loaded evs).
Proof.
  destruct (turn_loads seed_id tiles w) as [r [w' [evs [Hrun Heq]]]].
  eexists _, _, _. split; [exact Heq|].
  cbn [SeedWorker.loaded]. rewrite loaded_Loading.
  pose proof (run_calls_bound _ _ _ _ _ _ _ _ _ _ Hrun) as [Hone _].
  split.
  - destruct (List.length (calls evs)); [lia | discriminate].
  - apply Forall_forall. intros x Hx. symmetry. eapply repeat_spec. exact Hx.
Qed.

End WorkerFacts.

(** ** [SeedPool] *)

Section PoolFacts.

Context {RT : Runtime}.
Variable grid : MetaGrid.
Variable load_tile_coords : batch grid -> world -> result exn unit * world.
Variable dry_run : bool.

Local Abbreviation step := (SeedPool.step grid load_tile_coords dry_run).
Local Abbreviation reachable := (SeedPool.reachable grid load_tile_coords dry_run).

Lemma sentinels_app (l l' : list (qitem grid)) :
  sentinels (l ++ l') = (sentinels l + sentinels l')%nat.
Proof. unfold sentinels. rewrite filter_app, length_app. reflexivity. Qed.

Lemma sentinels_real (l : list (qitem grid)) :
  real_items grid l -> sentinels l = 0%nat.
Proof.
  unfold sentinels. induction 1 as [|x l Hx _ IH]; [reflexivity|].
  cbn [filter]. rewrite Hx. exact IH.
Qed.

Lemma sentinels_repeat (n : nat) :
  sentinels (repeat (sentinel grid) n) = n.
Proof.
  unfold sentinels. induction n as [|n IH]; [reflexivity|].
  cbn [repeat filter tiles_is_None sentinel snd List.length]. now rewrite IH.
Qed.

Lemma nth_error_replace_nth_same {A} (k : nat) (a b : A) (l : list A) :
  nth_error l k = Some b -> nth_error (SeedPool.replace_nth k a l) k = Some a.
Proof.
  revert k. induction l as [|c l IH]; intros [|k] H; cbn in *;
    try discriminate; [reflexivity | apply IH; exact H].
Qed.

Lemma nth_error_replace_nth_other {A} (k k' : nat) (a : A) (l : list A) :
  k <> k' -> nth_error (SeedPool.replace_nth k a l) k' = nth_error l k'.
Proof.
  revert k k'. induction l as [|c l IH]; intros [|k] [|k'] H; cbn;
    try reflexivity; try congruence.
  apply IH. congruence.
Qed.

Lemma length_replace_nth {A} (k : nat) (a : A) (l : list A) :
  List.length (SeedPool.replace_nth k a l) = List.length l.
Proof.
  revert k. induction l as [|c l IH]; intros [|k]; cbn; try reflexivity.
  now rewrite IH.
Qed.

Lemma Forall_replace_nth {A} (P : A -> Prop) (k : nat) (a : A) (l : list A) :
  Forall P l -> P a -> Forall P (SeedPool.replace_nth k a l).
Proof.
  intros Hl Ha. revert k. induction Hl as [|c l Hc Hl IH]; intros [|k]; cbn;
    constructor; try assumption. apply IH.
Qed.

Lemma puts_of_app (ops ops' : list (SeedPool.main_op grid)) :
  SeedPool.puts_of (ops ++ ops') = SeedPool.puts_of ops ++ SeedPool.puts_of ops'.
Proof. unfold SeedPool.puts_of. apply flat_map_app. Qed.

Lemma puts_of_joins (a n : nat) :
  SeedPool.puts_of (grid := grid) (map SeedPool.Join (seq a n)) = [].
Proof.
  unfold SeedPool.puts_of. revert a.
  induction n as [|n IH]; intros a; [reflexivity|].
  cbn [seq map flat_map app]. apply IH.
Qed.

Lemma puts_of_sentinels (n : nat) :
  SeedPool.puts_of (repeat (SeedPool.Put (sentinel grid)) n)
  = repeat (sentinel grid) n.
Proof.
  unfold SeedPool.puts_of.
  induction n as [|n IH]; [reflexivity|].
  cbn [repeat flat_map app]. now rewrite IH.
Qed.

(** The items the whole program puts: the work items in the order of the
    traversal, then one sentinel for each worker. *)
Lemma puts_of_program (size : nat) (items : list (string * batch grid)) :
  SeedPool.puts_of (SeedPool.program size items)
  = map (fun item => work_item grid (fst item) (snd item)) items
    ++ repeat (sentinel grid) size.
Proof.
  unfold SeedPool.program, SeedPool.stop.
  rewrite !puts_of_app, puts_of_joins, puts_of_sentinels, app_nil_r. f_equal.
  induction items as [|item items IH]; [reflexivity|].
  cbn [flat_map map]. rewrite puts_of_app, IH. reflexivity.
Qed.

(** A turn keeps what holds of the worker that takes it. *)
Lemma after_turn_ok (p : SeedPool.proc grid) (x : qitem grid)
    (r : SeedWorker.turn_end) (w w' : world) evs :
  proc_ok grid dry_run p ->
  SeedPool.is_alive p = true ->
  SeedWorker.turn grid load_tile_coords dry_run x w = Some (r, w', evs) ->
  proc_ok grid dry_run (SeedPool.after_turn p x r).
Proof.
  intros [Hreal Hp] Halive Hturn.
  destruct (turn_total grid load_tile_coords dry_run x w)
    as [r0 [w0 [evs0 [Heq [Hret Hdry]]]]].
  rewrite Hturn in Heq. injection Heq as <- <- <-.
  unfold SeedPool.is_alive in Halive.
  destruct (SeedPool.state p) eqn:Hst; try discriminate.
  destruct r as [| |e]; unfold proc_ok; cbn [SeedPool.after_turn
    SeedPool.state SeedPool.taken SeedPool.completed].
  - split; [exact Hreal|]. exists x. split; [now rewrite Hp|].
    apply Hret. reflexivity.
  - assert (Hx : tiles_is_None x = false).
    { destruct (tiles_is_None x) eqn:E; [|reflexivity].
      destruct Hret as [_ Hret]. specialize (Hret eq_refl). discriminate. }
    split; [|now rewrite Hp].
    apply Forall_app. split; [exact Hreal | repeat constructor; exact Hx].
  - assert (Hx : tiles_is_None x = false).
    { destruct (tiles_is_None x) eqn:E; [|reflexivity].
      destruct Hret as [_ Hret]. specialize (Hret eq_refl). discriminate. }
    split; [exact Hreal|]. split.
    + destruct dry_run; [|reflexivity].
      exfalso. apply (Hdry eq_refl e). reflexivity.
    + exists x. split; [now rewrite Hp | exact Hx].
Qed.

Lemma pool_inv_step (size : nat) (prog : list (SeedPool.main_op grid))
    (s s' : SeedPool.pool grid) :
  pool_inv grid dry_run size prog s -> step s s' ->
  pool_inv grid dry_run size prog s'.
Proof.
  intros [Hlen [Hok [Hcap [done [Hprog [Hhist Hjoin]]]]]] Hstep.
  unfold pool_inv.
  inversion Hstep as [x rest q ps w h Hroom
                     | k p rest q ps w h Hk Hdead
                     | k p x q ps m w h r w' evs Hk Halive Hturn]; subst s s';
    cbn [SeedPool.procs SeedPool.tiles_queue SeedPool.main SeedPool.history] in *.
  - (* put *)
    split; [exact Hlen|]. split; [exact Hok|].
    split; [rewrite length_app; cbn [List.length]; lia|].
    exists (done ++ [SeedPool.Put x]).
    split; [rewrite <- app_assoc; exact Hprog|].
    split; [rewrite puts_of_app, Hhist; reflexivity|].
    intros k Hin. apply in_app_or in Hin. destruct Hin as [Hin | [Hin | []]].
    + apply Hjoin. exact Hin.
    + discriminate.
  - (* join *)
    split; [exact Hlen|]. split; [exact Hok|]. split; [exact Hcap|].
    exists (done ++ [SeedPool.Join k]).
    split; [rewrite <- app_assoc; exact Hprog|].
    split; [rewrite puts_of_app, Hhist; cbn; now rewrite app_nil_r|].
    intros k' Hin. apply in_app_or in Hin. destruct Hin as [Hin | [Hin | []]].
    + apply Hjoin. exact Hin.
    + injection Hin as <-. exists p. split; assumption.
  - (* get *)
    split; [rewrite length_replace_nth; exact Hlen|].
    split.
    { apply Forall_replace_nth; [exact Hok|].
      eapply after_turn_ok; [|exact Halive|exact Hturn].
      eapply Forall_forall; [exact Hok|]. eapply nth_error_In. exact Hk. }
    split; [cbn [List.length] in Hcap; lia|].
    exists done. split; [exact Hprog|]. split; [exact Hhist|].
    intros k' Hin. destruct (Hjoin k' Hin) as [p' [Hk' Hdead]].
    exists p'. split; [|exact Hdead].
    rewrite nth_error_replace_nth_other; [exact Hk'|].
    intros ->. rewrite Hk in Hk'. injection Hk' as <-. congruence.
Qed.

Lemma pool_inv_create (size : nat) (items : list (string * batch grid))
    (w : world) :
  pool_inv grid dry_run size (SeedPool.program size items)
           (SeedPool.create size items w).
Proof.
  unfold pool_inv, SeedPool.create.
  cbn [SeedPool.procs SeedPool.tiles_queue SeedPool.main SeedPool.history].
  split; [apply repeat_length|].
  split.
  { apply Forall_forall. intros p Hp. apply repeat_spec in Hp. subst p.
    split; [constructor | reflexivity]. }
  split; [cbn; unfold SeedPool.capacity; lia|].
  exists []. split; [reflexivity|]. split; [reflexivity|].
  intros k [].
Qed.

Lemma pool_inv_reachable (size : nat) (items : list (string * batch grid))
    (w : world) (s : SeedPool.pool grid) :
  reachable (SeedPool.create size items w) s ->
  pool_inv grid dry_run size (SeedPool.program size items) s.
Proof.
  induction 1 as [|s s' _ IH Hstep].
  - apply pool_inv_create.
  - eapply pool_inv_step; eassumption.
Qed.

Lemma proc_ok_sentinels (p : SeedPool.proc grid) :
  proc_ok grid dry_run p ->
  match SeedPool.state p with
  | SeedPool.Alive =>
      SeedPool.taken p = SeedPool.completed p /\
      sentinels (SeedPool.taken p) = 0%nat
  | SeedPool.ExitedNormally =>
      sentinels (SeedPool.taken p) = 1%nat /\
      exists x, SeedPool.taken p = SeedPool.completed p ++ [x] /\
                tiles_is_None x = true /\
                real_items grid (SeedPool.completed p)
  | SeedPool.ExitedWithError e =>
      dry_run = false /\ sentinels (SeedPool.taken p) = 0%nat
  end.
Proof.
  intros [Hreal Hp]. destruct (SeedPool.state p).
  - split; [exact Hp|]. rewrite Hp. apply sentinels_real. exact Hreal.
  - destruct Hp as [x [Htaken Hx]]. split.
    + rewrite Htaken, sentinels_app, (sentinels_real _ Hreal).
      unfold sentinels. cbn [filter]. rewrite Hx. reflexivity.
    + exists x. repeat split; assumption.
  - destruct Hp as [Hdry [x [Htaken Hx]]]. split; [exact Hdry|].
    rewrite Htaken, sentinels_app, (sentinels_real _ Hreal).
    unfold sentinels. cbn [filter]. rewrite Hx. reflexivity.
Qed.

End PoolFacts.

(** C9, as stated, fails: a worker whose [load_tile_coords] raises an
    exception that is not retried is ended by it; it has then taken no
    sentinel.  [stop()] still returns: the sentinel it put stays in the
    queue. *)
Lemma worker_exits_without_sentinel :
  exists s p,
    SeedPool.reachable Fixture.quad_grid (Fixture.load_raises Fixture.Broken)
      false
      (SeedPool.create (grid := Fixture.quad_grid) 1
                       [("0"%string, [Some (0, 0, 0)])] 0%nat) s /\
    SeedPool.stopped s /\
    SeedPool.procs s = [p] /\
    SeedPool.state p = SeedPool.ExitedWithError Fixture.Broken /\
    sentinels (SeedPool.taken p) = 0%nat /\
    SeedPool.tiles_queue s = [sentinel Fixture.quad_grid].
Proof.
  eexists _, _. split.
  - eapply SeedPool.reach_step.
    + eapply SeedPool.reach_step.
      * eapply SeedPool.reach_step.
        -- eapply SeedPool.reach_step; [apply SeedPool.reach_start|].
           unfold SeedPool.create, SeedPool.program. cbn.
           apply SeedPool.step_put. cbn. unfold SeedPool.capacity. lia.
        -- cbn. eapply (SeedPool.step_get _ _ _ 0%nat); reflexivity.
      * cbn. apply SeedPool.step_put. cbn. unfold SeedPool.capacity. lia.
    + cbn. eapply (SeedPool.step_join _ _ _ 0%nat); reflexivity.
  - cbn. repeat split; reflexivity.
Qed.

(** C9, amended.  The items are put in the order of the program: the work
    items of the traversal, then exactly one sentinel for each of the
    [size] workers; the queue never holds more than its capacity.  A worker
    that returned from [run] took exactly one sentinel, took it last, and
    completed the turn of every work item it took before; in a dry run a
    worker ends in no other way.  A worker that an exception ended, which
    can happen outside a dry run only, took no sentinel.  When [stop()] has
    returned, all [size] sentinels have been put after all work items and
    no worker is alive. *)
Theorem pool_discipline {RT : Runtime} (grid : MetaGrid)
    (load_tile_coords : batch grid -> world -> result exn unit * world)
    (dry_run : bool) (size : nat) (items : list (string * batch grid))
    (w : world) (s : SeedPool.pool grid) :
  SeedPool.reachable grid load_tile_coords dry_run
                     (SeedPool.create size items w) s ->
  SeedPool.history s ++ SeedPool.puts_left s
    = map (fun item => work_item grid (fst item) (snd item)) items
      ++ repeat (sentinel grid) size /\
  (List.length (SeedPool.tiles_queue s) <= SeedPool.capacity)%nat /\
  List.length (SeedPool.procs s) = size /\
  (forall p, In p (SeedPool.procs s) ->
     match SeedPool.state p with
     | SeedPool.Alive =>
         SeedPool.taken p = SeedPool.completed p /\
         sentinels (SeedPool.taken p) = 0%nat
     | SeedPool.ExitedNormally =>
         sentinels (SeedPool.taken p) = 1%nat /\
         exists x, SeedPool.taken p = SeedPool.completed p ++ [x] /\
                   tiles_is_None x = true /\
                   real_items grid (SeedPool.completed p)
     | SeedPool.ExitedWithError e =>
         dry_run = false /\ sentinels (SeedPool.taken p) = 0%nat
     end) /\
  (SeedPool.stopped s ->
     SeedPool.history s
       = map (fun item => work_item grid (fst item) (snd item)) items
         ++ repeat (sentinel grid) size /\
     Forall (fun p => SeedPool.is_alive p = false) (SeedPool.procs s)).
Proof.
  intros Hreach.
  destruct (pool_inv_reachable grid load_tile_coords dry_run size items w s Hreach)
    as [Hlen [Hok [Hcap [done [Hprog [Hhist Hjoin]]]]]].
  assert (Hputs : SeedPool.history s ++ SeedPool.puts_left s
            = map (fun item => work_item grid (fst item) (snd item)) items
              ++ repeat (sentinel grid) size).
  { rewrite <- puts_of_program, Hprog, puts_of_app, Hhist. reflexivity. }
  split; [exact Hputs|]. split; [exact Hcap|]. split; [exact Hlen|].
  split.
  - intros p Hp. apply proc_ok_sentinels.
    eapply Forall_forall; [exact Hok | exact Hp].
  - intros Hstop. unfold SeedPool.stopped in Hstop.
    split.
    + unfold SeedPool.puts_left in Hputs. rewrite Hstop in Hputs.
      cbn in Hputs. rewrite app_nil_r in Hputs. exact Hputs.
    + rewrite Hstop, app_nil_r in Hprog.
      apply Forall_forall. intros p Hp.
      destruct (In_nth_error _ _ Hp) as [k Hk].
      assert (Hlt : (k < size)%nat).
      { rewrite <- Hlen. apply nth_error_Some. congruence. }
      destruct (Hjoin k) as [p' [Hk' Hdead]].
      { rewrite <- Hprog. unfold SeedPool.program, SeedPool.stop.
        apply in_or_app. right. apply in_or_app. right.
        apply in_map. apply in_seq. lia. }
      rewrite Hk in Hk'. injection Hk' as <-. exact Hdead.
Qed.

(** The theorem at the pool of one worker that has loaded the first of two
    work items. *)
Lemma pool_discipline_witness :
  SeedPool.history Fixture.after_first_item
    ++ SeedPool.puts_left Fixture.after_first_item
    = map (fun item => work_item Fixture.quad_grid (fst item) (snd item))
          Fixture.two_items
      ++ repeat (sentinel Fixture.quad_grid) 1 /\
  (List.length (SeedPool.tiles_queue Fixture.after_first_item)
   <= SeedPool.capacity)%nat /\
  List.length (SeedPool.procs Fixture.after_first_item) = 1%nat /\
  (forall p, In p (SeedPool.procs Fixture.after_first_item) ->
     match SeedPool.state p with
     | SeedPool.Alive =>
         SeedPool.taken p = SeedPool.completed p /\
         sentinels (SeedPool.taken p) = 0%nat
     | SeedPool.ExitedNormally =>
         sentinels (SeedPool.taken p) = 1%nat /\
         exists x, SeedPool.taken p = SeedPool.completed p ++ [x] /\
                   tiles_is_None x = true /\
                   real_items Fixture.quad_grid (SeedPool.completed p)
     | SeedPool.ExitedWithError e =>
         false = false /\ sentinels (SeedPool.taken p) = 0%nat
     end) /\
  (SeedPool.stopped Fixture.after_first_item ->
     SeedPool.history Fixture.after_first_item
       = map (fun item => work_item Fixture.quad_grid (fst item) (snd item))
             Fixture.two_items
         ++ repeat (sentinel Fixture.quad_grid) 1 /\
     Forall (fun p => SeedPool.is_alive p = false)
            (SeedPool.procs Fixture.after_first_item)).
Proof.
  apply (@pool_discipline Fixture.runtime Fixture.quad_grid Fixture.loads false
           1%nat Fixture.two_items 0%nat Fixture.after_first_item).
  eapply SeedPool.reach_step.
  - eapply SeedPool.reach_step.
    + eapply SeedPool.reach_step; [apply SeedPool.reach_start|].
      unfold SeedPool.create, SeedPool.program. cbn.
      apply SeedPool.step_put. cbn. unfold SeedPool.capacity. lia.
    + cbn. apply SeedPool.step_put. cbn. unfold SeedPool.capacity. lia.
  - exact (SeedPool.step_get Fixture.quad_grid Fixture.loads false 0%nat
             (SeedPool.started Fixture.quad_grid)
             Fixture.first_item [Fixture.second_item]
             [SeedPool.started Fixture.quad_grid]
             (SeedPool.stop Fixture.quad_grid 1) 0%nat
             [Fixture.first_item; Fixture.second_item]
             SeedWorker.Continues 1%nat
             [SeedWorker.Announced (Some "."%string);
              SeedWorker.Loading (grid := Fixture.quad_grid)
                                 [Some (0, 0, 1)] (Called (Ok tt))]
             eq_refl eq_refl eq_refl).
Defined.

(** C5: an exception of [func] that the [except] clause does not catch
    ends [exp_backoff] at once: nothing follows the call that raised it,
    no sleep and no further call, and it is what [exp_backoff] raises.  The
    worker calls [exp_backoff] with the classes [TileSourceError] and
    [IOError]: an exception of [load_tile_coords] that is an instance of
    neither leaves [run] after that one call, and one that is an instance
    of either is followed by a sleep of two seconds and a second call. *)
Theorem exp_backoff_unrecoverable {RT : Runtime} (grid : MetaGrid)
    (load_tile_coords : batch grid -> world -> result exn unit * world) :
  (forall (R : Type) (func : world -> result exn R * world)
          (max_repeat start_backoff_sec : Z) (exceptions : list exc_class)
          (w : world),
     exists r w' evs,
       exp_backoff func max_repeat start_backoff_sec exceptions w
         = Some (r, w', evs) /\
       forall pre e post,
         evs = pre ++ Called (Raised e) :: post ->
         caught exceptions e = false ->
         post = [] /\ r = Raised e) /\
  (forall seed_id tiles w w1 e,
     load_tile_coords tiles w = (Raised e, w1) ->
     isinstance e TileSourceError = false ->
     isinstance e IOError = false ->
     SeedWorker.turn grid load_tile_coords false (seed_id, Some tiles) w
     = Some (SeedWorker.Propagates e, w1,
             [SeedWorker.Announced seed_id;
              SeedWorker.Loading tiles (Called (Raised e))])) /\
  (forall seed_id tiles w w1 e,
     load_tile_coords tiles w = (Raised e, w1) ->
     isinstance e TileSourceError || isinstance e IOError = true ->
     exists r w' o rest,
       SeedWorker.turn grid load_tile_coords false (seed_id, Some tiles) w
       = Some (r, w',
               SeedWorker.Announced seed_id
                 :: SeedWorker.Loading tiles (Called (Raised e))
                 :: SeedWorker.Loading tiles (Printed 2 e)
                 :: SeedWorker.Loading tiles (Slept 2)
                 :: SeedWorker.Loading tiles (Called o)
                 :: rest)).
Proof.
  split; [|split].
  - intros R func max_repeat start_backoff_sec exceptions w.
    destruct (exp_backoff_runs R func max_repeat start_backoff_sec exceptions w)
      as [r [w' [evs [Heq Hrun]]]].
    exists r, w', evs. split; [exact Heq|].
    apply (run_unrecoverable_is_last _ _ _ _ _ _ _ _ _ _ Hrun).
  - intros seed_id tiles w w1 e. apply turn_unrecoverable.
  - intros seed_id tiles w w1 e. apply turn_recoverable.
Qed.

(** The theorem for a callee that raises neither a [TileSourceError] nor
    an [IOError], and for one that raises an [IOError]. *)
Lemma exp_backoff_unrecoverable_witness :
  (exists r w' evs,
     exp_backoff (Fixture.always_raises Fixture.Broken) 10 2
                 [Fixture.Upstream; Fixture.Disk] 0%nat
       = Some (r, w', evs) /\
     forall pre e post,
       evs = pre ++ Called (Raised e) :: post ->
       caught [Fixture.Upstream; Fixture.Disk] e = false ->
       post = [] /\ r = Raised e) /\
  SeedWorker.turn Fixture.quad_grid (Fixture.load_raises Fixture.Broken) false
                  (Some "0"%string, Some Fixture.one_tile) 0%nat
  = Some (SeedWorker.Propagates Fixture.Broken, 1%nat,
          [SeedWorker.Announced (Some "0"%string);
           SeedWorker.Loading Fixture.one_tile (Called (Raised Fixture.Broken))]) /\
  exists r w' o rest,
    SeedWorker.turn Fixture.quad_grid (Fixture.load_raises Fixture.Disk) false
                    (Some "0"%string, Some Fixture.one_tile) 0%nat
    = Some (r, w',
            SeedWorker.Announced (Some "0"%string)
              :: SeedWorker.Loading Fixture.one_tile (Called (Raised Fixture.Disk))
              :: SeedWorker.Loading Fixture.one_tile (Printed 2 Fixture.Disk)
              :: SeedWorker.Loading Fixture.one_tile (Slept 2)
              :: SeedWorker.Loading Fixture.one_tile (Called o)
              :: rest).
Proof.
  split; [|split].
  - apply (proj1 (@exp_backoff_unrecoverable Fixture.runtime Fixture.quad_grid
                    (Fixture.load_raises Fixture.Broken))).
  - apply (proj1 (proj2 (@exp_backoff_unrecoverable Fixture.runtime
                           Fixture.quad_grid
                           (Fixture.load_raises Fixture.Broken)))
             (Some "0"%string) Fixture.one_tile 0%nat 1%nat Fixture.Broken);
      reflexivity.
  - apply (proj2 (proj2 (@exp_backoff_unrecoverable Fixture.runtime
                           Fixture.quad_grid
                           (Fixture.load_raises Fixture.Disk)))
             (Some "0"%string) Fixture.one_tile 0%nat 1%nat Fixture.Disk);
      reflexivity.
Defined.

(** C1, as stated, fails: for the target [(0, 0, 1, 1)] and the levels 0
    to 1 the run submits the four tiles of level 1, among them [(1, 1, 1)],
    whose box neither lies in the target nor intersects it. *)
Lemma seed_emits_disjoint_tile :
  Fixture.tiles_of_run (0, 0, 1, 1) (0, 1)
    = Some [(0, 0, 1); (1, 0, 1); (0, 1, 1); (1, 1, 1); (0, 0, 0)] /\
  bbox_intersects Fixture.quad_grid (0, 0, 1, 1)
                  (meta_bbox Fixture.quad_grid (1, 1, 1)) = false /\
  intersects Fixture.quad_grid (0, 0, 1, 1)
             (meta_bbox Fixture.quad_grid (1, 1, 1)) = 0.
Proof. repeat split; vm_compute; reflexivity. Qed.

(** C8, as stated, fails: for a target that reaches beyond the grid the
    batch of the run holds a placeholder, and the worker that takes the
    batch passes it to [load_tile_coords] with the placeholder in it. *)
Lemma worker_loads_placeholder :
  Fixture.batches_of_run (-1, 0, 1, 1) (0, 0)
    = Some [(""%string, Fixture.with_placeholder)] /\
  Fixture.loaded_by_worker
    [work_item Fixture.quad_grid "" Fixture.with_placeholder;
     sentinel Fixture.quad_grid]
    = Some [Fixture.with_placeholder] /\
  In None Fixture.with_placeholder.
Proof.
  split; [vm_compute; reflexivity|].
  split; [vm_compute; reflexivity | left; reflexivity].
Qed.

(** C8, amended: the traversal never descends into a placeholder, since
    the first loop gives the same [sub_seeds] and makes the same calls with
    and without the placeholders of the tile list.  The batch a frame
    submits is the tile list as the grid returned it, placeholders
    included, and outside a dry run the worker passes the tile list of the
    item it took to [load_tile_coords] as it is. *)
Theorem placeholders_forwarded {RT : Runtime} (grid : MetaGrid)
    (target : bbox grid)
    (load_tile_coords : batch grid -> world -> result exn unit * world) :
  (forall full_intersect subtiles,
     collect_sub_seeds grid target full_intersect subtiles
     = collect_sub_seeds grid target full_intersect
                         (map Some (present subtiles))) /\
  (forall cutoff cur_bbox level max_level id full_intersect,
     exists before,
       frame_run grid target cutoff cur_bbox level max_level id full_intersect
         (before ++ [EvSubmit id (subtiles_of grid cur_bbox level)])) /\
  (forall seed_id tiles w,
     exists r w' evs,
       SeedWorker.turn grid load_tile_coords false (seed_id, Some tiles) w
       = Some (r, w', evs) /\
       SeedWorker.loaded evs <> [] /\
       Forall (eq tiles) (SeedWorker.loaded evs)).
Proof.
  split; [|split].
  - apply collect_sub_seeds_placeholders.
  - apply seed_submits_tile_list.
  - apply turn_forwards_tiles.
Qed.

(** * Part III: further properties of the module *)

(** ** [exp_backoff]: the sleeps, and the bounds of its arguments *)

(** The shape of a run: rounds of a failed call, its message and its
    sleep, then either the last call or a failed call whose sleep was
    refused. *)
Lemma run_rounds {RT : Runtime} (R : Type)
    (func : world -> result exn R * world) (max_repeat start_backoff_sec : Z)
    (exceptions : list exc_class) n w evs r w' :
  backoff_run func max_repeat start_backoff_sec exceptions n w evs r w' ->
  exists failed last,
    evs = retry_rounds start_backoff_sec n failed ++ last /\
    Forall (recoverable_failure exceptions) failed /\
    (last = [Called r] \/
     exists e,
       last = [Called (Raised e);
               Printed (start_backoff_sec
                        * 2 ^ (n + Z.of_nat (List.length failed))) e] /\
       r = Raised sleep_error).
Proof.
  induction 1 as [n w v w1 Hv | n w e w1 He Hc | n w e w1 He Hc Hmax
                 | n w e w1 He Hc Hmax Hneg
                 | n w e w1 evs r w2 He Hc Hmax Hpos Hrun IH].
  - exists [], [Called (Ok v)]. repeat split; [constructor | now left].
  - exists [], [Called (Raised e)]. repeat split; [constructor | now left].
  - exists [], [Called (Raised e)]. repeat split; [constructor | now left].
  - exists [], [Called (Raised e); Printed (start_backoff_sec * 2 ^ n) e].
    repeat split; [constructor|]. right. exists e.
    cbn [List.length]. rewrite Z.add_0_r. split; reflexivity.
  - destruct IH as [failed [last [Hevs [Hfailed Hlast]]]].
    exists (Raised e :: failed), last. split; [|split].
    + rewrite Hevs. reflexivity.
    + constructor; [|exact Hfailed]. exists e. split; [reflexivity | exact Hc].
    + destruct Hlast as [Hlast | [e' [Hlast Hr]]]; [now left|].
      right. exists e'. split; [|exact Hr]. rewrite Hlast.
      cbn [List.length].
      replace (n + Z.of_nat (S (List.length failed)))
        with (n + 1 + Z.of_nat (List.length failed)) by lia.
      reflexivity.
Qed.

(** X1: whatever the callee and the arguments, [exp_backoff] ends, and its
    run is a run of [func]: every call is [func] in the world that the call
    before it and its sleep left.  The run is a sequence of rounds, each a
    call that failed with a caught exception, its message and one sleep,
    followed by the last call, or by a failed call and its message when
    [time.sleep] refused the duration: there is exactly one sleep between
    two consecutive calls and none elsewhere.  After [c] calls it has
    slept [start_backoff_sec * (2^(c-1) - 1)] seconds in all. *)
Theorem exp_backoff_sleep_total {RT : Runtime} (R : Type)
    (func : world -> result exn R * world) (max_repeat start_backoff_sec : Z)
    (exceptions : list exc_class) (w : world) :
  exists r w' evs,
    exp_backoff func max_repeat start_backoff_sec exceptions w
      = Some (r, w', evs) /\
    backoff_run func max_repeat start_backoff_sec exceptions 0 w evs r w' /\
    (exists failed last,
       evs = retry_rounds start_backoff_sec 0 failed ++ last /\
       Forall (recoverable_failure exceptions) failed /\
       (last = [Called r] \/
        exists e,
          last = [Called (Raised e);
                  Printed (start_backoff_sec
                           * 2 ^ (0 + Z.of_nat (List.length failed))) e] /\
          r = Raised sleep_error)) /\
    List.length (sleeps evs) = (List.length (calls evs) - 1)%nat /\
    total_sleep evs
    = start_backoff_sec * (2 ^ (Z.of_nat (List.length (calls evs)) - 1) - 1).
Proof.
  destruct (exp_backoff_runs R func max_repeat start_backoff_sec exceptions w)
    as [r [w' [evs [Heq Hrun]]]].
  exists r, w', evs. split; [exact Heq|].
  split; [exact Hrun|].
  split; [exact (run_rounds _ _ _ _ _ _ _ _ _ _ Hrun)|].
  split.
  - rewrite (run_sleeps _ _ _ _ _ _ _ _ _ _ (Z.le_refl 0) Hrun).
    rewrite length_map, length_seq. reflexivity.
  - rewrite (run_total_sleep _ _ _ _ _ _ _ _ _ _ (Z.le_refl 0) Hrun).
    reflexivity.
Qed.

(** X2: with [max_repeat <= 1], zero and negative values included,
    [exp_backoff] calls [func] exactly once and passes its outcome on,
    with no message and no sleep. *)
Theorem exp_backoff_single_attempt {RT : Runtime} (R : Type)
    (func : world -> result exn R * world) (max_repeat start_backoff_sec : Z)
    (exceptions : list exc_class) (w : world) :
  max_repeat <= 1 ->
  exp_backoff func max_repeat start_backoff_sec exceptions w
  = Some (fst (func w), snd (func w), [Called (fst (func w))]).
Proof.
  intros Hmax. unfold exp_backoff.
  replace (Z.to_nat (Z.max 1 max_repeat)) with 1%nat by lia.
  cbn [exp_backoff_loop].
  destruct (func w) as [[v|e] w1]; cbn [fst snd]; [reflexivity|].
  destruct (caught exceptions e); [|reflexivity].
  assert (Hge : (0 + 1 >=? max_repeat) = true)
    by (rewrite Z.geb_leb; apply Z.leb_le; lia).
  rewrite Hge. reflexivity.
Qed.

(** The theorem at [max_repeat = 0], for a callee that always raises a
    [TileSourceError]. *)
Lemma exp_backoff_single_attempt_witness :
  exp_backoff (Fixture.always_raises Fixture.Upstream) 0 2
              [Fixture.Upstream; Fixture.Disk] 0%nat
  = Some (fst (Fixture.always_raises Fixture.Upstream 0%nat),
          snd (Fixture.always_raises Fixture.Upstream 0%nat),
          [Called (fst (Fixture.always_raises Fixture.Upstream 0%nat))]).
Proof.
  apply (@exp_backoff_single_attempt Fixture.runtime unit
           (Fixture.always_raises Fixture.Upstream) 0 2
           [Fixture.Upstream; Fixture.Disk] 0%nat).
  lia.
Defined.

(** X3: with a negative [start_backoff_sec] and [max_repeat >= 2], a first
    call that fails with a caught exception is not retried: the message is
    printed, [time.sleep] refuses the negative duration, and its error is
    what [exp_backoff] raises, in place of the exception of [func]. *)
Theorem exp_backoff_negative_start {RT : Runtime} (R : Type)
    (func : world -> result exn R * world) (max_repeat start_backoff_sec : Z)
    (exceptions : list exc_class) (w w1 : world) (e : exn) :
  start_backoff_sec < 0 ->
  2 <= max_repeat ->
  func w = (Raised e, w1) ->
  caught exceptions e = true ->
  exp_backoff func max_repeat start_backoff_sec exceptions w
  = Some (Raised sleep_error, w1,
          [Called (Raised e); Printed start_backoff_sec e]).
Proof.
  intros Hneg Hmax Hf Hc. unfold exp_backoff.
  destruct (Z.to_nat (Z.max 1 max_repeat)) as [|fuel] eqn:Hfuel; [lia|].
  cbn [exp_backoff_loop]. rewrite Hf, Hc.
  assert (Hge : (0 + 1 >=? max_repeat) = false)
    by (rewrite Z.geb_leb; apply Z.leb_gt; lia).
  rewrite Hge. unfold time_sleep.
  change (2 ^ 0) with 1. rewrite Z.mul_1_r.
  assert (Hlt : (start_backoff_sec <? 0) = true) by (apply Z.ltb_lt; lia).
  rewrite Hlt. reflexivity.
Qed.

(** The theorem at [start_backoff_sec = -1] and [max_repeat = 10]. *)
Lemma exp_backoff_negative_start_witness :
  exp_backoff (Fixture.always_raises Fixture.Upstream) 10 (-1)
              [Fixture.Upstream; Fixture.Disk] 0%nat
  = Some (Raised (sleep_error (Runtime := Fixture.runtime)), 1%nat,
          [Called (Raised Fixture.Upstream); Printed (-1) Fixture.Upstream]).
Proof.
  apply (@exp_backoff_negative_start Fixture.runtime unit
           (Fixture.always_raises Fixture.Upstream) 10 (-1)
           [Fixture.Upstream; Fixture.Disk] 0%nat 1%nat Fixture.Upstream);
    try lia; reflexivity.
Defined.
(** ** [status_symbol]: the siblings, and the indices below them *)

(** X4: among the siblings the symbols never go back, whatever the
    roundings: for [0 <= i <= j < total], [total] a float, the index of
    [i] in [' .oO0'] is at most the index of [j], both indices lying
    between 1 and 4.  For [total] up to [2^50] the index of [i] is the
    integer [(4 * (i + 1) + total - 1) div total], the ceiling of the exact
    quotient. *)
Theorem status_symbol_monotone (i j total : Z) :
  0 <= i -> i <= j -> j < total -> total <= Float64.max_int ->
  exists k k',
    status_index_b64 (i + 1) total = Ok k /\
    status_index_b64 (j + 1) total = Ok k' /\
    status_symbol_b64 i total = getitem symbols k /\
    status_symbol_b64 j total = getitem symbols k' /\
    1 <= k /\ k <= k' /\ k' <= 4 /\
    (total <= 2 ^ 50 ->
     k = (4 * (i + 1) + total - 1) / total /\
     k' = (4 * (j + 1) + total - 1) / total).
Proof.
  intros Hi Hij Hj Ht.
  destruct (status_index_b64_sibling (i + 1) total ltac:(lia) Ht) as [Hk Hkb].
  destruct (status_index_b64_sibling (j + 1) total ltac:(lia) Ht) as [Hk' Hkb'].
  eexists _, _. split; [exact Hk|]. split; [exact Hk'|].
  split; [rewrite status_symbol_b64_sibling, Hk by lia; reflexivity|].
  split; [rewrite status_symbol_b64_sibling, Hk' by lia; reflexivity|].
  split; [lia|].
  split; [apply ratio_mono; lia|].
  split; [lia|].
  intros H50.
  pose proof (status_index_b64_exact (i + 1) total ltac:(lia) H50) as Ei.
  pose proof (status_index_b64_exact (j + 1) total ltac:(lia) H50) as Ej.
  rewrite Hk in Ei. rewrite Hk' in Ej.
  injection Ei as Ei. injection Ej as Ej. split; assumption.
Qed.

(** The theorem for the third and the seventh of ten siblings. *)
Lemma status_symbol_monotone_witness :
  exists k k',
    status_index_b64 (2 + 1) 10 = Ok k /\
    status_index_b64 (6 + 1) 10 = Ok k' /\
    status_symbol_b64 2 10 = getitem symbols k /\
    status_symbol_b64 6 10 = getitem symbols k' /\
    1 <= k /\ k <= k' /\ k' <= 4 /\
    (10 <= 2 ^ 50 ->
     k = (4 * (2 + 1) + 10 - 1) / 10 /\
     k' = (4 * (6 + 1) + 10 - 1) / 10).
Proof.
  apply (status_symbol_monotone 2 6 10); try lia.
  unfold Float64.max_int. lia.
Defined.

(** X5: the last of [total] siblings always gets ['0'], for every [total]
    that is a float; the first gets ['.'] as soon as there are four
    siblings; and a sibling never gets the overflow mark ['X'] or the
    blank, and its call never raises. *)
Theorem status_symbol_siblings (total : Z) :
  1 <= total <= Float64.max_int ->
  status_symbol_b64 (total - 1) total = Ok "0"%char /\
  (4 <= total -> status_symbol_b64 0 total = Ok "."%char) /\
  (forall i, 0 <= i < total ->
     exists c, status_symbol_b64 i total = Ok c /\
               In c ["."; "o"; "O"; "0"]%char).
Proof.
  intros Ht. split; [|split].
  - rewrite status_symbol_b64_sibling by lia.
    replace (total - 1 + 1) with total by lia.
    destruct (status_index_b64_sibling total total ltac:(lia) ltac:(lia))
      as [Hk _].
    rewrite Hk, ratio_last by lia. reflexivity.
  - intros H4. rewrite status_symbol_b64_sibling by lia.
    destruct (status_index_b64_sibling (0 + 1) total ltac:(lia) ltac:(lia))
      as [Hk _].
    rewrite Hk. change (0 + 1) with 1. rewrite ratio_first by lia. reflexivity.
  - intros i Hi.
    destruct (status_symbol_b64_inside i total Hi ltac:(lia)) as [k [c H]].
    exists c. split; apply H.
Qed.

(** The theorem for seven siblings. *)
Lemma status_symbol_siblings_witness :
  status_symbol_b64 (7 - 1) 7 = Ok "0"%char /\
  (4 <= 7 -> status_symbol_b64 0 7 = Ok "."%char) /\
  (forall i, 0 <= i < 7 ->
     exists c, status_symbol_b64 i 7 = Ok c /\
               In c ["."; "o"; "O"; "0"]%char).
Proof.
  apply (status_symbol_siblings 7). unfold Float64.max_int. lia.
Defined.

(** X6: below the first sibling.  For every [total >= 1] that is a float
    the index [-1] gives the blank, the entry 0 of the table; and for
    [total] up to [2^50] an index from [-2^53] on that is so far below
    that [4 * (i + 1) <= -6 * total] leaves the table on the negative side
    and raises [IndexError]. *)
Theorem status_symbol_negative_index (total : Z) :
  1 <= total <= Float64.max_int ->
  status_symbol_b64 (-1) total = Ok " "%char /\
  (total <= 2 ^ 50 ->
   forall i, - 2 ^ 53 <= i + 1 -> 4 * (i + 1) <= - 6 * total ->
     status_symbol_b64 i total = Raised IndexError).
Proof.
  intros Ht. split.
  - rewrite status_symbol_b64_below by lia.
    change (-1 + 1) with 0. rewrite status_index_b64_zero by lia. reflexivity.
  - intros H50 i Hlow Hi.
    rewrite status_symbol_b64_exact by lia.
    rewrite status_symbol_integer_below by lia.
    apply getitem_symbols_below.
    assert ((4 * (i + 1) + total - 1) / total < -5); [|lia].
    apply Z.div_lt_upper_bound; lia.
Qed.

(** The theorem for three siblings. *)
Lemma status_symbol_negative_index_witness :
  status_symbol_b64 (-1) 3 = Ok " "%char /\
  (3 <= 2 ^ 50 ->
   forall i, - 2 ^ 53 <= i + 1 -> 4 * (i + 1) <= - 6 * 3 ->
     status_symbol_b64 i 3 = Raised IndexError).
Proof.
  apply (status_symbol_negative_index 3). unfold Float64.max_int. lia.
Defined.

(** X25: where the roundings are not felt.  For every sibling count
    [total] from 1 to [2^50] and every index [i >= -2^53 - 1],
    [status_symbol] as Python computes it, in binary64, returns what the
    exact quotient gives: the same symbol, or the same exception. *)
Theorem status_symbol_rounding_exact (i total : Z) :
  1 <= total <= 2 ^ 50 -> - 2 ^ 53 <= i + 1 ->
  status_symbol_b64 i total = status_symbol i total.
Proof. intros Ht Hi. apply status_symbol_b64_exact; assumption. Qed.

(** The theorem for the third of ten siblings. *)
Lemma status_symbol_rounding_exact_witness :
  status_symbol_b64 2 10 = status_symbol 2 10.
Proof. apply (status_symbol_rounding_exact 2 10); lia. Defined.

(** Beyond [2^50] the roundings are felt: with [2^54 + 3] siblings the one
    of index [2^52] gets ['.'] where the exact quotient gives ['o']; and
    [10^400] siblings cannot be counted in a float. *)
Example status_symbol_rounding_felt :
  status_symbol_b64 (2 ^ 52) (2 ^ 54 + 3) = Ok "."%char /\
  status_symbol (2 ^ 52) (2 ^ 54 + 3) = Ok "o"%char /\
  status_symbol_b64 0 (10 ^ 400) = Raised OverflowError /\
  status_symbol_b64 0 (2 ^ 1024) = Ok "."%char.
Proof. repeat split; vm_compute; reflexivity. Qed.

(** ** The traversal: levels, ids and counts over a whole run *)

Section MoreTraversalFacts.

Variable grid : MetaGrid.
Variable target : bbox grid.

Local Abbreviation seed_event := (seed_event grid).

Lemma Forall2_with_left {A B} (P : A -> Prop) (R : A -> B -> Prop)
    (l : list A) (l' : list B) :
  Forall P l -> Forall2 R l l' -> Forall2 (fun a b => P a /\ R a b) l l'.
Proof.
  intros HP HR. induction HR as [|a b l l' Hab _ IH].
  - constructor.
  - inversion HP; subst. constructor; [split; assumption | apply IH; assumption].
Qed.

(** Induction over the frames of a run: what holds of the run of a frame
    whenever it holds of the runs of its child frames holds of every
    run. *)
Lemma frame_run_induct (cutoff max_level : Z)
    (Q : bbox grid -> Z -> string -> bool -> list seed_event -> Prop) :
  (forall cur_bbox level id full_intersect children,
     let sub_seeds :=
       fst (collect_sub_seeds grid target full_intersect
                              (subtiles_of grid cur_bbox level)) in
     (if level <? max_level then
        Forall2 (fun ic tr =>
                   exists c,
                     status_symbol (fst ic) (Z.of_nat (List.length sub_seeds))
                       = Ok c /\
                     0 <= fst ic < Z.of_nat (List.length sub_seeds) /\
                     Q (fst (snd ic)) (level + 1)
                       (String.append id (String c EmptyString))
                       (snd (snd ic) =? -1) tr)
                (enumerate sub_seeds) children
      else children = []) ->
     Q cur_bbox level id full_intersect
       (frame_head grid target cutoff cur_bbox level max_level id full_intersect
        ++ List.concat children
        ++ [EvSubmit id (subtiles_of grid cur_bbox level)])) ->
  forall cur_bbox level id full_intersect,
  exists tr,
    frame_run grid target cutoff cur_bbox level max_level id full_intersect tr /\
    Q cur_bbox level id full_intersect tr.
Proof.
  intros Hstep cur_bbox level.
  remember (Z.to_nat (max_level - level)) as n eqn:Hn.
  revert cur_bbox level Hn.
  induction n as [|n IH]; intros cur_bbox level Hn id full_intersect;
    destruct (seed_frame grid target cutoff cur_bbox level max_level id
                         full_intersect) as [children [Hrun Hch]];
    (eexists; split; [exact Hrun|]); apply Hstep.
  - assert (Hlt : (level <? max_level) = false) by (apply Z.ltb_ge; lia).
    rewrite Hlt in *. exact Hch.
  - assert (Hlt : (level <? max_level) = true) by (apply Z.ltb_lt; lia).
    rewrite Hlt in *. cbn zeta in Hch.
    apply (Forall2_with_left _ _ _ _ (enumerate_bounds _)) in Hch.
    eapply Forall2_impl; [|exact Hch].
    intros ic tr [Hb [c [Hc Hr]]]. exists c. split; [exact Hc|].
    split; [exact Hb|].
    destruct (IH (fst (snd ic)) (level + 1) ltac:(lia)
                 (String.append id (String c EmptyString))
                 (snd (snd ic) =? -1)) as [tr' [Hrun' HQ]].
    rewrite (frame_run_functional grid target _ _ _ _ _ _ _ _ Hr Hrun').
    exact HQ.
Qed.

Lemma frame_head_levels cutoff cur_bbox level max_level id full_intersect :
  Forall (event_level_in level (Z.max level max_level))
         (frame_head grid target cutoff cur_bbox level max_level id
                     full_intersect).
Proof.
  unfold frame_head. constructor; [cbn; lia|].
  apply Forall_app. split.
  - destruct (level <=? cutoff); repeat constructor; cbn; lia.
  - destruct (level <? max_level); [|constructor].
    rewrite collect_sub_seeds_spec. cbn [snd].
    destruct full_intersect; [constructor|].
    apply Forall_forall. intros ev Hev. apply in_map_iff in Hev.
    destruct Hev as [t [<- _]]. exact I.
Qed.

Lemma frame_levels (cutoff : Z) (cur_bbox : bbox grid)
    (level max_level : Z) (id : string) (full_intersect : bool) :
  exists tr,
    frame_run grid target cutoff cur_bbox level max_level id full_intersect tr /\
    Forall (event_level_in level (Z.max level max_level)) tr.
Proof.
  apply (frame_run_induct cutoff max_level
           (fun _ level _ _ tr =>
              Forall (event_level_in level (Z.max level max_level)) tr)).
  clear. intros cur_bbox level id full_intersect children sub_seeds Hch.
  apply Forall_app. split; [apply frame_head_levels|].
  apply Forall_app. split; [|repeat constructor].
  apply Forall_concat_intro.
  destruct (level <? max_level) eqn:Hlt; [|subst children; constructor].
  apply Z.ltb_lt in Hlt.
  eapply Forall2_right; [exact Hch|].
  intros ic tr _ [c [_ [_ HQ]]].
  eapply Forall_impl; [|exact HQ].
  intros ev Hev. destruct ev; cbn in *; lia.
Qed.

(** X7: the run of a frame at [level] stays between [level] and
    [max_level]: every frame it enters and every progress line it prints
    is at a level from [level] to the larger of [level] and
    [max_level]. *)
Theorem seed_levels_bounded (cutoff : Z) (cur_bbox : bbox grid)
    (level max_level : Z) (id : string) (full_intersect : bool) :
  exists tr,
    frame_run grid target cutoff cur_bbox level max_level id full_intersect tr /\
    Forall (event_level_in level (Z.max level max_level)) tr.
Proof. apply frame_levels. Qed.

Lemma string_append_assoc (s1 s2 s3 : string) :
  String.append (String.append s1 s2) s3
  = String.append s1 (String.append s2 s3).
Proof.
  induction s1 as [|c s1 IH]; [reflexivity|]. cbn. now rewrite IH.
Qed.

Lemma string_append_nil_r (s : string) : String.append s EmptyString = s.
Proof. induction s as [|c s IH]; [reflexivity|]. cbn. now rewrite IH. Qed.

Lemma id_below_root (root : string) (level : Z) : id_below root level root level.
Proof.
  exists []. cbn. rewrite string_append_nil_r.
  repeat split; [lia | constructor].
Qed.

Lemma id_below_child (root : string) (level : Z) (c : ascii)
    (id' : string) (l : Z) :
  In c sibling_symbols ->
  id_below (String.append root (String c EmptyString)) (level + 1) id' l ->
  id_below root level id' l.
Proof.
  intros Hc [s [Hid [Hlen Hs]]]. exists (c :: s). split; [|split].
  - rewrite Hid, string_append_assoc. reflexivity.
  - cbn [List.length]. lia.
  - constructor; assumption.
Qed.

(** X8: the seed ids spell the path.  In the run of a frame with the id
    [id] at [level], the id of a frame entered at level [l] is [id]
    followed by [l - level] symbols, each one of ['.'], ['o'], ['O'] and
    ['0']; the blank and ['X'] never occur, and the call of
    [status_symbol] in the second loop never raises. *)
Theorem seed_ids_spell_path (cutoff : Z) (cur_bbox : bbox grid)
    (level max_level : Z) (id : string) (full_intersect : bool) :
  exists tr,
    frame_run grid target cutoff cur_bbox level max_level id full_intersect tr /\
    Forall (enters_below id level) tr.
Proof.
  apply (frame_run_induct cutoff max_level
           (fun _ level id _ tr => Forall (enters_below id level) tr)).
  clear. intros cur_bbox level id full_intersect children sub_seeds Hch.
  apply Forall_app. split.
  { unfold frame_head. constructor; [apply id_below_root|].
    apply Forall_app. split.
    - destruct (level <=? cutoff); repeat constructor.
    - destruct (level <? max_level); [|constructor].
      rewrite collect_sub_seeds_spec. cbn [snd].
      destruct full_intersect; [constructor|].
      apply Forall_forall. intros ev Hev. apply in_map_iff in Hev.
      destruct Hev as [t [<- _]]. exact I. }
  apply Forall_app. split; [|repeat constructor].
  apply Forall_concat_intro.
  destruct (level <? max_level); [|subst children; constructor].
  eapply Forall2_right; [exact Hch|].
  intros ic tr _ [c [Hc [Hb HQ]]].
  assert (Hin : In c sibling_symbols).
  { destruct (status_symbol_in_siblings (fst ic)
                (Z.of_nat (List.length sub_seeds)) Hb) as [c0 [Hc0 Hin0]].
    rewrite Hc in Hc0. injection Hc0 as <-. exact Hin0. }
  eapply Forall_impl; [|exact HQ].
  intros ev Hev. destruct ev; try exact I.
  cbn [enters_below] in *. eapply id_below_child; eassumption.
Qed.

Lemma entered_ids_app (evs evs' : list seed_event) :
  entered_ids (evs ++ evs') = entered_ids evs ++ entered_ids evs'.
Proof.
  induction evs as [|ev evs IH]; [reflexivity|].
  destruct ev; cbn [app entered_ids]; rewrite IH; reflexivity.
Qed.

Lemma entered_ids_concat (ls : list (list seed_event)) :
  entered_ids (List.concat ls) = flat_map entered_ids ls.
Proof.
  induction ls as [|l ls IH]; [reflexivity|].
  cbn [List.concat flat_map]. rewrite entered_ids_app, IH. reflexivity.
Qed.

Lemma frame_head_entered_ids cutoff cur_bbox level max_level id full_intersect :
  entered_ids (frame_head grid target cutoff cur_bbox level max_level id
                          full_intersect) = [id].
Proof.
  unfold frame_head. cbn [entered_ids]. f_equal.
  rewrite entered_ids_app.
  assert (H1 : entered_ids (if level <=? cutoff
                            then [EvProgress level cur_bbox full_intersect]
                            else []) = [])
    by (destruct (level <=? cutoff); reflexivity).
  rewrite H1. cbn [app].
  destruct (level <? max_level); [|reflexivity].
  rewrite collect_sub_seeds_spec. cbn [snd].
  destruct full_intersect; [reflexivity|].
  induction (present (subtiles_of grid cur_bbox level)) as [|t l IH];
    [reflexivity | exact IH].
Qed.

Lemma Permutation_flat_map_Forall2 {A B C} (f : A -> list C) (g : B -> list C)
    (l : list A) (l' : list B) :
  Forall2 (fun a b => Permutation (f a) (g b)) l l' ->
  Permutation (flat_map f l) (flat_map g l').
Proof.
  induction 1 as [|a b l l' Hab _ IH]; cbn [flat_map].
  - constructor.
  - apply Permutation_app; assumption.
Qed.

Lemma Forall2_same {A} (R : A -> A -> Prop) (l : list A) :
  Forall (fun a => R a a) l -> Forall2 R l l.
Proof. induction 1; constructor; assumption. Qed.

(** X9: every frame that is entered submits exactly one work item, under
    its own id: the ids of the work items of a run are the ids of the
    frames entered, the items in post-order and the frames in
    pre-order. *)
Theorem seed_one_item_per_frame (cutoff : Z) (cur_bbox : bbox grid)
    (level max_level : Z) (id : string) (full_intersect : bool) :
  exists tr,
    frame_run grid target cutoff cur_bbox level max_level id full_intersect tr /\
    Permutation (map fst (submitted tr)) (entered_ids tr) /\
    List.length (submitted tr) = List.length (entered_ids tr).
Proof.
  destruct (frame_run_induct cutoff max_level
              (fun _ _ _ _ tr =>
                 Permutation (map fst (submitted tr)) (entered_ids tr))
              ) with (cur_bbox := cur_bbox) (level := level) (id := id)
                     (full_intersect := full_intersect)
    as [tr [Hrun HP]].
  - clear. intros cur_bbox level id full_intersect children sub_seeds Hch.
    rewrite !submitted_app, submitted_concat, !entered_ids_app,
      entered_ids_concat, frame_head_entered_ids.
    rewrite (submitted_none _ _ (frame_head_no_submit grid target _ _ _ _ _ _)).
    cbn [app submitted entered_ids]. rewrite app_nil_r, map_app.
    cbn [map fst].
    apply Permutation_sym, Permutation_cons_app. rewrite app_nil_r.
    apply Permutation_sym.
    rewrite (flat_map_concat_map submitted), concat_map, map_map.
    rewrite <- (flat_map_concat_map (fun tr => map fst (submitted tr))).
    apply Permutation_flat_map_Forall2. apply Forall2_same.
    destruct (level <? max_level); [|subst children; constructor].
    eapply Forall2_right; [exact Hch|].
    intros ic tr _ [c [_ [_ HQ]]]. exact HQ.
  - exists tr. split; [exact Hrun|]. split; [exact HP|].
    rewrite <- (length_map fst). apply Permutation_length. exact HP.
Qed.

Lemma progress_lines_app (evs evs' : list seed_event) :
  progress_lines (evs ++ evs') = (progress_lines evs + progress_lines evs')%nat.
Proof.
  induction evs as [|ev evs IH]; [reflexivity|].
  destruct ev; cbn [app progress_lines]; rewrite IH; reflexivity.
Qed.

Lemma entered_upto_app (cutoff : Z) (evs evs' : list seed_event) :
  entered_upto cutoff (evs ++ evs')
  = (entered_upto cutoff evs + entered_upto cutoff evs')%nat.
Proof.
  induction evs as [|ev evs IH]; [reflexivity|].
  destruct ev; cbn [app entered_upto]; rewrite IH; try reflexivity.
  destruct (level <=? cutoff); reflexivity.
Qed.

Lemma entered_upto_above (cutoff lo hi : Z) (evs : list seed_event) :
  cutoff < lo -> Forall (event_level_in lo hi) evs ->
  entered_upto cutoff evs = 0%nat.
Proof.
  intros Hc. induction 1 as [|ev evs Hev _ IH]; [reflexivity|].
  destruct ev; cbn [entered_upto]; try exact IH.
  cbn in Hev. assert (E : (level <=? cutoff) = false) by (apply Z.leb_gt; lia).
  rewrite E. exact IH.
Qed.

(** X10: over a whole run, the progress lines are as many as the frames
    entered at a level up to the cutoff; a frame below the cutoff level
    prints nothing, and nothing is printed anywhere under it. *)
Theorem seed_progress_lines (cutoff : Z) (cur_bbox : bbox grid)
    (level max_level : Z) (id : string) (full_intersect : bool) :
  exists tr,
    frame_run grid target cutoff cur_bbox level max_level id full_intersect tr /\
    progress_lines tr = entered_upto cutoff tr /\
    (cutoff < level -> progress_lines tr = 0%nat).
Proof.
  destruct (frame_run_induct cutoff max_level
              (fun _ _ _ _ tr => progress_lines tr = entered_upto cutoff tr))
    with (cur_bbox := cur_bbox) (level := level) (id := id)
         (full_intersect := full_intersect)
    as [tr [Hrun HP]].
  - clear. intros cur_bbox level id full_intersect children sub_seeds Hch.
    rewrite !progress_lines_app, !entered_upto_app.
    cbn [progress_lines entered_upto]. rewrite !Nat.add_0_r.
    f_equal.
    + unfold frame_head. cbn [progress_lines entered_upto].
      rewrite progress_lines_app, entered_upto_app.
      assert (Hc : forall ts : list (tile grid),
                progress_lines (map (fun t => EvIntersects (meta_bbox grid t)) ts)
                = 0%nat /\
                entered_upto cutoff
                  (map (fun t => EvIntersects (meta_bbox grid t)) ts) = 0%nat).
      { induction ts as [|t ts [IH1 IH2]]; split; try reflexivity; assumption. }
      assert (Hcalls :
                progress_lines
                  (if level <? max_level
                   then snd (collect_sub_seeds grid target full_intersect
                               (subtiles_of grid cur_bbox level))
                   else []) = 0%nat /\
                entered_upto cutoff
                  (if level <? max_level
                   then snd (collect_sub_seeds grid target full_intersect
                               (subtiles_of grid cur_bbox level))
                   else []) = 0%nat).
      { destruct (level <? max_level); [|split; reflexivity].
        rewrite collect_sub_seeds_spec. cbn [snd].
        destruct full_intersect; [split; reflexivity | apply Hc]. }
      destruct Hcalls as [-> ->].
      destruct (level <=? cutoff); reflexivity.
    + assert (Hkids : Forall (fun tr => progress_lines tr
                                        = entered_upto cutoff tr) children).
      { destruct (level <? max_level); [|subst children; constructor].
        eapply Forall2_right; [exact Hch|].
        intros ic tr _ [c [_ [_ HQ]]]. exact HQ. }
      clear Hch. induction Hkids as [|tr children Htr _ IH]; [reflexivity|].
      cbn [List.concat]. rewrite progress_lines_app, entered_upto_app, Htr, IH.
      reflexivity.
  - exists tr. split; [exact Hrun|]. split; [exact HP|].
    intros Hc. rewrite HP.
    destruct (frame_levels cutoff cur_bbox level max_level id
                           full_intersect) as [tr' [Hrun' Hlev]].
    rewrite (frame_run_functional grid target _ _ _ _ _ _ _ _ Hrun Hrun').
    eapply entered_upto_above; eassumption.
Qed.

End MoreTraversalFacts.

(** ** The cutoff and the ends of the level range *)

Lemma floor_seven_tenths_div (n : Z) : floor_seven_tenths n = 7 * n / 10.
Proof.
  unfold floor_seven_tenths, Qfloor, Qmult, inject_Z. cbn [Qnum Qden].
  reflexivity.
Qed.

(** X11: for a seed range of at most 89 levels the cutoff lies inside the
    range, so the root frame always prints its line; the cutoff is the
    last level exactly for ranges of one, two or three levels, and from
    four levels on the deepest levels print nothing. *)
Theorem cutoff_inside_range (lo hi : Z) :
  lo <= hi <= lo + 88 ->
  exists cutoff,
    report_till_level (lo, hi) = Ok cutoff /\
    lo <= cutoff <= hi /\
    (cutoff = hi <-> hi - lo + 1 <= 3).
Proof.
  intros H. exists (lo + floor_seven_tenths (hi - lo + 1)).
  split; [apply report_till_level_floor; exact H|].
  rewrite floor_seven_tenths_div.
  pose proof (Z.div_mod (7 * (hi - lo + 1)) 10 ltac:(lia)) as Hdm.
  pose proof (Z.mod_pos_bound (7 * (hi - lo + 1)) 10 ltac:(lia)) as Hmod.
  lia.
Qed.

(** The theorem at the range [[2, 11]]. *)
Lemma cutoff_inside_range_witness :
  exists cutoff,
    report_till_level (2, 11) = Ok cutoff /\
    2 <= cutoff <= 11 /\
    (cutoff = 11 <-> 11 - 2 + 1 <= 3).
Proof. apply (cutoff_inside_range 2 11). lia. Defined.

(** X12: a range of one level, or an inverted one ([hi <= lo]), is seeded
    at the level [lo] alone: the run enters the root frame, prints its line
    when the cutoff allows, and submits the tiles of the target at [lo]; no
    meta-tile box is computed and [intersects] is not called.  For
    [hi = lo] the cutoff is [lo] and the line is printed. *)
Theorem seed_single_level (grid : MetaGrid) (target : bbox grid)
    (lo hi cutoff : Z) :
  hi <= lo ->
  report_till_level (lo, hi) = Ok cutoff ->
  _seed_location grid target (lo, hi)
  = Some (EvEnter target lo EmptyString false
            :: (if lo <=? cutoff then [EvProgress lo target false] else [])
            ++ [EvSubmit EmptyString (subtiles_of grid target lo)],
          Ok tt) /\
  (hi = lo -> cutoff = lo).
Proof.
  intros Hle Hcut. split.
  - unfold _seed_location. rewrite Hcut. cbn [fst snd]. unfold depth.
    replace (Z.to_nat (hi - lo)) with 0%nat by lia.
    cbn [_seed]. unfold subtiles_of.
    destruct (get_affected_level_tiles grid target lo) as [[bbox_ tiles_] subtiles].
    assert (Hlt : (lo <? hi) = false) by (apply Z.ltb_ge; lia).
    rewrite Hlt. reflexivity.
  - intros ->. rewrite report_till_level_floor in Hcut by lia.
    injection Hcut as <-. replace (lo - lo + 1) with 1 by lia.
    change (floor_seven_tenths 1) with 0. lia.
Qed.

(** The theorem at the inverted range [[5, 3]] on the quad-tree grid. *)
Lemma seed_single_level_witness :
  _seed_location Fixture.quad_grid (0, 0, 1, 1) (5, 3)
  = Some (EvEnter (grid := Fixture.quad_grid) (0, 0, 1, 1) 5 EmptyString false
            :: (if 5 <=? 5
                then [EvProgress (grid := Fixture.quad_grid) 5 (0, 0, 1, 1) false]
                else [])
            ++ [EvSubmit EmptyString
                  (subtiles_of Fixture.quad_grid (0, 0, 1, 1) 5)],
          Ok tt) /\
  (3 = 5 -> 5 = 5).
Proof.
  apply (seed_single_level Fixture.quad_grid (0, 0, 1, 1) 5 3 5).
  - lia.
  - vm_compute. reflexivity.
Defined.

(** ** [SeedWorker.run] over the items the queue hands to it *)

Section MoreWorkerFacts.

Context {RT : Runtime}.
Variable grid : MetaGrid.
Variable load_tile_coords : batch grid -> world -> result exn unit * world.

Local Abbreviation run := (SeedWorker.run grid load_tile_coords).

(** X13: in a dry run the worker never calls [load_tile_coords], leaves
    the world as it is and cannot be ended by an exception: it returns at
    the first item whose tile list is [None], and waits for the next item
    when there is none among the items it got. *)
Theorem run_dry_run (gets : list (qitem grid)) (w : world) :
  exists r evs,
    run true gets w = Some (r, w, evs) /\
    SeedWorker.loaded evs = [] /\
    (existsb tiles_is_None gets = true -> r = SeedWorker.Exited) /\
    (existsb tiles_is_None gets = false -> r = SeedWorker.Waiting).
Proof.
  induction gets as [|[seed_id [tiles|]] gets IH].
  - exists SeedWorker.Waiting, []. repeat split; try reflexivity; discriminate.
  - destruct IH as [r [evs [Hrun [Hload [Hex Hwait]]]]].
    exists r, (SeedWorker.Announced seed_id :: evs).
    cbn [SeedWorker.run SeedWorker.turn]. rewrite Hrun.
    repeat split; assumption.
  - exists SeedWorker.Exited, [].
    repeat split; try reflexivity; discriminate.
Qed.


(** X14: once [run] has ended, by the sentinel or by an exception, what
    the queue holds further is never looked at: the items after the one
    that ended the worker change nothing. *)
Theorem run_ignores_later_items (dry_run : bool) (gets more : list (qitem grid))
    (w w' : world) (r : SeedWorker.run_end) evs :
  run dry_run gets w = Some (r, w', evs) ->
  r <> SeedWorker.Waiting ->
  run dry_run (gets ++ more) w = Some (r, w', evs).
Proof.
  revert w w' r evs. induction gets as [|x gets IH]; intros w w' r evs Hrun Hr.
  - cbn in Hrun. injection Hrun as <- _ _. congruence.
  - cbn [app SeedWorker.run] in *.
    destruct (SeedWorker.turn grid load_tile_coords dry_run x w)
      as [[[t w1] evs1]|]; [|discriminate].
    destruct t as [| |e]; try exact Hrun.
    destruct (run dry_run gets w1) as [[[r2 w2] evs2]|] eqn:Hrest;
      [|discriminate].
    injection Hrun as <- <- <-.
    rewrite (IH w1 w2 r2 evs2 Hrest Hr). reflexivity.
Qed.

Lemma turn_load_returns (seed_id : option string) (tiles : batch grid)
    (w : world) :
  fst (load_tile_coords tiles w) = Ok tt ->
  SeedWorker.turn grid load_tile_coords false (seed_id, Some tiles) w
  = Some (SeedWorker.Continues, snd (load_tile_coords tiles w),
          [SeedWorker.Announced seed_id;
           SeedWorker.Loading tiles (Called (Ok tt))]).
Proof.
  intros Hok. cbn [SeedWorker.turn].
  unfold exp_backoff, default_max_repeat.
  change (Z.to_nat (Z.max 1 10)) with 10%nat.
  cbn [exp_backoff_loop].
  destruct (load_tile_coords tiles w) as [o w1]. cbn [fst snd] in *.
  subst o. reflexivity.
Qed.


(** X15: when [load_tile_coords] does not raise, a worker that gets the
    work items [items] and then the sentinel returns from [run], having
    passed the tile list of every item to [load_tile_coords] exactly once
    and in the order of the queue. *)
Theorem run_loads_in_order (items : list (string * batch grid)) (w : world) :
  (forall tiles w0, fst (load_tile_coords tiles w0) = Ok tt) ->
  exists w' evs,
    run false
        (map (fun item => work_item grid (fst item) (snd item)) items
         ++ [sentinel grid]) w
    = Some (SeedWorker.Exited, w', evs) /\
    SeedWorker.loaded evs = map snd items.
Proof.
  intros Hok. revert w. induction items as [|[seed_id tiles] items IH]; intros w.
  - exists w, []. split; reflexivity.
  - destruct (IH (snd (load_tile_coords tiles w))) as [w' [evs [Hrun Hload]]].
    cbn [map app fst snd SeedWorker.run]. unfold work_item at 1.
    rewrite (turn_load_returns (Some seed_id) tiles w (Hok tiles w)).
    rewrite Hrun. eexists _, _. split; [reflexivity|].
    cbn [app SeedWorker.loaded]. rewrite Hload. reflexivity.
Qed.

End MoreWorkerFacts.

(** The theorem for a work item followed by the sentinel. *)
Lemma run_dry_run_witness :
  exists r evs,
    SeedWorker.run Fixture.quad_grid Fixture.loads true
      [Fixture.first_item; sentinel Fixture.quad_grid] 0%nat
    = Some (r, 0%nat, evs) /\
    SeedWorker.loaded evs = [] /\
    (existsb tiles_is_None [Fixture.first_item; sentinel Fixture.quad_grid]
       = true -> r = SeedWorker.Exited) /\
    (existsb tiles_is_None [Fixture.first_item; sentinel Fixture.quad_grid]
       = false -> r = SeedWorker.Waiting).
Proof.
  apply (@run_dry_run Fixture.runtime Fixture.quad_grid Fixture.loads
           [Fixture.first_item; sentinel Fixture.quad_grid] 0%nat).
Defined.

(** The theorem for a worker that got the sentinel before a work item. *)
Lemma run_ignores_later_items_witness :
  SeedWorker.run Fixture.quad_grid Fixture.loads false
    ([sentinel Fixture.quad_grid] ++ [Fixture.first_item]) 0%nat
  = Some (SeedWorker.Exited, 0%nat, []).
Proof.
  apply (@run_ignores_later_items Fixture.runtime Fixture.quad_grid
           Fixture.loads false [sentinel Fixture.quad_grid]
           [Fixture.first_item] 0%nat 0%nat SeedWorker.Exited []).
  - reflexivity.
  - discriminate.
Defined.

(** The theorem for two work items. *)
Lemma run_loads_in_order_witness :
  exists w' evs,
    SeedWorker.run Fixture.quad_grid Fixture.loads false
        (map (fun item => work_item Fixture.quad_grid (fst item) (snd item))
             Fixture.two_items
         ++ [sentinel Fixture.quad_grid]) 0%nat
    = Some (SeedWorker.Exited, w', evs) /\
    SeedWorker.loaded evs = map snd Fixture.two_items.
Proof.
  apply (@run_loads_in_order Fixture.runtime Fixture.quad_grid Fixture.loads
           Fixture.two_items 0%nat).
  intros tiles w0. reflexivity.
Defined.

(** ** [SeedPool]: termination, progress and the fate of the work items *)

Section MorePoolFacts.

Context {RT : Runtime}.
Variable grid : MetaGrid.
Variable load_tile_coords : batch grid -> world -> result exn unit * world.
Variable dry_run : bool.

Local Abbreviation step := (SeedPool.step grid load_tile_coords dry_run).
Local Abbreviation reachable := (SeedPool.reachable grid load_tile_coords dry_run).

Lemma step_lowers_measure (s s' : SeedPool.pool grid) :
  step s s' -> (pool_measure s' < pool_measure s)%nat.
Proof.
  intros Hstep. inversion Hstep; subst; unfold pool_measure;
    cbn [SeedPool.main SeedPool.tiles_queue List.length];
    rewrite ?length_app; cbn [List.length]; lia.
Qed.

(** X16: no run of the pool goes on for ever.  Every step, a put, a join
    or a turn of a worker, lowers the measure that counts two for each
    operation left to the main process and one for each queued item. *)
Theorem pool_step_decreases (s s' : SeedPool.pool grid) :
  step s s' -> (pool_measure s' < pool_measure s)%nat.
Proof. apply step_lowers_measure. Qed.

Lemma concat_taken_replace (k : nat) (p : SeedPool.proc grid) (x : qitem grid)
    (r : SeedWorker.turn_end) (ps : list (SeedPool.proc grid)) :
  nth_error ps k = Some p ->
  Permutation
    (List.concat (map SeedPool.taken ps) ++ [x])
    (List.concat (map SeedPool.taken
                      (SeedPool.replace_nth k (SeedPool.after_turn p x r) ps))).
Proof.
  revert k. induction ps as [|q ps IH]; intros [|k] Hk; cbn in Hk;
    try discriminate.
  - injection Hk as ->. cbn [SeedPool.replace_nth map List.concat].
    assert (Ht : SeedPool.taken (SeedPool.after_turn p x r)
                 = SeedPool.taken p ++ [x]) by (destruct r; reflexivity).
    rewrite Ht, <- !app_assoc.
    apply Permutation_app_head. apply Permutation_app_comm.
  - cbn [SeedPool.replace_nth map List.concat]. rewrite <- app_assoc.
    apply Permutation_app_head. apply IH. exact Hk.
Qed.

Lemma pool_flow_step (s s' : SeedPool.pool grid) :
  pool_flow s -> step s s' -> pool_flow s'.
Proof.
  intros [dequeued [Hhist Hperm]] Hstep. unfold pool_flow.
  inversion Hstep as [x rest q ps w h Hroom
                     | k p rest q ps w h Hk Hdead
                     | k p x q ps m w h r w' evs Hk Halive Hturn]; subst s s';
    cbn [SeedPool.procs SeedPool.tiles_queue SeedPool.history] in *.
  - exists dequeued. split; [rewrite Hhist, app_assoc; reflexivity | exact Hperm].
  - exists dequeued. split; assumption.
  - exists (dequeued ++ [x]). split.
    + rewrite Hhist, <- app_assoc. reflexivity.
    + etransitivity; [|apply (concat_taken_replace k p x r ps Hk)].
      apply Permutation_app_tail. exact Hperm.
Qed.

Lemma pool_flow_reachable (size : nat) (items : list (string * batch grid))
    (w : world) (s : SeedPool.pool grid) :
  reachable (SeedPool.create size items w) s -> pool_flow s.
Proof.
  induction 1 as [|s s' _ IH Hstep].
  - exists []. cbn. split; [reflexivity|].
    induction size as [|n IHn]; [constructor | exact IHn].
  - eapply pool_flow_step; eassumption.
Qed.

Lemma Permutation_filter_same {A} (f : A -> bool) (l l' : list A) :
  Permutation l l' -> Permutation (filter f l) (filter f l').
Proof.
  induction 1 as [|x l l' _ IH|x y l|l l' l'' _ IH1 _ IH2]; cbn [filter].
  - constructor.
  - destruct (f x); [constructor|]; exact IH.
  - destruct (f x), (f y); try reflexivity. constructor.
  - etransitivity; eassumption.
Qed.

Lemma sentinels_Permutation (l l' : list (qitem grid)) :
  Permutation l l' -> sentinels l = sentinels l'.
Proof.
  intros H. unfold sentinels. apply Permutation_length.
  apply Permutation_filter_same. exact H.
Qed.

Lemma sentinels_concat (ls : list (list (qitem grid))) :
  sentinels (List.concat ls) = list_sum (map sentinels ls).
Proof.
  induction ls as [|l ls IH]; [reflexivity|].
  cbn [List.concat map list_sum]. rewrite sentinels_app, IH. reflexivity.
Qed.

(** Without failed workers, a live worker holds no sentinel and a worker
    that has exited holds one. *)
Lemma taken_sentinels (p : SeedPool.proc grid) :
  proc_ok grid dry_run p -> failed p = false ->
  sentinels (SeedPool.taken p) = if SeedPool.is_alive p then 0%nat else 1%nat.
Proof.
  intros Hok Hf. pose proof (proc_ok_sentinels grid dry_run p Hok) as H.
  unfold failed in Hf. unfold SeedPool.is_alive.
  destruct (SeedPool.state p); [apply H | apply H | discriminate].
Qed.

Lemma sum_taken_all_dead (ps : list (SeedPool.proc grid)) :
  Forall (proc_ok grid dry_run) ps ->
  Forall (fun p => failed p = false) ps ->
  existsb SeedPool.is_alive ps = false ->
  list_sum (map (fun p => sentinels (SeedPool.taken p)) ps) = List.length ps.
Proof.
  intros Hok Hf. induction Hok as [|p ps Hp _ IH]; intros Ha; [reflexivity|].
  inversion Hf; subst. cbn [existsb] in Ha. apply orb_false_elim in Ha.
  destruct Ha as [Hp' Hps]. specialize (IH H2 Hps).
  unfold list_sum in *. cbn [map fold_right List.length].
  rewrite (taken_sentinels p Hp) by assumption. rewrite Hp', IH.
  reflexivity.
Qed.

Lemma sum_taken_some_alive (ps : list (SeedPool.proc grid)) :
  Forall (proc_ok grid dry_run) ps ->
  Forall (fun p => failed p = false) ps ->
  (list_sum (map (fun p => sentinels (SeedPool.taken p)) ps) <= List.length ps)%nat /\
  (existsb SeedPool.is_alive ps = true ->
   (list_sum (map (fun p => sentinels (SeedPool.taken p)) ps) < List.length ps)%nat).
Proof.
  intros Hok Hf. induction Hok as [|p ps Hp _ IH]; [split; [cbn; lia | discriminate]|].
  inversion Hf; subst. destruct IH as [IHle IHlt]; [assumption|].
  unfold list_sum in *. cbn [map fold_right List.length existsb].
  rewrite (taken_sentinels p Hp) by assumption.
  destruct (SeedPool.is_alive p); cbn [orb]; split; try lia.
  intros Ha. specialize (IHlt Ha). lia.
Qed.

(** A list that ends in a sentinel has no sentinel-free suffix but the
    empty one. *)
Lemma sentinel_free_suffix (l1 l2 works : list (qitem grid)) (n : nat) :
  l1 ++ l2 = works ++ repeat (sentinel grid) (S n) ->
  sentinels l2 = 0%nat ->
  l2 = [].
Proof.
  intros Heq Hs. destruct l2 as [|y l2] using rev_ind; [reflexivity|].
  clear IHl2. exfalso.
  change (repeat (sentinel grid) (S n))
    with (sentinel grid :: repeat (sentinel grid) n) in Heq.
  rewrite repeat_cons, !app_assoc in Heq.
  apply app_inj_tail in Heq. destruct Heq as [_ ->].
  rewrite sentinels_app in Hs. cbn in Hs. lia.
Qed.

Lemma joins_follow (puts joins done rest : list (SeedPool.main_op grid))
    (j : SeedPool.main_op grid) :
  Forall (fun op => is_join op = false) puts ->
  Forall (fun op => is_join op = true) joins ->
  done ++ j :: rest = puts ++ joins ->
  is_join j = true ->
  Forall (fun op => is_join op = true) rest /\ In j joins.
Proof.
  intros Hputs Hjoins. revert done.
  induction Hputs as [|a puts Ha _ IH]; intros done Heq Hj.
  - cbn [app] in Heq. rewrite <- Heq in Hjoins.
    apply Forall_app in Hjoins. destruct Hjoins as [_ Hj'].
    inversion Hj'; subst. split; [assumption|].
    apply in_or_app. right. left. reflexivity.
  - destruct done as [|d done]; cbn [app] in Heq.
    + injection Heq as -> _. congruence.
    + injection Heq as _ Heq. eapply IH; eassumption.
Qed.

Lemma program_shape (size : nat) (items : list (string * batch grid)) :
  exists puts,
    SeedPool.program size items = puts ++ map SeedPool.Join (seq 0 size) /\
    Forall (fun op => is_join op = false) puts.
Proof.
  unfold SeedPool.program, SeedPool.stop.
  exists (flat_map (fun item => SeedPool.seed grid (fst item) (snd item)) items
          ++ repeat (SeedPool.Put (sentinel grid)) size).
  split; [rewrite app_assoc; reflexivity|].
  apply Forall_app. split.
  - apply Forall_forall. intros op Hop. apply in_flat_map in Hop.
    destruct Hop as [item [_ [<- | []]]]. reflexivity.
  - apply Forall_forall. intros op Hop. apply repeat_spec in Hop.
    subst op. reflexivity.
Qed.

Lemma puts_of_joins_only (ops : list (SeedPool.main_op grid)) :
  Forall (fun op => is_join op = true) ops -> SeedPool.puts_of ops = [].
Proof.
  unfold SeedPool.puts_of.
  induction 1 as [|op ops Hop _ IH]; [reflexivity|].
  destruct op; [discriminate | exact IH].
Qed.

Lemma work_items_real (items : list (string * batch grid)) :
  real_items grid (map (fun item => work_item grid (fst item) (snd item)) items).
Proof.
  apply Forall_forall. intros x Hx. apply in_map_iff in Hx.
  destruct Hx as [item [<- _]]. reflexivity.
Qed.

(** The items put and those still to put are the work items followed by
    one sentinel for each worker; and when the main process has nothing
    left to do, no worker is alive. *)
Lemma pool_puts_in_order (size : nat) (items : list (string * batch grid))
    (w : world) (s : SeedPool.pool grid) :
  reachable (SeedPool.create size items w) s ->
  SeedPool.history s ++ SeedPool.puts_left s
    = map (fun item => work_item grid (fst item) (snd item)) items
      ++ repeat (sentinel grid) size /\
  (SeedPool.stopped s ->
   Forall (fun p => SeedPool.is_alive p = false) (SeedPool.procs s)).
Proof.
  intros Hreach.
  destruct (pool_inv_reachable grid load_tile_coords dry_run size items w s Hreach)
    as [Hlen [Hok [Hcap [done [Hprog [Hhist Hjoin]]]]]].
  split.
  - rewrite <- puts_of_program, Hprog, puts_of_app, Hhist. reflexivity.
  - intros Hstop. unfold SeedPool.stopped in Hstop.
    rewrite Hstop, app_nil_r in Hprog.
    apply Forall_forall. intros p Hp.
    destruct (In_nth_error _ _ Hp) as [k Hk].
    assert (Hlt : (k < size)%nat).
    { rewrite <- Hlen. apply nth_error_Some. congruence. }
    destruct (Hjoin k) as [p' [Hk' Hdead]].
    { rewrite <- Hprog. unfold SeedPool.program, SeedPool.stop.
      apply in_or_app. right. apply in_or_app. right.
      apply in_map. apply in_seq. lia. }
    rewrite Hk in Hk'. injection Hk' as <-. exact Hdead.
Qed.

(** What is known of a reachable state without failed workers: the
    sentinels put and still to put are [size] in all, and those put are
    the ones in the queue and one for each worker that has exited. *)
Lemma pool_sentinel_count (size : nat) (items : list (string * batch grid))
    (w : world) (s : SeedPool.pool grid) :
  reachable (SeedPool.create size items w) s ->
  (sentinels (SeedPool.history s) + sentinels (SeedPool.puts_left s) = size)%nat /\
  exists dequeued,
    SeedPool.history s = dequeued ++ SeedPool.tiles_queue s /\
    Permutation dequeued (List.concat (map SeedPool.taken (SeedPool.procs s))) /\
    sentinels dequeued
    = list_sum (map (fun p => sentinels (SeedPool.taken p)) (SeedPool.procs s)).
Proof.
  intros Hreach.
  destruct (pool_puts_in_order size items w s Hreach) as [Hputs _].
  destruct (pool_flow_reachable size items w s Hreach) as [dequeued [Hdq Hperm]].
  split.
  - rewrite <- sentinels_app, Hputs, sentinels_app, sentinels_repeat.
    rewrite (sentinels_real grid _ (work_items_real items)). reflexivity.
  - exists dequeued. split; [exact Hdq|]. split; [exact Hperm|].
    rewrite (sentinels_Permutation _ _ Hperm), sentinels_concat, map_map.
    reflexivity.
Qed.

Lemma join_index_in_range (size : nat) (items : list (string * batch grid))
    (done rest : list (SeedPool.main_op grid)) (j : nat) :
  SeedPool.program size items = done ++ SeedPool.Join j :: rest ->
  (j < size)%nat /\ SeedPool.puts_of (SeedPool.Join j :: rest) = [].
Proof.
  intros Hprog. destruct (program_shape size items) as [puts [Hshape Hputs]].
  rewrite Hshape in Hprog. symmetry in Hprog.
  assert (Hjoins : Forall (fun op : SeedPool.main_op grid => is_join op = true)
                          (map SeedPool.Join (seq 0 size))).
  { apply Forall_forall. intros op Hop. apply in_map_iff in Hop.
    destruct Hop as [k [<- _]]. reflexivity. }
  destruct (joins_follow puts _ done rest (SeedPool.Join j) Hputs Hjoins Hprog
                         eq_refl) as [Hrest Hin].
  split.
  - apply in_map_iff in Hin. destruct Hin as [k [Hk Hin]].
    injection Hk as ->. apply in_seq in Hin. lia.
  - apply puts_of_joins_only. constructor; [reflexivity | exact Hrest].
Qed.

Lemma pool_moves_on (size : nat) (items : list (string * batch grid))
    (w : world) (s : SeedPool.pool grid) :
  (1 <= size)%nat ->
  reachable (SeedPool.create size items w) s ->
  none_failed s ->
  SeedPool.stopped s \/ exists s', step s s'.
Proof.
  intros Hsize Hreach Hnf.
  destruct (pool_inv_reachable grid load_tile_coords dry_run size items w s Hreach)
    as [Hlen [Hok [Hcap [done [Hprog [Hhist Hjoin]]]]]].
  destruct (pool_puts_in_order size items w s Hreach) as [Hputs _].
  destruct (pool_sentinel_count size items w s Hreach)
    as [Htot [dequeued [Hdq [Hperm Hsum]]]].
  unfold none_failed, SeedPool.stopped, SeedPool.puts_left in *.
  destruct s as [q ps m w0 h].
  cbn [SeedPool.procs SeedPool.tiles_queue SeedPool.main SeedPool.history] in *.
  destruct (sum_taken_some_alive ps Hok Hnf) as [Hle Hlt].
  destruct (existsb SeedPool.is_alive ps) eqn:Ha.
  - (* a worker is alive *)
    specialize (Hlt eq_refl).
    apply existsb_exists in Ha. destruct Ha as [p [Hin Hp]].
    destruct (In_nth_error _ _ Hin) as [k Hk].
    destruct q as [|y q].
    + destruct m as [|[x|j] rest].
      * left. reflexivity.
      * right. eexists. apply SeedPool.step_put.
        cbn. unfold SeedPool.capacity. lia.
      * right. destruct (join_index_in_range size items done rest j Hprog)
          as [Hj Hnoputs].
        destruct (nth_error ps j) as [pj|] eqn:Hpj;
          [|apply nth_error_None in Hpj; lia].
        destruct (SeedPool.is_alive pj) eqn:Halive.
        -- exfalso. rewrite Hnoputs in Htot. rewrite app_nil_r in Hdq.
           rewrite Hdq in Htot.
           change (sentinels (@nil (qitem grid))) with 0%nat in Htot. lia.
        -- eexists. eapply SeedPool.step_join; eassumption.
    + right.
      destruct (turn_total grid load_tile_coords dry_run y w0)
        as [r [w' [evs [Hturn _]]]].
      eexists. eapply SeedPool.step_get; eassumption.
  - (* every worker has returned *)
    pose proof (sum_taken_all_dead ps Hok Hnf Ha) as Hall.
    destruct m as [|[x|j] rest].
    + left. reflexivity.
    + exfalso. destruct size as [|n]; [lia|].
      assert (Hs0 : sentinels (SeedPool.puts_of (SeedPool.Put x :: rest)) = 0%nat).
      { rewrite Hdq, sentinels_app in Htot. lia. }
      pose proof (sentinel_free_suffix _ _ _ _ Hputs Hs0) as Hnil.
      discriminate.
    + right. destruct (join_index_in_range size items done rest j Hprog)
        as [Hj _].
      destruct (nth_error ps j) as [pj|] eqn:Hpj;
        [|apply nth_error_None in Hpj; lia].
      eexists. eapply SeedPool.step_join; [exact Hpj|].
      destruct (SeedPool.is_alive pj) eqn:Halive; [|reflexivity].
      assert (Hex : existsb SeedPool.is_alive ps = true).
      { apply existsb_exists. exists pj. split; [|exact Halive].
        eapply nth_error_In. exact Hpj. }
      congruence.
Qed.

(** X17: the pool cannot get stuck as long as no worker has been ended by
    an exception.  With at least one worker, in every state that a run can
    reach and in which no worker has failed, either [stop()] has returned
    or a step is possible: the main process can put or join, or a live
    worker can take an item. *)
Theorem pool_progress (size : nat) (items : list (string * batch grid))
    (w : world) (s : SeedPool.pool grid) :
  (1 <= size)%nat ->
  reachable (SeedPool.create size items w) s ->
  none_failed s ->
  SeedPool.stopped s \/ exists s', step s s'.
Proof. apply pool_moves_on. Qed.

Lemma work_items_of_program_puts (size : nat) (items : list (string * batch grid)) :
  work_items_of
    (map (fun item => work_item grid (fst item) (snd item)) items
     ++ repeat (sentinel grid) size)
  = map (fun item => work_item grid (fst item) (snd item)) items.
Proof.
  unfold work_items_of. rewrite filter_app.
  assert (Hs : filter (fun x : qitem grid => negb (tiles_is_None x))
                      (repeat (sentinel grid) size) = []).
  { induction size as [|n IH]; [reflexivity | exact IH]. }
  rewrite Hs, app_nil_r.
  induction items as [|item items IH]; [reflexivity|].
  cbn [map filter tiles_is_None work_item snd negb]. now rewrite IH.
Qed.

Lemma work_items_of_real (l : list (qitem grid)) :
  real_items grid l -> work_items_of l = l.
Proof.
  unfold work_items_of. induction 1 as [|x l Hx _ IH]; [reflexivity|].
  cbn [filter]. rewrite Hx. cbn [negb]. now rewrite IH.
Qed.

Lemma work_items_of_taken (ps : list (SeedPool.proc grid)) :
  Forall (proc_ok grid dry_run) ps ->
  Forall (fun p => failed p = false) ps ->
  existsb SeedPool.is_alive ps = false ->
  work_items_of (List.concat (map SeedPool.taken ps))
  = List.concat (map SeedPool.completed ps) /\
  Forall (fun p => SeedPool.state p = SeedPool.ExitedNormally) ps.
Proof.
  intros Hok Hf. induction Hok as [|p ps Hp _ IH]; intros Ha;
    [split; [reflexivity | constructor]|].
  inversion Hf as [|? ? Hfp Hfps]; subst.
  cbn [existsb] in Ha. apply orb_false_elim in Ha. destruct Ha as [Hdead Hps].
  destruct (IH Hfps Hps) as [IHw IHs].
  destruct Hp as [Hreal Hstate].
  unfold failed in Hfp. unfold SeedPool.is_alive in Hdead.
  destruct (SeedPool.state p) eqn:Hst; try discriminate.
  destruct Hstate as [x [Htaken Hx]].
  split; [|constructor; [exact Hst | exact IHs]].
  cbn [map List.concat]. unfold work_items_of in *.
  rewrite filter_app, IHw, Htaken, filter_app.
  cbn [filter]. rewrite Hx. cbn [negb]. rewrite app_nil_r.
  fold (work_items_of (SeedPool.completed p)).
  rewrite (work_items_of_real _ Hreal). reflexivity.
Qed.

Lemma pool_work_done (size : nat) (items : list (string * batch grid))
    (w : world) (s : SeedPool.pool grid) :
  (1 <= size)%nat ->
  reachable (SeedPool.create size items w) s ->
  none_failed s ->
  SeedPool.stopped s ->
  SeedPool.tiles_queue s = [] /\
  Forall (fun p => SeedPool.state p = SeedPool.ExitedNormally) (SeedPool.procs s) /\
  Permutation (List.concat (map SeedPool.completed (SeedPool.procs s)))
              (map (fun item => work_item grid (fst item) (snd item)) items).
Proof.
  intros Hsize Hreach Hnf Hstop.
  destruct (pool_inv_reachable grid load_tile_coords dry_run size items w s Hreach)
    as [Hlen [Hok _]].
  destruct (pool_puts_in_order size items w s Hreach) as [Hputs Hend].
  pose proof (Hend Hstop) as Hdead.
  assert (Hhist : SeedPool.history s
                  = map (fun item => work_item grid (fst item) (snd item)) items
                    ++ repeat (sentinel grid) size).
  { unfold SeedPool.puts_left in Hputs. rewrite Hstop in Hputs.
    cbn in Hputs. rewrite app_nil_r in Hputs. exact Hputs. }
  destruct (pool_sentinel_count size items w s Hreach)
    as [_ [dequeued [Hdq [Hperm Hsum]]]].
  assert (Ha : existsb SeedPool.is_alive (SeedPool.procs s) = false).
  { destruct (existsb SeedPool.is_alive (SeedPool.procs s)) eqn:E; [|reflexivity].
    apply existsb_exists in E. destruct E as [p [Hin Hp]].
    rewrite (proj1 (Forall_forall _ _) Hdead p Hin) in Hp. discriminate. }
  rewrite (sum_taken_all_dead _ Hok Hnf Ha), Hlen in Hsum.
  assert (Hq : SeedPool.tiles_queue s = []).
  { destruct size as [|n]; [lia|].
    apply (sentinel_free_suffix dequeued _
             (map (fun item => work_item grid (fst item) (snd item)) items) n).
    - rewrite <- Hdq. exact Hhist.
    - assert (Hs : sentinels (SeedPool.history s) = S n).
      { rewrite Hhist, sentinels_app, sentinels_repeat.
        rewrite (sentinels_real grid _ (work_items_real items)). reflexivity. }
      rewrite Hdq, sentinels_app in Hs. lia. }
  destruct (work_items_of_taken _ Hok Hnf Ha) as [Hwork Hstates].
  split; [exact Hq|]. split; [exact Hstates|].
  rewrite Hq, app_nil_r in Hdq. subst dequeued.
  rewrite <- Hwork, <- (work_items_of_program_puts size items), <- Hhist.
  apply Permutation_sym. apply Permutation_filter_same. exact Hperm.
Qed.

(** X18: no work is lost on [stop], unless a worker failed.  With at least
    one worker, when [stop()] has returned and no worker has been ended by
    an exception, the queue is empty, every worker has returned from
    [run], and the items whose turn the workers completed are exactly the
    work items that were submitted, each one once. *)
Theorem pool_no_work_lost (size : nat) (items : list (string * batch grid))
    (w : world) (s : SeedPool.pool grid) :
  (1 <= size)%nat ->
  reachable (SeedPool.create size items w) s ->
  none_failed s ->
  SeedPool.stopped s ->
  SeedPool.tiles_queue s = [] /\
  Forall (fun p => SeedPool.state p = SeedPool.ExitedNormally) (SeedPool.procs s) /\
  Permutation (List.concat (map SeedPool.completed (SeedPool.procs s)))
              (map (fun item => work_item grid (fst item) (snd item)) items).
Proof. apply pool_work_done. Qed.

(** A move that the pool allows is a step. *)
Lemma make_move_step (mv : move) (s s' : SeedPool.pool grid) :
  make_move grid load_tile_coords dry_run mv s = Some s' -> step s s'.
Proof.
  destruct s as [q ps m w0 h]. destruct mv as [|k]; cbn [make_move
    SeedPool.main SeedPool.tiles_queue SeedPool.procs SeedPool.env
    SeedPool.history].
  - destruct m as [|[x|j] rest]; [discriminate| |].
    + destruct (List.length q <? SeedPool.capacity)%nat eqn:Hroom;
        [|discriminate].
      intros H. injection H as <-. apply SeedPool.step_put.
      apply Nat.ltb_lt. exact Hroom.
    + destruct (nth_error ps j) as [p|] eqn:Hj; [|discriminate].
      destruct (SeedPool.is_alive p) eqn:Hp; [discriminate|].
      intros H. injection H as <-. eapply SeedPool.step_join; eassumption.
  - destruct q as [|x q]; [discriminate|].
    destruct (nth_error ps k) as [p|] eqn:Hk; [|discriminate].
    destruct (SeedPool.is_alive p) eqn:Hp; [|discriminate].
    destruct (SeedWorker.turn grid load_tile_coords dry_run x w0)
      as [[[r w'] evs]|] eqn:Hturn; [|discriminate].
    intros H. injection H as <-. eapply SeedPool.step_get; eassumption.
Qed.

Lemma schedule_reachable (mvs : list move) (s0 s s' : SeedPool.pool grid) :
  reachable s0 s ->
  schedule grid load_tile_coords dry_run mvs s = Some s' ->
  reachable s0 s'.
Proof.
  revert s. induction mvs as [|mv mvs IH]; intros s Hreach Hs; cbn in Hs.
  - injection Hs as <-. exact Hreach.
  - destruct (make_move grid load_tile_coords dry_run mv s) as [s1|] eqn:Hmv;
      [|discriminate].
    apply (IH s1); [|exact Hs].
    eapply SeedPool.reach_step; [exact Hreach|].
    apply make_move_step with (mv := mv). exact Hmv.
Qed.

Lemma reachable_step_first (s s1 s' : SeedPool.pool grid) :
  step s s1 -> reachable s1 s' -> reachable s s'.
Proof.
  intros Hstep Hreach. induction Hreach as [|s2 s3 _ IH Hstep'].
  - eapply SeedPool.reach_step; [apply SeedPool.reach_start | exact Hstep].
  - eapply SeedPool.reach_step; eassumption.
Qed.

End MorePoolFacts.

(** The step that puts the second work item of the fixture. *)
Lemma pool_step_decreases_witness :
  (pool_measure Fixture.after_first_item
   < pool_measure
       {| SeedPool.tiles_queue := [Fixture.first_item; Fixture.second_item];
          SeedPool.procs := [SeedPool.started Fixture.quad_grid];
          SeedPool.main := SeedPool.stop Fixture.quad_grid 1;
          SeedPool.env := 0%nat;
          SeedPool.history := [Fixture.first_item; Fixture.second_item] |})%nat.
Proof.
  apply (@pool_step_decreases Fixture.runtime Fixture.quad_grid Fixture.loads
           false).
  exact (SeedPool.step_get Fixture.quad_grid Fixture.loads false 0%nat
           (SeedPool.started Fixture.quad_grid)
           Fixture.first_item [Fixture.second_item]
           [SeedPool.started Fixture.quad_grid]
           (SeedPool.stop Fixture.quad_grid 1) 0%nat
           [Fixture.first_item; Fixture.second_item]
           SeedWorker.Continues 1%nat
           [SeedWorker.Announced (Some "."%string);
            SeedWorker.Loading (grid := Fixture.quad_grid)
                               [Some (0, 0, 1)] (Called (Ok tt))]
           eq_refl eq_refl eq_refl).
Defined.

Lemma finished_reachable :
  SeedPool.reachable Fixture.quad_grid Fixture.loads false
    (SeedPool.create 1 Fixture.two_items 0%nat) Scenario.finished.
Proof.
  apply (@schedule_reachable Fixture.runtime Fixture.quad_grid Fixture.loads false
           Scenario.to_finished _
           (SeedPool.create (RT := Fixture.runtime) 1 Fixture.two_items 0%nat)).
  - apply SeedPool.reach_start.
  - reflexivity.
Defined.

Lemma after_first_put_reachable :
  SeedPool.reachable Fixture.quad_grid Fixture.loads false
    (SeedPool.create 1 Fixture.two_items 0%nat) Scenario.after_first_put.
Proof.
  apply (@schedule_reachable Fixture.runtime Fixture.quad_grid Fixture.loads false
           [MainMoves] _
           (SeedPool.create (RT := Fixture.runtime) 1 Fixture.two_items 0%nat)).
  - apply SeedPool.reach_start.
  - reflexivity.
Defined.

(** The theorem for the pool after the first put. *)
Lemma pool_progress_witness :
  SeedPool.stopped Scenario.after_first_put \/
  exists s', SeedPool.step Fixture.quad_grid Fixture.loads false
                           Scenario.after_first_put s'.
Proof.
  apply (@pool_progress Fixture.runtime Fixture.quad_grid Fixture.loads false
           1%nat Fixture.two_items 0%nat Scenario.after_first_put).
  - lia.
  - exact after_first_put_reachable.
  - repeat constructor.
Defined.

(** The theorem for the pool of one worker that has loaded two work items
    and been stopped. *)
Lemma pool_no_work_lost_witness :
  SeedPool.tiles_queue Scenario.finished = [] /\
  Forall (fun p => SeedPool.state p = SeedPool.ExitedNormally)
         (SeedPool.procs Scenario.finished) /\
  Permutation
    (List.concat (map SeedPool.completed (SeedPool.procs Scenario.finished)))
    (map (fun item => work_item Fixture.quad_grid (fst item) (snd item))
         Fixture.two_items).
Proof.
  apply (@pool_no_work_lost Fixture.runtime Fixture.quad_grid Fixture.loads
           false 1%nat Fixture.two_items 0%nat Scenario.finished).
  - lia.
  - exact finished_reachable.
  - repeat constructor.
  - reflexivity.
Defined.

(** ** Runs that end and runs that hang *)

Section PoolRuns.

Context {RT : Runtime}.
Variable grid : MetaGrid.
Variable load_tile_coords : batch grid -> world -> result exn unit * world.

Lemma dry_run_none_failed (size : nat) (items : list (string * batch grid))
    (w : world) (s : SeedPool.pool grid) :
  SeedPool.reachable grid load_tile_coords true (SeedPool.create size items w) s ->
  none_failed s.
Proof.
  intros Hreach.
  destruct (pool_inv_reachable grid load_tile_coords true size items w s Hreach)
    as [_ [Hok _]].
  unfold none_failed. eapply Forall_impl; [|exact Hok].
  intros p [_ Hp]. unfold failed.
  destruct (SeedPool.state p); try reflexivity.
  destruct Hp as [Hdry _]. discriminate.
Qed.

(** X19: a dry run never hangs and loses nothing.  With at least one
    worker, from every state that a dry run can reach, the run can be
    continued until [stop()] has returned; the queue is then empty, every
    worker has returned from [run], and the work items were each taken and
    announced by exactly one worker. *)
Theorem dry_run_finishes (size : nat) (items : list (string * batch grid))
    (w : world) (s : SeedPool.pool grid) :
  (1 <= size)%nat ->
  SeedPool.reachable grid load_tile_coords true (SeedPool.create size items w) s ->
  exists s',
    SeedPool.reachable grid load_tile_coords true s s' /\
    SeedPool.stopped s' /\
    SeedPool.tiles_queue s' = [] /\
    Forall (fun p => SeedPool.state p = SeedPool.ExitedNormally)
           (SeedPool.procs s') /\
    Permutation (List.concat (map SeedPool.completed (SeedPool.procs s')))
                (map (fun item => work_item grid (fst item) (snd item)) items).
Proof.
  intros Hsize. remember (pool_measure s) as n eqn:Hn. revert s Hn.
  induction n as [n IH] using lt_wf_ind. intros s Hn Hreach.
  pose proof (dry_run_none_failed size items w s Hreach) as Hnf.
  destruct (pool_moves_on grid load_tile_coords true size items w s
              Hsize Hreach Hnf) as [Hstop | [s1 Hstep]].
  - exists s. split; [apply SeedPool.reach_start|]. split; [exact Hstop|].
    apply (pool_work_done grid load_tile_coords true size items w s);
      assumption.
  - assert (Hreach1 : SeedPool.reachable grid load_tile_coords true
                        (SeedPool.create size items w) s1)
      by (eapply SeedPool.reach_step; eassumption).
    pose proof (step_lowers_measure grid load_tile_coords true s s1 Hstep) as Hlt.
    destruct (IH (pool_measure s1) ltac:(lia) s1 eq_refl Hreach1)
      as [s' [Hto Hend]].
    exists s'. split; [|exact Hend].
    eapply reachable_step_first; eassumption.
Qed.

(** A pool whose main process wants to put into a full queue while no
    worker is alive cannot move. *)
Lemma blocked_put_is_stuck (dry_run : bool) (s s' : SeedPool.pool grid)
    (x : qitem grid) (rest : list (SeedPool.main_op grid)) :
  SeedPool.main s = SeedPool.Put x :: rest ->
  List.length (SeedPool.tiles_queue s) = SeedPool.capacity ->
  existsb SeedPool.is_alive (SeedPool.procs s) = false ->
  ~ SeedPool.step grid load_tile_coords dry_run s s'.
Proof.
  intros Hmain Hfull Hdead Hstep.
  inversion Hstep as [x0 rest0 q ps w h Hroom
                     | k p rest0 q ps w h Hk Hp
                     | k p x0 q ps m w h r w' evs Hk Hp Hturn]; subst s s';
    cbn [SeedPool.main SeedPool.tiles_queue SeedPool.procs] in *.
  - lia.
  - discriminate.
  - assert (Hex : existsb SeedPool.is_alive ps = true).
    { apply existsb_exists. exists p. split; [|exact Hp].
      eapply nth_error_In. exact Hk. }
    congruence.
Qed.

Local Abbreviation step := (SeedPool.step grid load_tile_coords false).
Local Abbreviation reachable :=
  (SeedPool.reachable grid load_tile_coords false).
Local Abbreviation seeds :=
  (flat_map (fun item : string * batch grid =>
               SeedPool.seed grid (fst item) (snd item))).
Local Abbreviation as_work :=
  (map (fun item : string * batch grid =>
          work_item grid (fst item) (snd item))).

(** When [load_tile_coords] never returns, neither does [exp_backoff]. *)
Lemma backoff_run_never_returns (R : Type)
    (func : world -> result exn R * world) (max_repeat start : Z)
    (exceptions : list exc_class) n w evs r w' :
  (forall w0, exists e, fst (func w0) = Raised e) ->
  backoff_run func max_repeat start exceptions n w evs r w' ->
  exists e, r = Raised e.
Proof.
  intros Hf Hrun.
  induction Hrun as [n w v w1 Hv | n w e w1 He Hc | n w e w1 He Hc Hmax
                    | n w e w1 He Hc Hmax Hneg
                    | n w e w1 evs r w2 He Hc Hmax Hpos Hrun IH];
    try (eexists; reflexivity); try exact IH.
  destruct (Hf w) as [e He]. rewrite Hv in He. discriminate.
Qed.

Lemma turn_crashes (seed_id : option string) (tiles : batch grid) (w : world) :
  (forall t w0, exists e, fst (load_tile_coords t w0) = Raised e) ->
  exists e w' evs,
    SeedWorker.turn grid load_tile_coords false (seed_id, Some tiles) w
    = Some (SeedWorker.Propagates e, w', evs).
Proof.
  intros Hf.
  destruct (turn_loads grid load_tile_coords seed_id tiles w)
    as [r [w' [evs [Hrun Heq]]]].
  destruct (backoff_run_never_returns _ _ _ _ _ _ _ _ _ _ (Hf tiles) Hrun)
    as [e ->].
  eexists _, _, _. exact Heq.
Qed.

Lemma replace_nth_middle {A} (l1 l2 : list A) (a b : A) :
  SeedPool.replace_nth (List.length l1) b (l1 ++ a :: l2) = l1 ++ b :: l2.
Proof.
  induction l1 as [|c l1 IH]; cbn; [reflexivity | now rewrite IH].
Qed.

Lemma nth_error_middle {A} (l1 l2 : list A) (a : A) :
  nth_error (l1 ++ a :: l2) (List.length l1) = Some a.
Proof.
  induction l1 as [|c l1 IH]; cbn; [reflexivity | exact IH].
Qed.

(** Each worker in turn gets the item just put and is ended by the
    exception of its load. *)
Lemma workers_crash_in_turn (s0 : SeedPool.pool grid)
    (items : list (string * batch grid)) :
  (forall t w0, exists e, fst (load_tile_coords t w0) = Raised e) ->
  forall (gone : list (SeedPool.proc grid)) (rest : list (SeedPool.main_op grid))
         (w : world) (h : list (qitem grid)),
    Forall (crashed grid) gone ->
    reachable s0
      {| SeedPool.tiles_queue := [];
         SeedPool.procs :=
           gone ++ repeat (SeedPool.started grid) (List.length items);
         SeedPool.main := seeds items ++ rest;
         SeedPool.env := w;
         SeedPool.history := h |} ->
    exists gone' w' h',
      Forall (crashed grid) gone' /\
      reachable s0
        {| SeedPool.tiles_queue := [];
           SeedPool.procs := gone';
           SeedPool.main := rest;
           SeedPool.env := w';
           SeedPool.history := h' |}.
Proof.
  intros Hf.
  induction items as [|[seed_id tiles] items IH]; intros gone rest w h Hgone Hreach.
  - cbn in Hreach. rewrite app_nil_r in Hreach.
    exists gone, w, h. split; assumption.
  - cbn [List.length repeat flat_map SeedPool.seed fst snd app] in Hreach.
    destruct (turn_crashes (Some seed_id) tiles w Hf) as [e [w' [evs Hturn]]].
    apply (IH (gone ++ [SeedPool.after_turn (SeedPool.started grid)
                          (work_item grid seed_id tiles)
                          (SeedWorker.Propagates e)])
              rest w' (h ++ [work_item grid seed_id tiles])).
    + apply Forall_app. split; [exact Hgone|].
      constructor; [|constructor]. exists e. reflexivity.
    + rewrite <- app_assoc. cbn [app].
      rewrite <- (replace_nth_middle gone _ (SeedPool.started grid)).
      eapply SeedPool.reach_step.
      * eapply SeedPool.reach_step; [exact Hreach|].
        apply SeedPool.step_put. cbn. unfold SeedPool.capacity. lia.
      * exact (SeedPool.step_get grid load_tile_coords false
                 (List.length gone) (SeedPool.started grid)
                 (work_item grid seed_id tiles) []
                 (gone ++ SeedPool.started grid
                       :: repeat (SeedPool.started grid) (List.length items))
                 (seeds items ++ rest) w
                 (h ++ [work_item grid seed_id tiles])
                 (SeedWorker.Propagates e) w' evs
                 (nth_error_middle gone _ _) eq_refl Hturn).
Qed.

(** The main process puts as long as the queue has room. *)
Lemma main_fills_queue (s0 : SeedPool.pool grid)
    (items : list (string * batch grid)) :
  forall (q : list (qitem grid)) (ps : list (SeedPool.proc grid))
         (rest : list (SeedPool.main_op grid)) (w : world)
         (h : list (qitem grid)),
    (List.length q + List.length items <= SeedPool.capacity)%nat ->
    reachable s0
      {| SeedPool.tiles_queue := q; SeedPool.procs := ps;
         SeedPool.main := seeds items ++ rest;
         SeedPool.env := w; SeedPool.history := h |} ->
    reachable s0
      {| SeedPool.tiles_queue := q ++ as_work items; SeedPool.procs := ps;
         SeedPool.main := rest;
         SeedPool.env := w; SeedPool.history := h ++ as_work items |}.
Proof.
  induction items as [|[seed_id tiles] items IH]; intros q ps rest w h Hroom Hreach.
  - cbn in *. rewrite !app_nil_r. exact Hreach.
  - cbn [List.length flat_map SeedPool.seed fst snd app map] in *.
    replace (q ++ work_item grid seed_id tiles :: as_work items)
      with ((q ++ [work_item grid seed_id tiles]) ++ as_work items)
      by (now rewrite <- app_assoc).
    replace (h ++ work_item grid seed_id tiles :: as_work items)
      with ((h ++ [work_item grid seed_id tiles]) ++ as_work items)
      by (now rewrite <- app_assoc).
    apply IH.
    + rewrite length_app. cbn. lia.
    + eapply SeedPool.reach_step; [exact Hreach|].
      apply SeedPool.step_put. lia.
Qed.

Lemma crashed_not_alive (ps : list (SeedPool.proc grid)) :
  Forall (crashed grid) ps -> existsb SeedPool.is_alive ps = false.
Proof.
  induction 1 as [|p ps [e He] _ IH]; [reflexivity|].
  cbn [existsb]. unfold SeedPool.is_alive at 1. rewrite He. exact IH.
Qed.

Lemma seeds_app (a b : list (string * batch grid)) :
  seeds (a ++ b) = seeds a ++ seeds b.
Proof. apply flat_map_app. Qed.

(** X20: a cache that cannot load hangs the program.  When every call of
    [load_tile_coords] raises, whatever the exception, and the traversal
    submits at least sixteen batches more than there are workers, a run
    exists in which every worker has been ended by an exception, the queue
    is full of batches that nobody will take, and the main process waits in
    [put] for ever: no process can move and [stop()] has not returned. *)
Theorem failing_cache_hangs (size : nat) (items : list (string * batch grid))
    (w : world) :
  (1 <= size)%nat ->
  (size + SeedPool.capacity <= List.length items)%nat ->
  (forall t w0, exists e, fst (load_tile_coords t w0) = Raised e) ->
  exists s,
    SeedPool.reachable grid load_tile_coords false
      (SeedPool.create size items w) s /\
    deadlocked grid load_tile_coords false s /\
    Forall (crashed grid) (SeedPool.procs s) /\
    SeedPool.tiles_queue s
      = as_work (firstn SeedPool.capacity (skipn size items)).
Proof.
  intros Hsize Hlen Hf.
  set (first := firstn size items).
  set (second := firstn SeedPool.capacity (skipn size items)).
  set (third := skipn SeedPool.capacity (skipn size items)).
  assert (Hsplit : items = first ++ second ++ third).
  { unfold first, second, third.
    now rewrite (firstn_skipn SeedPool.capacity), (firstn_skipn size). }
  assert (Hfirst : List.length first = size).
  { unfold first. rewrite length_firstn. lia. }
  assert (Hsecond : List.length second = SeedPool.capacity).
  { unfold second. rewrite length_firstn, length_skipn. lia. }
  destruct (workers_crash_in_turn (SeedPool.create size items w) first Hf []
              (seeds second ++ seeds third ++ SeedPool.stop grid size) w [])
    as [gone [w' [h' [Hgone Hreach]]]].
  - constructor.
  - cbn [app]. rewrite Hfirst.
    replace (seeds first ++ seeds second ++ seeds third ++ SeedPool.stop grid size)
      with (SeedPool.program size items).
    + apply SeedPool.reach_start.
    + unfold SeedPool.program. rewrite Hsplit at 1.
      now rewrite !seeds_app, <- !app_assoc.
  - pose proof (main_fills_queue (SeedPool.create size items w) second [] gone
                  (seeds third ++ SeedPool.stop grid size) w' h'
                  ltac:(cbn [List.length]; lia) Hreach) as Hfull.
    cbn [app] in Hfull.
    assert (Hnext : exists x rest,
               seeds third ++ SeedPool.stop grid size = SeedPool.Put x :: rest).
    { destruct third as [|[seed_id tiles] third'].
      - destruct size as [|size']; [lia|].
        cbn. eexists _, _. reflexivity.
      - cbn. eexists _, _. reflexivity. }
    destruct Hnext as [x [rest Hnext]].
    eexists. split; [exact Hfull|]. split; [|split; [exact Hgone | reflexivity]].
    split.
    + unfold SeedPool.stopped. cbn [SeedPool.main]. rewrite Hnext. discriminate.
    + intros s'. eapply blocked_put_is_stuck.
      * cbn [SeedPool.main]. exact Hnext.
      * cbn [SeedPool.tiles_queue]. rewrite length_map. exact Hsecond.
      * cbn [SeedPool.procs]. apply crashed_not_alive. exact Hgone.
Qed.

End PoolRuns.

(** The theorem for the pool of one worker, before any step. *)
Lemma dry_run_finishes_witness :
  exists s',
    SeedPool.reachable Fixture.quad_grid Fixture.loads true
      (SeedPool.create 1 Fixture.two_items 0%nat) s' /\
    SeedPool.stopped s' /\
    SeedPool.tiles_queue s' = [] /\
    Forall (fun p => SeedPool.state p = SeedPool.ExitedNormally)
           (SeedPool.procs s') /\
    Permutation (List.concat (map SeedPool.completed (SeedPool.procs s')))
                (map (fun item => work_item Fixture.quad_grid (fst item) (snd item))
                     Fixture.two_items).
Proof.
  apply (@dry_run_finishes Fixture.runtime Fixture.quad_grid Fixture.loads
           1%nat Fixture.two_items 0%nat
           (SeedPool.create (RT := Fixture.runtime) 1 Fixture.two_items 0%nat)).
  - lia.
  - apply SeedPool.reach_start.
Defined.

(** One worker, seventeen batches and a cache whose every load raises an
    exception that [exp_backoff] does not catch. *)
Lemma failing_cache_hangs_witness :
  exists s,
    SeedPool.reachable Fixture.quad_grid (Fixture.load_raises Fixture.Broken)
      false (SeedPool.create 1 Scenario.seventeen_items 0%nat) s /\
    deadlocked Fixture.quad_grid (Fixture.load_raises Fixture.Broken) false s /\
    Forall (crashed Fixture.quad_grid) (SeedPool.procs s) /\
    SeedPool.tiles_queue s
      = map (fun item => work_item Fixture.quad_grid (fst item) (snd item))
            (firstn SeedPool.capacity (skipn 1 Scenario.seventeen_items)).
Proof.
  apply (@failing_cache_hangs Fixture.runtime Fixture.quad_grid
           (Fixture.load_raises Fixture.Broken) 1%nat
           Scenario.seventeen_items 0%nat).
  - lia.
  - vm_compute. lia.
  - intros t w0. exists Fixture.Broken. reflexivity.
Defined.

(** ** [TileSeeder.__init__] and [TileSeeder.seed_location] *)

Section SeederFacts.

Context {RT : Runtime}.
Variables cache srs : Type.
Variable grid_srs : cache -> srs.
Variable srs_eq : srs -> srs -> bool.
Variable _seed_location : cache -> world -> result exn unit * world.

Local Abbreviation seed_location :=
  (TileSeeder.seed_location grid_srs srs_eq _seed_location).
Local Abbreviation wanted := (TileSeeder.wanted grid_srs srs_eq).

Lemma collect_caches_closed (vl : list (TileSeeder.layer cache))
    (caches : list cache) :
  TileSeeder.collect_caches vl caches
  = if existsb TileSeeder.bare vl
    then Raised (TileSeeder.AttributeError "cache")
    else Ok (caches ++ flat_map TileSeeder.caches_of_layer vl).
Proof.
  revert caches. induction vl as [|l vl IH]; intros caches.
  - cbn. now rewrite app_nil_r.
  - cbn [TileSeeder.collect_caches existsb flat_map].
    unfold TileSeeder.bare at 1, TileSeeder.caches_of_layer at 1.
    destruct (TileSeeder.sources l) as [ss|].
    + cbn [orb]. rewrite IH. now rewrite <- app_assoc.
    + destruct (TileSeeder.layer_cache l) as [c|].
      * cbn [orb]. rewrite IH. now rewrite <- app_assoc.
      * reflexivity.
Qed.

(** X21: the caches of a new seeder.  The constructor raises
    [AttributeError] exactly when one of the layers it visits has neither
    [sources] nor [cache]; otherwise [self.caches] holds, layer by layer in
    order, the caches of the sources that have one when the layer has
    [sources] (the layer's own cache is then left out), and the layer's own
    cache when it has not. *)
Theorem init_collects_caches (v : TileSeeder.vlayer cache) :
  TileSeeder.__init__ v
  = if existsb TileSeeder.bare (TileSeeder.visited v)
    then Raised (TileSeeder.AttributeError "cache")
    else Ok (flat_map TileSeeder.caches_of_layer (TileSeeder.visited v)).
Proof.
  unfold TileSeeder.__init__. fold (TileSeeder.visited v).
  apply collect_caches_closed.
Qed.

(** X22: the caches that [seed_location] seeds.  [_seed_location] is
    called for the caches of the seeder that the view asks for, in the
    order of [self.caches] and each at most once; when the call returns, for
    all of them; when it raises, as far as the cache whose seeding raised
    that exception, and the caches behind it are not seeded. *)
Theorem seed_location_seeds_wanted (caches : list cache)
    (cache_srs : option (list srs)) (w : world) :
  exists rest,
    filter (wanted cache_srs) caches
    = TileSeeder.seeded (seed_location caches cache_srs w) ++ rest /\
    match TileSeeder.outcome (seed_location caches cache_srs w) with
    | Ok _ => rest = []
    | Raised e =>
        exists pre c w0,
          TileSeeder.seeded (seed_location caches cache_srs w) = pre ++ [c] /\
          fst (_seed_location c w0) = Raised e
    end.
Proof.
  revert w. induction caches as [|c caches IH]; intros w.
  - exists []. split; reflexivity.
  - cbn [TileSeeder.seed_location filter].
    destruct (wanted cache_srs c) eqn:Hwanted; [|apply IH].
    destruct (_seed_location c w) as [[[]|e] w1] eqn:Hcall.
    + destruct (IH w1) as [rest [Hsel Hend]].
      destruct (seed_location caches cache_srs w1) as [[r w2] called] eqn:Hrun.
      unfold TileSeeder.seeded, TileSeeder.outcome in *. cbn [fst snd] in *.
      exists rest. split; [cbn [app]; now rewrite Hsel|].
      destruct r as [u|e]; [exact Hend|].
      destruct Hend as [pre [c' [w0 [Hcalled Hraised]]]].
      exists (c :: pre), c', w0. split; [now rewrite Hcalled | exact Hraised].
    + unfold TileSeeder.seeded, TileSeeder.outcome. cbn [fst snd].
      exists (filter (wanted cache_srs) caches). split; [reflexivity|].
      exists [], c, w. split; [reflexivity|]. now rewrite Hcall.
Qed.

Lemma seeding_returns (caches : list cache) (cache_srs : option (list srs))
    (w : world) :
  (forall c w0, fst (_seed_location c w0) = Ok tt) ->
  TileSeeder.outcome (seed_location caches cache_srs w) = Ok tt /\
  TileSeeder.seeded (seed_location caches cache_srs w)
  = filter (wanted cache_srs) caches.
Proof.
  intros Hok. revert w. induction caches as [|c caches IH]; intros w.
  - split; reflexivity.
  - cbn [TileSeeder.seed_location filter].
    destruct (wanted cache_srs c); [|apply IH].
    pose proof (Hok c w) as Hc.
    destruct (_seed_location c w) as [[[]|e] w1]; cbn [fst] in Hc;
      [|discriminate].
    destruct (IH w1) as [Hout Hseeded].
    destruct (seed_location caches cache_srs w1) as [[r w2] called].
    unfold TileSeeder.seeded, TileSeeder.outcome in *. cbn [fst snd] in *.
    split; [exact Hout | now rewrite Hseeded].
Qed.

Lemma filter_all {A} (f : A -> bool) (l : list A) :
  (forall a, In a l -> f a = true) -> filter f l = l.
Proof.
  induction l as [|a l IH]; intros Hall; [reflexivity|].
  cbn [filter]. rewrite (Hall a (or_introl eq_refl)).
  f_equal. apply IH. intros b Hb. apply Hall. now right.
Qed.

Lemma filter_none {A} (f : A -> bool) (l : list A) :
  (forall a, In a l -> f a = false) -> filter f l = [].
Proof.
  induction l as [|a l IH]; intros Hall; [reflexivity|].
  cbn [filter]. rewrite (Hall a (or_introl eq_refl)).
  apply IH. intros b Hb. apply Hall. now right.
Qed.

(** X23: a view without [srs], or with an empty list of them, seeds every
    cache of the seeder: when no seeding raises, [seed_location] returns
    after [_seed_location] has been called for all of [self.caches], in
    their order. *)
Theorem seed_location_without_srs (caches : list cache)
    (cache_srs : option (list srs)) (w : world) :
  (forall c w0, fst (_seed_location c w0) = Ok tt) ->
  cache_srs = None \/ cache_srs = Some [] ->
  TileSeeder.outcome (seed_location caches cache_srs w) = Ok tt /\
  TileSeeder.seeded (seed_location caches cache_srs w) = caches.
Proof.
  intros Hok Hsrs.
  destruct (seeding_returns caches cache_srs w Hok) as [Hout Hseeded].
  split; [exact Hout|]. rewrite Hseeded. apply filter_all.
  intros c _. destruct Hsrs as [-> | ->]; reflexivity.
Qed.

(** X24: a view whose [srs] name none of the projections of the caches
    seeds nothing and says nothing: [seed_location] returns without a call
    of [_seed_location] and leaves the world as it was. *)
Theorem seed_location_foreign_srs (caches : list cache)
    (s : srs) (others : list srs) (w : world) :
  (forall c s', In c caches -> In s' (s :: others) ->
                srs_eq (grid_srs c) s' = false) ->
  seed_location caches (Some (s :: others)) w = (Ok tt, w, []).
Proof.
  intros Hforeign. induction caches as [|c caches IH]; [reflexivity|].
  cbn [TileSeeder.seed_location].
  assert (Hc : wanted (Some (s :: others)) c = false).
  { unfold TileSeeder.wanted. cbn [TileSeeder.is_falsy orb].
    apply not_true_is_false. intros Hex.
    apply existsb_exists in Hex. destruct Hex as [s' [Hin Heq]].
    rewrite (Hforeign c s' (or_introl eq_refl) Hin) in Heq. discriminate. }
  rewrite Hc. apply IH.
  intros c' s' Hc' Hs'. apply Hforeign; [now right | exact Hs'].
Qed.

End SeederFacts.

(** The three caches of the fixture, none of which fails, for a view
    with [srs: []]. *)
Lemma seed_location_without_srs_witness :
  TileSeeder.outcome
    (TileSeeder.seed_location (RT := Fixture.runtime) SeederFixture.srs_of
       String.eqb SeederFixture.always_seeds SeederFixture.three_caches
       (Some []) 0%nat) = Ok tt /\
  TileSeeder.seeded
    (TileSeeder.seed_location (RT := Fixture.runtime) SeederFixture.srs_of
       String.eqb SeederFixture.always_seeds SeederFixture.three_caches
       (Some []) 0%nat) = SeederFixture.three_caches.
Proof.
  apply (@seed_location_without_srs Fixture.runtime string string
           SeederFixture.srs_of String.eqb SeederFixture.always_seeds
           SeederFixture.three_caches (Some []) 0%nat).
  - intros c w0. reflexivity.
  - right. reflexivity.
Defined.

(** The three caches of the fixture for a view with [srs: ['EPSG:31467']]. *)
Lemma seed_location_foreign_srs_witness :
  TileSeeder.seed_location (RT := Fixture.runtime) SeederFixture.srs_of
    String.eqb SeederFixture.seeds SeederFixture.three_caches
    (Some ["EPSG:31467"%string]) 0%nat
  = (Ok tt, 0%nat, []).
Proof.
  apply (@seed_location_foreign_srs Fixture.runtime string string
           SeederFixture.srs_of String.eqb SeederFixture.seeds
           SeederFixture.three_caches "EPSG:31467"%string [] 0%nat).
  intros c s' Hc Hs'.
  destruct Hs' as [<- | []].
  repeat (destruct Hc as [<- | Hc]; [reflexivity|]). destruct Hc.
Defined.

(** The constructor and [seed_location] on the fixture: the cache of a
    layer with [sources] is not collected, and the cache behind the one
    that fails is not seeded. *)
Example init_multi_layer :
  TileSeeder.__init__ SeederFixture.multi_layer
  = Ok ["osm_900913"%string; "osm_4326"%string].
Proof. reflexivity. Qed.

Example seed_location_stops_at_broken :
  TileSeeder.seed_location (RT := Fixture.runtime) SeederFixture.srs_of
    String.eqb SeederFixture.seeds SeederFixture.three_caches None 0%nat
  = (Raised Fixture.Broken, 2%nat, ["osm_900913"%string; "broken"%string]).
Proof. reflexivity. Qed.

(** ** The traversal over a pyramid: what is emitted, and how often *)

Section Coverage.

Variable grid : MetaGrid.
Variable target : bbox grid.
Variable at_level : Z -> tile grid -> Prop.
Variables lo hi : Z.

Local Abbreviation is_pyramid := (pyramid grid target at_level lo hi).
Local Abbreviation lies_under := (under grid).
Local Abbreviation children := (children_of grid).
Local Abbreviation touched := (meets grid target).

Lemma emitted_tiles_app (evs evs' : list (seed_event grid)) :
  emitted_tiles (evs ++ evs') = emitted_tiles evs ++ emitted_tiles evs'.
Proof.
  unfold emitted_tiles. rewrite submitted_app. apply flat_map_app.
Qed.

Lemma emitted_tiles_concat (ls : list (list (seed_event grid))) :
  emitted_tiles (List.concat ls) = List.concat (map emitted_tiles ls).
Proof.
  induction ls as [|l ls IH]; [reflexivity|].
  cbn [List.concat map]. rewrite emitted_tiles_app, IH. reflexivity.
Qed.

Lemma emitted_tiles_frame cutoff cur_bbox level max_level id full_intersect
    (runs : list (list (seed_event grid))) :
  emitted_tiles
    (frame_head grid target cutoff cur_bbox level max_level id full_intersect
     ++ List.concat runs
     ++ [EvSubmit id (subtiles_of grid cur_bbox level)])
  = List.concat (map emitted_tiles runs)
    ++ present (subtiles_of grid cur_bbox level).
Proof.
  rewrite !emitted_tiles_app, emitted_tiles_concat.
  unfold emitted_tiles at 1.
  rewrite (submitted_none _ _ (frame_head_no_submit _ _ _ _ _ _ _ _)).
  cbn [flat_map app]. unfold emitted_tiles. cbn [submitted flat_map snd].
  rewrite app_nil_r. reflexivity.
Qed.

(** *** Lying under a meta-tile *)

Lemma under_level_lt l p l' t : lies_under l p l' t -> l < l'.
Proof. induction 1; lia. Qed.

Lemma under_at_level l p l' t :
  is_pyramid -> at_level l p -> lo <= l ->
  lies_under l p l' t -> l' <= hi -> at_level l' t.
Proof.
  intros Hp Hat Hlo Hu. induction Hu as [t Ht | l' q t Hu IH Ht]; intros Hhi.
  - apply (children_level _ _ _ _ _ Hp l p t); [lia | assumption | assumption].
  - pose proof (under_level_lt _ _ _ _ Hu).
    apply (children_level _ _ _ _ _ Hp l' q t); [lia | apply IH; lia | assumption].
Qed.

Lemma under_cons l p q l' t :
  In q (children l p) -> lies_under (l + 1) q l' t -> lies_under l p l' t.
Proof.
  intros Hq Hu. induction Hu as [t Ht | l' r t Hu IH Ht].
  - apply under_step with (q := q); [apply under_child; exact Hq | exact Ht].
  - apply under_step with (q := r); [exact IH | exact Ht].
Qed.

Lemma under_head l p l' t :
  lies_under l p l' t ->
  (l' = l + 1 /\ In t (children l p)) \/
  exists q, In q (children l p) /\ lies_under (l + 1) q l' t.
Proof.
  induction 1 as [t Ht | l' q t Hu IH Ht].
  - left. split; [reflexivity | exact Ht].
  - right. destruct IH as [[-> Hq] | [q0 [Hq0 Hu0]]].
    + exists q. split; [exact Hq | apply under_child; exact Ht].
    + exists q0. split; [exact Hq0|].
      apply under_step with (q := q); assumption.
Qed.

Lemma under_meets l p l' t :
  is_pyramid -> at_level l p -> lo <= l ->
  lies_under l p l' t -> l' <= hi -> touched t = true -> touched p = true.
Proof.
  intros Hp Hat Hlo Hu. induction Hu as [t Ht | l' q t Hu IH Ht]; intros Hhi Hm.
  - apply (parent_meets _ _ _ _ _ Hp l p t); try assumption. lia.
  - pose proof (under_level_lt _ _ _ _ Hu).
    apply IH; [lia|].
    apply (parent_meets _ _ _ _ _ Hp l' q t); try assumption; [lia|].
    apply (under_at_level l p l' q); try assumption. lia.
Qed.

Lemma under_unique l p p' l' t :
  is_pyramid -> at_level l p -> at_level l p' -> lo <= l ->
  lies_under l p l' t -> lies_under l p' l' t -> l' <= hi -> p = p'.
Proof.
  intros Hp Hat Hat' Hlo Hu. revert p' Hat'.
  induction Hu as [t Ht | l' q t Hu IH Ht]; intros p' Hat' Hu' Hhi.
  - inversion Hu' as [t' Ht' El | l'' q' t' Hu'' Ht' El]; subst.
    + apply (parent_unique _ _ _ _ _ Hp l p p' t); try assumption. lia.
    + assert (l'' = l) by lia. subst l''.
      pose proof (under_level_lt _ _ _ _ Hu''). lia.
  - pose proof (under_level_lt _ _ _ _ Hu) as Hlt.
    inversion Hu' as [t' Ht' El | l'' q' t' Hu'' Ht' El]; subst.
    + assert (l' = l) by lia. lia.
    + assert (l'' = l') by lia. subst l''.
      assert (q = q').
      { apply (parent_unique _ _ _ _ _ Hp l' q q' t); try assumption;
          [lia | apply (under_at_level l p l' q) | apply (under_at_level l p' l' q')];
          try assumption; lia. }
      subst q'. apply IH; try assumption. lia.
Qed.

(** *** Lists *)

Lemma NoDup_append {A} (l l' : list A) :
  NoDup l -> NoDup l' -> (forall a, In a l -> ~ In a l') -> NoDup (l ++ l').
Proof.
  intros Hl Hl' Hd. induction Hl as [|a l Ha Hl IH]; [exact Hl'|].
  cbn [app]. constructor.
  - rewrite in_app_iff. intros [H | H]; [contradiction|].
    apply (Hd a); [left; reflexivity | exact H].
  - apply IH. intros b Hb. apply Hd. right. exact Hb.
Qed.

Lemma NoDup_filter_keeps {A} (f : A -> bool) (l : list A) :
  NoDup l -> NoDup (filter f l).
Proof.
  induction 1 as [|a l Ha Hl IH]; [constructor|].
  cbn [filter]. destruct (f a); [|exact IH].
  constructor; [|exact IH]. rewrite filter_In. tauto.
Qed.

Lemma Forall2_impl_In {A B} (R R' : A -> B -> Prop) (l : list A) (l' : list B) :
  Forall2 R l l' ->
  (forall a b, In a l -> R a b -> R' a b) ->
  Forall2 R' l l'.
Proof.
  induction 1 as [|a b l l' Hab _ IH]; intros Himp; constructor.
  - apply Himp; [left; reflexivity | exact Hab].
  - apply IH. intros a' b' Hin. apply Himp. right. exact Hin.
Qed.

Lemma Forall2_map_right {A B C} (R : A -> C -> Prop) (f : B -> C)
    (l : list A) (l' : list B) :
  Forall2 (fun a b => R a (f b)) l l' -> Forall2 R l (map f l').
Proof. induction 1; constructor; assumption. Qed.

Lemma Forall2_In_concat {A B} (R : A -> list B -> Prop)
    (l : list A) (ls : list (list B)) (t : B) :
  Forall2 R l ls -> In t (List.concat ls) ->
  exists a em, In a l /\ R a em /\ In t em.
Proof.
  induction 1 as [|a em l ls Ha _ IH]; cbn [List.concat]; [contradiction|].
  rewrite in_app_iff. intros [H | H].
  - exists a, em. split; [left; reflexivity | split; assumption].
  - destruct (IH H) as [a' [em' [Hin [HR Ht]]]].
    exists a', em'. split; [right; exact Hin | split; assumption].
Qed.

Lemma Forall2_concat_In {A B} (R : A -> list B -> Prop)
    (l : list A) (ls : list (list B)) (a : A) :
  Forall2 R l ls -> In a l ->
  exists em, R a em /\ forall t, In t em -> In t (List.concat ls).
Proof.
  induction 1 as [|a' em l ls Ha _ IH]; [contradiction|].
  cbn [List.concat]. intros [-> | Hin].
  - exists em. split; [exact Ha|]. intros t Ht. apply in_or_app. now left.
  - destruct (IH Hin) as [em' [HR Hsub]].
    exists em'. split; [exact HR|]. intros t Ht. apply in_or_app. right.
    apply Hsub. exact Ht.
Qed.

Lemma NoDup_concat_owned {A B} (own : A -> B -> Prop)
    (l : list A) (ls : list (list B)) :
  NoDup l ->
  Forall2 (fun a em => NoDup em /\ forall t, In t em -> own a t) l ls ->
  (forall a a' t, In a l -> In a' l -> own a t -> own a' t -> a = a') ->
  NoDup (List.concat ls).
Proof.
  intros Hnd HF. induction HF as [|a em l ls [Hem Hown] HF IH]; intros Huniq.
  - constructor.
  - inversion Hnd as [|a0 l0 Ha Hl]; subst. cbn [List.concat].
    apply NoDup_append; [exact Hem | |].
    + apply IH; [exact Hl|]. intros b b' t Hb Hb'. apply Huniq; now right.
    + intros t Ht Hin.
      destruct (Forall2_In_concat _ _ _ _ HF Hin) as [b [em' [Hb [[_ Hown'] Ht']]]].
      assert (a = b).
      { apply (Huniq a b t); [now left | now right | apply Hown; exact Ht
                             | apply Hown'; exact Ht']. }
      subst b. contradiction.
Qed.

(** *** A frame whose child frames cover their parts covers its own *)

Lemma selected_touched (full_intersect : bool) (c : tile grid) :
  full_intersect = true \/ touched c = true ->
  selected grid target full_intersect c = true.
Proof.
  intros [-> | Hm]; [reflexivity|].
  destruct full_intersect; [reflexivity|].
  rewrite selected_not_disjoint. exact Hm.
Qed.

Lemma frame_covers_leaf (listed : list (tile grid)) (level : Z)
    (full_intersect : bool) :
  hi <= level -> NoDup listed ->
  frame_covers grid target at_level hi listed level full_intersect listed.
Proof.
  intros Hlevel Hnd. split; [|split; [|split]].
  - intros t Ht. exact Ht.
  - intros t Ht. left. exact Ht.
  - exact Hnd.
  - intros c l' t _ _ Hu Hhi _.
    pose proof (under_level_lt _ _ _ _ Hu). lia.
Qed.

Lemma frame_covers_step (listed : list (tile grid)) (level : Z)
    (full_intersect : bool) (ems : list (list (tile grid))) :
  is_pyramid -> lo <= level < hi -> NoDup listed ->
  (forall t, In t listed -> at_level level t) ->
  Forall2 (fun c em =>
             frame_covers grid target at_level hi (children level c)
               (level + 1) (classify grid target full_intersect c =? -1) em)
          (filter (selected grid target full_intersect) listed) ems ->
  frame_covers grid target at_level hi listed level full_intersect
    (List.concat ems ++ listed).
Proof.
  intros Hp Hlevel Hnd Hat HF.
  set (chosen := filter (selected grid target full_intersect) listed) in *.
  assert (Hchosen : forall c, In c chosen -> In c listed /\ at_level level c).
  { intros c Hc. apply filter_In in Hc. destruct Hc as [Hc _].
    split; [exact Hc | apply Hat; exact Hc]. }
  (* what a child frame emits lies under its meta-tile *)
  assert (Hown : forall c em t,
             In c chosen ->
             frame_covers grid target at_level hi (children level c)
               (level + 1) (classify grid target full_intersect c =? -1) em ->
             In t em -> exists l', lies_under level c l' t /\ l' <= hi).
  { intros c em t Hc [_ [Hsub _]] Ht.
    destruct (Hsub t Ht) as [Hin | [c0 [l' [Hc0 [Hu Hhi]]]]].
    - exists (level + 1). split; [apply under_child; exact Hin | lia].
    - exists l'. split; [|exact Hhi]. eapply under_cons; eassumption. }
  split; [|split; [|split]].
  - intros t Ht. apply in_or_app. now right.
  - intros t Ht. apply in_app_or in Ht. destruct Ht as [Ht | Ht]; [|now left].
    right. destruct (Forall2_In_concat _ _ _ _ HF Ht) as [c [em [Hc [Hcov Hin]]]].
    destruct (Hown c em t Hc Hcov Hin) as [l' [Hu Hhi]].
    exists c, l'. split; [apply Hchosen; exact Hc | split; assumption].
  - apply NoDup_append; [|exact Hnd|].
    + apply (NoDup_concat_owned
               (fun c t => at_level level c /\
                           exists l', lies_under level c l' t /\ l' <= hi)
               chosen ems).
      * apply NoDup_filter_keeps. exact Hnd.
      * eapply Forall2_impl_In; [exact HF|].
        intros c em Hc Hcov. split; [apply Hcov|].
        intros t Ht. split; [apply Hchosen; exact Hc|].
        apply (Hown c em t Hc Hcov Ht).
      * intros c c' t Hc Hc' [Hatc [l1 [Hu1 Hh1]]] [Hatc' [l2 [Hu2 Hh2]]].
        assert (l1 = l2).
        { apply (levels_apart _ _ _ _ _ Hp l1 l2 t);
            [apply (under_at_level level c l1 t)
            | apply (under_at_level level c' l2 t)]; try assumption; lia. }
        subst l2.
        apply (under_unique level c c' l1 t); try assumption. lia.
    + intros t Ht Hin.
      destruct (Forall2_In_concat _ _ _ _ HF Ht) as [c [em [Hc [Hcov Hem]]]].
      destruct (Hown c em t Hc Hcov Hem) as [l' [Hu Hhi]].
      pose proof (under_level_lt _ _ _ _ Hu) as Hlt.
      assert (l' = level); [|lia].
      apply (levels_apart _ _ _ _ _ Hp l' level t); [|apply Hat; exact Hin].
      apply (under_at_level level c l' t); try assumption;
        [apply Hchosen; exact Hc | lia].
  - intros c l' t Hc Hsel Hu Hhi Hm.
    assert (Hcc : In c chosen).
    { apply filter_In. split; [exact Hc | apply selected_touched; exact Hsel]. }
    destruct (Forall2_concat_In _ _ _ c HF Hcc) as [em [[Hall [_ [_ Hdeep]]] Hsub]].
    apply in_or_app. left. apply Hsub.
    destruct (under_head _ _ _ _ Hu) as [[-> Hin] | [q [Hq Hu']]].
    + apply Hall. exact Hin.
    + apply (Hdeep q l' t); try assumption.
      right. apply (under_meets (level + 1) q l' t); try assumption; [|lia].
      apply (children_level _ _ _ _ _ Hp level c q); try assumption.
      apply Hat. exact Hc.
Qed.

(** *** Every frame of the traversal covers its part *)

Lemma frames_cover (cutoff : Z) :
  is_pyramid ->
  forall cur_bbox level id full_intersect,
  exists tr,
    frame_run grid target cutoff cur_bbox level hi id full_intersect tr /\
    (lo <= level ->
     NoDup (present (subtiles_of grid cur_bbox level)) ->
     (forall t, In t (present (subtiles_of grid cur_bbox level)) ->
                at_level level t) ->
     frame_covers grid target at_level hi
       (present (subtiles_of grid cur_bbox level)) level full_intersect
       (emitted_tiles tr)).
Proof.
  intros Hp.
  apply (frame_run_induct grid target cutoff hi
           (fun cur_bbox level id full_intersect tr =>
              lo <= level ->
              NoDup (present (subtiles_of grid cur_bbox level)) ->
              (forall t, In t (present (subtiles_of grid cur_bbox level)) ->
                         at_level level t) ->
              frame_covers grid target at_level hi
                (present (subtiles_of grid cur_bbox level)) level full_intersect
                (emitted_tiles tr))).
  intros cur_bbox level id full_intersect runs sub_seeds Hruns Hlo Hnd Hat.
  rewrite emitted_tiles_frame.
  destruct (level <? hi) eqn:Hlt.
  - apply Z.ltb_lt in Hlt.
    apply frame_covers_step; try assumption; [lia|].
    unfold sub_seeds in Hruns. rewrite collect_sub_seeds_spec in Hruns.
    cbn [fst] in Hruns.
    apply Forall2_enumerate_map in Hruns.
    apply Forall2_map_right.
    eapply Forall2_impl_In; [exact Hruns|].
    intros c tr Hc [i [s [_ [_ HQ]]]]. cbn [fst snd] in HQ.
    apply filter_In in Hc. destruct Hc as [Hc _].
    apply HQ; [lia | |].
    + apply (children_once _ _ _ _ _ Hp level c); [lia | apply Hat; exact Hc].
    + intros t Ht.
      apply (children_level _ _ _ _ _ Hp level c t);
        [lia | apply Hat; exact Hc | exact Ht].
  - apply Z.ltb_ge in Hlt. subst runs. cbn [map List.concat app].
    apply frame_covers_leaf; assumption.
Qed.

(** Every meta-tile below the first level that meets the target lies
    under a meta-tile of the first level that meets the target. *)
Lemma ancestor_at_root (n : nat) :
  is_pyramid ->
  forall t, at_level (lo + 1 + Z.of_nat n) t -> lo + 1 + Z.of_nat n <= hi ->
    touched t = true ->
    exists c, at_level lo c /\ touched c = true /\
              lies_under lo c (lo + 1 + Z.of_nat n) t.
Proof.
  intros Hp. induction n as [|n IH]; intros t Hat Hhi Hm.
  - replace (lo + 1 + Z.of_nat 0) with (lo + 1) in * by lia.
    destruct (parent_exists _ _ _ _ _ Hp lo t ltac:(lia) Hat) as [p [Hp1 Hp2]].
    exists p. split; [exact Hp1|]. split; [|apply under_child; exact Hp2].
    apply (parent_meets _ _ _ _ _ Hp lo p t); try assumption. lia.
  - replace (lo + 1 + Z.of_nat (S n)) with (lo + 1 + Z.of_nat n + 1) in * by lia.
    destruct (parent_exists _ _ _ _ _ Hp (lo + 1 + Z.of_nat n) t ltac:(lia) Hat)
      as [p [Hp1 Hp2]].
    assert (Hpm : touched p = true).
    { apply (parent_meets _ _ _ _ _ Hp (lo + 1 + Z.of_nat n) p t);
        try assumption. lia. }
    destruct (IH p Hp1 ltac:(lia) Hpm) as [c [Hc1 [Hc2 Hc3]]].
    exists c. split; [exact Hc1|]. split; [exact Hc2|].
    apply under_step with (q := p); assumption.
Qed.

(** The traversal of a pyramid: nothing is emitted twice, and every
    meta-tile of a level from [lo] to [hi] that meets the target is
    emitted. *)
Lemma traversal_covers (cutoff : Z) :
  is_pyramid -> lo <= hi ->
  exists tr,
    frame_run grid target cutoff target lo hi EmptyString false tr /\
    NoDup (emitted_tiles tr) /\
    (forall l t, lo <= l <= hi -> at_level l t -> touched t = true ->
                 In t (emitted_tiles tr)) /\
    (forall t, In t (emitted_tiles tr) ->
               exists l, lo <= l <= hi /\ at_level l t).
Proof.
  intros Hp Hlohi.
  destruct (frames_cover cutoff Hp target lo EmptyString false) as [tr [Hrun Hcov]].
  specialize (Hcov (Z.le_refl lo) (root_once _ _ _ _ _ Hp)
                   (root_listed _ _ _ _ _ Hp)).
  destruct Hcov as [Hall [Hsub [Hnd Hdeep]]].
  exists tr. split; [exact Hrun|]. split; [exact Hnd|]. split.
  - intros l t Hl Hat Hm.
    destruct (Z.eq_dec l lo) as [-> | Hne].
    + apply Hall. apply (root_complete _ _ _ _ _ Hp t); assumption.
    + set (n := Z.to_nat (l - lo - 1)).
      assert (El : l = lo + 1 + Z.of_nat n) by (unfold n; lia).
      rewrite El in Hat.
      destruct (ancestor_at_root n Hp t Hat ltac:(lia) Hm) as [c [Hc1 [Hc2 Hc3]]].
      apply (Hdeep c (lo + 1 + Z.of_nat n) t); try assumption; try lia.
      * apply (root_complete _ _ _ _ _ Hp c); assumption.
      * right. exact Hc2.
  - intros t Ht. destruct (Hsub t Ht) as [Hin | [c [l' [Hc [Hu Hhi]]]]].
    + exists lo. split; [lia | apply (root_listed _ _ _ _ _ Hp t Hin)].
    + pose proof (under_level_lt _ _ _ _ Hu).
      exists l'. split; [lia|].
      apply (under_at_level lo c l' t); try assumption; [|lia].
      apply (root_listed _ _ _ _ _ Hp c Hc).
Qed.

End Coverage.

(** ** The quad-tree grid of the fixture is a pyramid *)

Lemma present_app {grid : MetaGrid} (a b : batch grid) :
  present (a ++ b) = present a ++ present b.
Proof.
  induction a as [|[t|] a IH]; cbn [app present]; [reflexivity | now rewrite IH | exact IH].
Qed.

Lemma In_present {grid : MetaGrid} (b : batch grid) (t : tile grid) :
  In t (present b) <-> In (Some t) b.
Proof.
  induction b as [|[t'|] b IH]; cbn [present In].
  - tauto.
  - rewrite IH. split; intros [H | H]; try (now right).
    + left. now subst.
    + left. now injection H.
  - rewrite IH. split; [now right | intros [H | H]; [discriminate | exact H]].
Qed.

Lemma In_present_rows {grid : MetaGrid} (g : Z -> Z -> option (tile grid))
    (xs ys : list Z) (t : tile grid) :
  In t (present (flat_map (fun y => map (fun x => g x y) xs) ys)) <->
  exists x y, In x xs /\ In y ys /\ g x y = Some t.
Proof.
  rewrite In_present, in_flat_map. split.
  - intros [y [Hy Hin]]. apply in_map_iff in Hin. destruct Hin as [x [E Hx]].
    exists x, y. auto.
  - intros [x [y [Hx [Hy E]]]]. exists y. split; [exact Hy|].
    apply in_map_iff. exists x. auto.
Qed.

Lemma NoDup_present_row {grid : MetaGrid} (g : Z -> option (tile grid))
    (xs : list Z) :
  NoDup xs ->
  (forall x x' t, g x = Some t -> g x' = Some t -> x = x') ->
  NoDup (present (map g xs)).
Proof.
  intros Hnd Hinj. induction Hnd as [|x xs Hx Hnd IH]; [constructor|].
  cbn [map present]. destruct (g x) as [t|] eqn:E; [|exact IH].
  constructor; [|exact IH].
  rewrite In_present, in_map_iff. intros [x' [E' Hx']].
  assert (x = x') by (apply (Hinj x x' t); assumption). now subst.
Qed.

Lemma NoDup_present_rows {grid : MetaGrid} (g : Z -> Z -> option (tile grid))
    (xs ys : list Z) :
  NoDup xs -> NoDup ys ->
  (forall x y x' y' t, g x y = Some t -> g x' y' = Some t -> x = x' /\ y = y') ->
  NoDup (present (flat_map (fun y => map (fun x => g x y) xs) ys)).
Proof.
  intros Hxs Hys Hinj. induction Hys as [|y ys Hy Hys IH]; [constructor|].
  cbn [flat_map]. rewrite present_app. apply NoDup_append.
  - apply (NoDup_present_row (fun x => g x y)); [exact Hxs|].
    intros x x' t E E'. apply (Hinj x y x' y t); assumption.
  - exact IH.
  - intros t Ht Ht'.
    apply In_present, in_map_iff in Ht. destruct Ht as [x [E _]].
    apply In_present_rows in Ht'. destruct Ht' as [x' [y' [_ [Hy' E']]]].
    destruct (Hinj x y x' y' t E E') as [_ ->]. contradiction.
Qed.

Lemma In_zrange (a : Z) (n : nat) (x : Z) :
  In x (Fixture.zrange a n) <-> a <= x < a + Z.of_nat n.
Proof.
  unfold Fixture.zrange. rewrite in_map_iff. split.
  - intros [k [E Hk]]. apply in_seq in Hk. lia.
  - intros H. exists (Z.to_nat (x - a)). split; [lia|]. apply in_seq. lia.
Qed.

Lemma NoDup_zrange (a : Z) (n : nat) : NoDup (Fixture.zrange a n).
Proof.
  unfold Fixture.zrange. generalize 0%nat.
  induction n as [|n IH]; intros s; cbn [seq map]; constructor.
  - rewrite in_map_iff. intros [k [E Hk]]. apply in_seq in Hk. lia.
  - apply IH.
Qed.

Lemma tile_size_pow (l : Z) :
  0 <= l <= 100 -> Fixture.tile_size l = 2 ^ (100 - l).
Proof.
  intros Hl. unfold Fixture.tile_size, Fixture.extent.
  replace 100 with ((100 - l) + l) at 1 by lia.
  rewrite Z.pow_add_r by lia. apply Z.div_mul. apply Z.pow_nonzero; lia.
Qed.

Lemma tile_size_pos (l : Z) : 0 <= l <= 100 -> 1 <= Fixture.tile_size l.
Proof.
  intros Hl. rewrite tile_size_pow by exact Hl.
  pose proof (Z.pow_pos_nonneg 2 (100 - l)). lia.
Qed.

Lemma tile_size_halves (l : Z) :
  0 <= l < 100 -> Fixture.tile_size l = 2 * Fixture.tile_size (l + 1).
Proof.
  intros Hl. rewrite !tile_size_pow by lia.
  replace (100 - l) with (1 + (100 - (l + 1))) by lia.
  rewrite Z.pow_add_r by lia. reflexivity.
Qed.

(** The tiles listed for a box at a level: those of the grid whose
    column and row overlap the box. *)
Lemma quad_listed (minx miny maxx maxy l : Z) (t : Fixture.coord) :
  In t (present (subtiles_of Fixture.quad_grid (minx, miny, maxx, maxy) l)) <->
  exists x y, t = (x, y, l) /\ Fixture.in_grid l x y = true /\
    minx / Fixture.tile_size l <= x <= (maxx - 1) / Fixture.tile_size l /\
    miny / Fixture.tile_size l <= y <= (maxy - 1) / Fixture.tile_size l.
Proof.
  unfold subtiles_of. cbn [get_affected_level_tiles Fixture.quad_grid].
  unfold Fixture.quad_affected. cbn [snd].
  rewrite (In_present_rows (grid := Fixture.quad_grid)
             (fun x y => if Fixture.in_grid l x y then Some (x, y, l) else None)).
  split.
  - intros [x [y [Hx [Hy E]]]]. apply In_zrange in Hx, Hy.
    destruct (Fixture.in_grid l x y) eqn:Hg; [|discriminate].
    injection E as <-. exists x, y. repeat split; try lia. exact Hg.
  - intros [x [y [-> [Hg [Hx Hy]]]]]. exists x, y.
    rewrite !In_zrange, Hg. repeat split; lia.
Qed.

Lemma quad_listed_once (b : Fixture.box) (l : Z) :
  NoDup (present (subtiles_of Fixture.quad_grid b l)).
Proof.
  destruct b as [[[minx miny] maxx] maxy].
  unfold subtiles_of. cbn [get_affected_level_tiles Fixture.quad_grid].
  unfold Fixture.quad_affected. cbn [snd].
  apply (NoDup_present_rows (grid := Fixture.quad_grid)
           (fun x y => if Fixture.in_grid l x y then Some (x, y, l) else None));
    try apply NoDup_zrange.
  intros x y x' y' t E E'.
  destruct (Fixture.in_grid l x y); [|discriminate].
  destruct (Fixture.in_grid l x' y'); [|discriminate].
  injection E as <-. injection E' as -> ->. split; reflexivity.
Qed.

(** The tiles listed under the tile [(px, py, l)]: its four quarters. *)
Lemma quad_children (px py l : Z) (t : Fixture.coord) :
  0 <= l < 100 ->
  In t (children_of Fixture.quad_grid l (px, py, l)) <->
  exists x y, t = (x, y, l + 1) /\ Fixture.in_grid (l + 1) x y = true /\
    2 * px <= x <= 2 * px + 1 /\ 2 * py <= y <= 2 * py + 1.
Proof.
  intros Hl. unfold children_of.
  cbn [meta_bbox Fixture.quad_grid Fixture.quad_meta_bbox].
  rewrite quad_listed. rewrite (tile_size_halves l Hl).
  pose proof (tile_size_pos (l + 1) ltac:(lia)) as Hs.
  set (s := Fixture.tile_size (l + 1)) in *.
  assert (E0 : forall p, p * (2 * s) / s = 2 * p).
  { intros p. replace (p * (2 * s)) with (2 * p * s) by ring.
    apply Z.div_mul. lia. }
  assert (E1 : forall p, ((p + 1) * (2 * s) - 1) / s = 2 * p + 1).
  { intros p. replace ((p + 1) * (2 * s) - 1) with ((2 * p + 1) * s + (s - 1)) by ring.
    rewrite Z.div_add_l by lia. rewrite Z.div_small by lia. lia. }
  rewrite !E0, !E1. reflexivity.
Qed.

Lemma in_grid_bounds (l x y : Z) :
  Fixture.in_grid l x y = true <-> 0 <= x < 2 ^ l /\ 0 <= y < 2 ^ l.
Proof.
  unfold Fixture.in_grid. rewrite !andb_true_iff, !Z.leb_le, !Z.ltb_lt. lia.
Qed.

Lemma quad_meets_parent (target : Fixture.box) (px py x y l : Z) :
  0 <= l < 100 ->
  2 * px <= x <= 2 * px + 1 -> 2 * py <= y <= 2 * py + 1 ->
  meets Fixture.quad_grid target (x, y, l + 1) = true ->
  meets Fixture.quad_grid target (px, py, l) = true.
Proof.
  intros Hl Hx Hy. destruct target as [[[minx miny] maxx] maxy].
  unfold meets.
  cbn [meta_bbox bbox_contains bbox_intersects Fixture.quad_grid
       Fixture.quad_meta_bbox Fixture.box_contains Fixture.box_intersects].
  rewrite (tile_size_halves l Hl).
  pose proof (tile_size_pos (l + 1) ltac:(lia)) as Hs.
  set (s := Fixture.tile_size (l + 1)) in *.
  rewrite !orb_true_iff, !andb_true_iff, !Z.leb_le, !Z.ltb_lt.
  intros H. right. nia.
Qed.

(** The quad-tree grid is a pyramid between any two of its levels, for
    every target. *)
Lemma quad_pyramid (target : Fixture.box) (lo hi : Z) :
  0 <= lo -> lo <= hi -> hi <= 100 ->
  pyramid Fixture.quad_grid target quad_at_level lo hi.
Proof.
  intros Hlo Hlohi Hhi. split.
  - intros t Ht. destruct target as [[[minx miny] maxx] maxy].
    apply quad_listed in Ht. destruct Ht as [x [y [-> [Hg _]]]].
    cbn. repeat split; try lia. exact Hg.
  - intros [[x y] l] [-> [_ Hg]] Hm.
    destruct target as [[[minx miny] maxx] maxy].
    apply quad_listed. exists x, y. split; [reflexivity|]. split; [exact Hg|].
    pose proof (tile_size_pos lo ltac:(lia)) as Hs.
    revert Hm. unfold meets.
    cbn [meta_bbox bbox_contains bbox_intersects Fixture.quad_grid
         Fixture.quad_meta_bbox Fixture.box_contains Fixture.box_intersects].
    set (s := Fixture.tile_size lo) in *.
    rewrite !orb_true_iff, !andb_true_iff, !Z.leb_le, !Z.ltb_lt.
    intros Hm.
    assert (Hx : minx < (x + 1) * s /\ x * s <= maxx - 1) by nia.
    assert (Hy : miny < (y + 1) * s /\ y * s <= maxy - 1) by nia.
    repeat split.
    + apply Z.lt_succ_r. apply Z.div_lt_upper_bound; [lia|]. nia.
    + apply Z.div_le_lower_bound; [lia|]. nia.
    + apply Z.lt_succ_r. apply Z.div_lt_upper_bound; [lia|]. nia.
    + apply Z.div_le_lower_bound; [lia|]. nia.
  - apply quad_listed_once.
  - intros l [[px py] pl] t Hl [-> _] Ht.
    apply quad_children in Ht; [|lia].
    destruct Ht as [x [y [-> [Hg _]]]].
    cbn. repeat split; try lia. exact Hg.
  - intros l p _ _. apply quad_listed_once.
  - intros l [[x y] tl] Hl [-> [_ Hg]].
    exists (x / 2, y / 2, l). split.
    + cbn. split; [reflexivity|]. split; [lia|].
      apply in_grid_bounds in Hg. apply in_grid_bounds.
      rewrite Z.pow_add_r in Hg by lia. change (2 ^ 1) with 2 in Hg.
      pose proof (Z.div_mod x 2 ltac:(lia)).
      pose proof (Z.mod_pos_bound x 2 ltac:(lia)).
      pose proof (Z.div_mod y 2 ltac:(lia)).
      pose proof (Z.mod_pos_bound y 2 ltac:(lia)).
      lia.
    + apply quad_children; [lia|]. exists x, y.
      split; [reflexivity|]. split; [exact Hg|].
      pose proof (Z.div_mod x 2 ltac:(lia)).
      pose proof (Z.mod_pos_bound x 2 ltac:(lia)).
      pose proof (Z.div_mod y 2 ltac:(lia)).
      pose proof (Z.mod_pos_bound y 2 ltac:(lia)).
      lia.
  - intros l [[px py] pl] [[px' py'] pl'] t Hl [-> _] [-> _] Ht Ht'.
    apply quad_children in Ht; [|lia]. apply quad_children in Ht'; [|lia].
    destruct Ht as [x [y [-> [_ [Hx Hy]]]]].
    destruct Ht' as [x' [y' [E [_ [Hx' Hy']]]]].
    injection E as <- <-.
    assert (px = px') by lia. assert (py = py') by lia. now subst.
  - intros l [[px py] pl] t Hl [-> _] Ht.
    apply quad_children in Ht; [|lia].
    destruct Ht as [x [y [-> [_ [Hx Hy]]]]].
    apply quad_meets_parent; [lia | exact Hx | exact Hy].
  - intros l l' [[x y] tl] [E _] [E' _]. lia.
Qed.

(** On the quad-tree grid, for every target and every range of levels:
    nothing is emitted twice, every tile of the range whose box is not
    disjoint from the target is emitted, and only tiles of the range
    are. *)
Lemma quad_grid_covered (target : Fixture.box) (cutoff lo hi : Z) :
  0 <= lo -> lo <= hi -> hi <= 100 ->
  exists tr,
    frame_run Fixture.quad_grid target cutoff target lo hi EmptyString false tr /\
    NoDup (emitted_tiles tr) /\
    (forall x y l, lo <= l <= hi -> Fixture.in_grid l x y = true ->
       meets Fixture.quad_grid target (x, y, l) = true ->
       In (x, y, l) (emitted_tiles tr)) /\
    (forall x y l, In (x, y, l) (emitted_tiles tr) ->
       lo <= l <= hi /\ Fixture.in_grid l x y = true).
Proof.
  intros Hlo Hlohi Hhi.
  destruct (traversal_covers Fixture.quad_grid target quad_at_level lo hi cutoff
              (quad_pyramid target lo hi Hlo Hlohi Hhi) Hlohi)
    as [tr [Hrun [Hnd [Hall Honly]]]].
  exists tr. split; [exact Hrun|]. split; [exact Hnd|]. split.
  - intros x y l Hl Hg Hm. apply (Hall l (x, y, l)); try assumption.
    cbn. repeat split; try lia. exact Hg.
  - intros x y l Hin. destruct (Honly (x, y, l) Hin) as [l' [Hl' [-> [_ Hg]]]].
    split; [lia | exact Hg].
Qed.

(** C1, amended: every frame of the traversal submits one batch, its
    whole tile list, after the batches of its child frames; below
    [max_level] it has one child frame for each tile of the list that is
    present and selected, in the order of the list: every present tile
    when the frame is a full-intersect frame, and otherwise the tiles
    whose meta-tile box is contained in the target or intersects it; the
    child frame of [t] runs on [meta_bbox(t)] at the next level.  On a
    grid that is a pyramid between [lo] and [hi], with [lo <= hi], the
    traversal started by [_seed(bbox, lo, hi)] returns; every meta-tile
    of a level from [lo] to [hi] whose box is contained in the target or
    intersects it is emitted, no meta-tile is emitted twice, and what is
    emitted is a meta-tile of a level from [lo] to [hi].  A meta-tile
    whose box is disjoint from the target is emitted too, when it is
    listed for a meta-tile that is not. *)
Theorem seed_coverage (grid : MetaGrid) (target : bbox grid) (cutoff : Z) :
  (forall (cur_bbox : bbox grid) (level max_level : Z) (id : string)
          (full_intersect : bool),
   exists (tr : list (seed_event grid)) (children : list (list (seed_event grid))),
     frame_run grid target cutoff cur_bbox level max_level id full_intersect tr /\
     submitted tr
     = flat_map submitted children ++ [(id, subtiles_of grid cur_bbox level)] /\
     (if level <? max_level then
        Forall2 (fun t child => exists id',
                   frame_run grid target cutoff (meta_bbox grid t) (level + 1)
                             max_level id'
                             (classify grid target full_intersect t =? -1) child)
                (filter (selected grid target full_intersect)
                        (present (subtiles_of grid cur_bbox level)))
                children
      else children = []) /\
     (forall t, selected grid target false t
                = bbox_contains grid target (meta_bbox grid t)
                  || bbox_intersects grid target (meta_bbox grid t)) /\
     (forall t, selected grid target true t = true)) /\
  (forall (at_level : Z -> tile grid -> Prop) (lo hi : Z),
     lo <= hi -> pyramid grid target at_level lo hi ->
     exists tr : list (seed_event grid),
       frame_run grid target cutoff target lo hi EmptyString false tr /\
       NoDup (emitted_tiles tr) /\
       (forall l t, lo <= l <= hi -> at_level l t ->
          bbox_contains grid target (meta_bbox grid t)
          || bbox_intersects grid target (meta_bbox grid t) = true ->
          In t (emitted_tiles tr)) /\
       (forall t, In t (emitted_tiles tr) ->
          exists l, lo <= l <= hi /\ at_level l t)).
Proof.
  split.
  - intros cur_bbox level max_level id full_intersect.
    apply seed_frame_children.
  - intros at_level lo hi Hlohi Hp.
    apply (traversal_covers grid target at_level lo hi cutoff Hp Hlohi).
Qed.

Lemma seed_coverage_witness :
  0 <= 1 /\
  pyramid Fixture.quad_grid (0, 0, 1, 1) quad_at_level 0 1 /\
  exists tr : list (seed_event Fixture.quad_grid),
    frame_run Fixture.quad_grid (0, 0, 1, 1) 0 (0, 0, 1, 1) 0 1 EmptyString false tr /\
    NoDup (emitted_tiles tr) /\
    (forall l t, 0 <= l <= 1 -> quad_at_level l t ->
       Fixture.box_contains (0, 0, 1, 1) (Fixture.quad_meta_bbox t)
       || Fixture.box_intersects (0, 0, 1, 1) (Fixture.quad_meta_bbox t) = true ->
       In t (emitted_tiles tr)) /\
    (forall t, In t (emitted_tiles tr) ->
       exists l, 0 <= l <= 1 /\ quad_at_level l t).
Proof.
  split; [lia|]. split; [apply quad_pyramid; lia|].
  apply (proj2 (seed_coverage Fixture.quad_grid (0, 0, 1, 1) 0) quad_at_level 0 1);
    [lia | apply quad_pyramid; lia].
Defined.
